(** * timeline_stamp: the timeline index, the nearest-sample search and the
    per-photograph EXIF reconciliation of [src/timeline_stamp.py].

    Conventions of the embedding.
    - A [datetime] that has been normalised with [.astimezone(utc)] is an
      absolute instant: an integer number of microseconds since the epoch
      ([Z]).  A [timedelta] is an integer number of microseconds as well
      (Python keeps days, seconds and microseconds in normal form, which is
      in bijection with the total).
    - A Python [float] is an IEEE 754 binary64 value, [spec_float] with
      [prec = 53] and [emax = 1024], and its arithmetic is the one of
      [SpecFloat].
    - The collaborators the program calls but does not define (the ISO 8601
      parser, [float] of a string, the timezone lookup and the timezone
      database, [strptime]/[strftime], the codec behind [piexif.dump] and
      [piexif.insert]) are the fields of the record [Collaborators], a
      Section variable of the development.
    - A file that [piexif.load] accepts is represented by the tag map it
      reads from it; what a rewritten file holds is what the codec reads
      back from it. *)

From Stdlib Require Import ZArith QArith Qabs List Bool Lia Sorted Permutation Ascii String DecimalString.
From Stdlib Require Import Floats.SpecFloat.
From stdpp Require Import base option list strings gmap.


Abbreviation float64 := spec_float.

(** ** Python values the program handles *)

(** Exceptions, by the class an [except] clause can tell apart. *)
Inductive exn : Type :=
  | KeyError | TypeError | ValueError | AttributeError | OverflowError | OSError.

Inductive result (A : Type) : Type :=
  | Ok (a : A)
  | Raise (e : exn).
Arguments Ok {A} a.
Arguments Raise {A} e.

Definition rbind {A B : Type} (r : result A) (k : A -> result B) : result B :=
  match r with
  | Ok a => k a
  | Raise e => Raise e
  end.

Definition of_option {A : Type} (e : exn) (o : option A) : result A :=
  match o with
  | Some a => Ok a
  | None => Raise e
  end.

(** Code that reads and updates a state [S] and may raise: the state reached
    when the exception left the code is kept, as with Python's in-place
    mutation. *)
Definition SE (S A : Type) : Type := S -> result A * S.

Definition ret {S A : Type} (a : A) : SE S A := fun s => (Ok a, s).
Definition throw {S A : Type} (e : exn) : SE S A := fun s => (Raise e, s).
Definition lift {S A : Type} (r : result A) : SE S A := fun s => (r, s).
Definition bind {S A B : Type} (m : SE S A) (k : A -> SE S B) : SE S B :=
  fun s =>
    match m s with
    | (Ok a, s') => k a s'
    | (Raise e, s') => (Raise e, s')
    end.
Definition modify {S : Type} (f : S -> S) : SE S unit := fun s => (Ok tt, f s).

Declare Scope se_scope.
Delimit Scope se_scope with se.
Notation "x <- m ;; k" := (bind m (fun x => k))
  (at level 100, m at next level, right associativity) : se_scope.
Notation "m ;;; k" := (bind m (fun _ => k))
  (at level 100, right associativity) : se_scope.
Notation "x <~ r ;; k" := (rbind r (fun x => k))
  (at level 100, r at next level, right associativity) : se_scope.

(** [try: body except Exception as exc: handler(exc)] *)
Definition try_except {S A : Type} (body : SE S A) (handler : exn -> SE S A) : SE S A :=
  fun s =>
    match body s with
    | (Ok a, s') => (Ok a, s')
    | (Raise e, s') => handler e s'
    end.

(** [for x in l: body(x)]; an exception leaves the loop. *)
Fixpoint for_each {S A : Type} (body : A -> SE S unit) (l : list A) : SE S unit :=
  match l with
  | [] => ret tt
  | x :: l' => bind (body x) (fun _ => for_each body l')
  end.

(** Logging. A record keeps the level and the message template. *)
Inductive log_level : Type := DEBUG | INFO | WARNING | ERROR.
Definition log_record : Type := log_level * string.

(** *** Strings

    A Python [str] is represented by its UTF-8 encoding, a [string] of
    bytes.  UTF-8 is self-synchronising, so searching for an encoded
    substring in the bytes finds exactly its occurrences in the text. *)

Fixpoint starts_with (pat s : string) : bool :=
  match pat, s with
  | EmptyString, _ => true
  | String a pat', String b s' => Ascii.eqb a b && starts_with pat' s'
  | String _ _, EmptyString => false
  end.

(** [s.replace(old, new)] for a non-empty [old]: occurrences are taken left
    to right and do not overlap.  [skip] counts the bytes of the occurrence
    just replaced that are still to be dropped. *)
Fixpoint replace_go (old new : string) (skip : nat) (s : string) : string :=
  match s with
  | EmptyString => EmptyString
  | String c s' =>
      match skip with
      | S k => replace_go old new k s'
      | O =>
          if starts_with old s
          then new +:+ replace_go old new (String.length old - 1) s'
          else String c (replace_go old new 0 s')
      end
  end.

Definition py_replace (old new s : string) : string := replace_go old new 0 s.

(** [s.split(sep)] for a non-empty [sep]; [cur] is the piece being read, in
    reverse. *)
Fixpoint split_go (sep : string) (skip : nat) (cur : list ascii) (s : string) : list string :=
  match s with
  | EmptyString => [string_of_list_ascii (rev cur)]
  | String c s' =>
      match skip with
      | S k => split_go sep k cur s'
      | O =>
          if starts_with sep s
          then string_of_list_ascii (rev cur) :: split_go sep (String.length sep - 1) [] s'
          else split_go sep 0 (c :: cur) s'
      end
  end.

Definition py_split (sep s : string) : list string := split_go sep 0 [] s.

(** The characters [str.strip()] removes (those with [str.isspace]), as
    UTF-8 byte sequences: U+0009..U+000D, U+001C..U+0020, U+0085, U+00A0,
    U+1680, U+2000..U+200A, U+2028, U+2029, U+202F, U+205F, U+3000. *)
Definition is_ascii_space (b : N) : bool :=
  ((9 <=? b) && (b <=? 13) || (28 <=? b) && (b <=? 32))%N.

(** Length in bytes of the whitespace character the bytes start with, [0]
    when they start with none. *)
Definition space_length (bytes : list N) : nat :=
  match bytes with
  | b :: rest =>
      if is_ascii_space b then 1
      else match b, rest with
           | 194%N, b1 :: _ => if ((b1 =? 133) || (b1 =? 160))%N then 2 else 0
           | 225%N, 154%N :: 128%N :: _ => 3
           | 226%N, 128%N :: b2 :: _ =>
               if ((128 <=? b2) && (b2 <=? 138) || (b2 =? 168) || (b2 =? 169) || (b2 =? 175))%N
               then 3 else 0
           | 226%N, 129%N :: 159%N :: _ => 3
           | 227%N, 128%N :: 128%N :: _ => 3
           | _, _ => 0
           end
  | [] => 0
  end.

(** The same for a byte sequence read backwards (last byte first). *)
Definition space_length_rev (bytes : list N) : nat :=
  match bytes with
  | b :: rest =>
      if is_ascii_space b then 1
      else match rest with
           | 194%N :: _ => if ((b =? 133) || (b =? 160))%N then 2 else 0
           | 154%N :: 225%N :: _ => if (b =? 128)%N then 3 else 0
           | 128%N :: 226%N :: _ =>
               if ((128 <=? b) && (b <=? 138) || (b =? 168) || (b =? 169) || (b =? 175))%N
               then 3 else 0
           | 129%N :: 226%N :: _ => if (b =? 159)%N then 3 else 0
           | 128%N :: 227%N :: _ => if (b =? 128)%N then 3 else 0
           | _ => 0
           end
  | [] => 0
  end.

Fixpoint drop_spaces (measure : list N -> nat) (skip : nat) (bytes : list N) : list N :=
  match bytes with
  | [] => []
  | _ :: rest =>
      match skip with
      | S k => drop_spaces measure k rest
      | O =>
          match measure bytes with
          | O => bytes
          | S k => drop_spaces measure k rest
          end
      end
  end.

Definition bytes_of_string (s : string) : list N :=
  map Ascii.N_of_ascii (list_ascii_of_string s).
Definition string_of_bytes (l : list N) : string :=
  string_of_list_ascii (map Ascii.ascii_of_N l).

Definition py_strip (s : string) : string :=
  let l := drop_spaces space_length 0 (bytes_of_string s) in
  string_of_bytes (rev (drop_spaces space_length_rev 0 (rev l))).

(** [needle in haystack] on strings. *)
Fixpoint is_substring (needle haystack : string) : bool :=
  starts_with needle haystack ||
  match haystack with
  | EmptyString => false
  | String _ rest => is_substring needle rest
  end.

(** The characters of a string, each as a string: a byte [10xxxxxx]
    continues the character before it. *)
Definition is_continuation (c : ascii) : bool :=
  let b := Ascii.N_of_ascii c in ((128 <=? b) && (b <? 192))%N.

Fixpoint utf8_chars (s : string) : list string :=
  match s with
  | EmptyString => []
  | String c s' =>
      match utf8_chars s' with
      | [] => [String c EmptyString]
      | ch :: chars =>
          match s' with
          | String c' _ =>
              if is_continuation c' then String c ch :: chars
              else String c EmptyString :: ch :: chars
          | EmptyString => [String c EmptyString]
          end
      end
  end.

(** *** JSON items, as [ijson] hands them over *)

#[local] Set Warnings "-register-all".

Inductive json : Type :=
  | JNull
  | JBool (b : bool)
  | JNum (literal : string)
  | JStr (s : string)
  | JArr (items : list json)
  | JObj (fields : gmap string json).

Definition is_str (key : string) (v : json) : bool :=
  match v with
  | JStr s => String.eqb s key
  | _ => false
  end.

(** [key in v] *)
Definition py_contains (key : string) (v : json) : result bool :=
  match v with
  | JObj fields => Ok (bool_decide (is_Some (fields !! key)))
  | JArr items => Ok (existsb (is_str key) items)
  | JStr s => Ok (is_substring key s)
  | JNull | JBool _ | JNum _ => Raise TypeError
  end.

(** [v[key]] for a string [key] *)
Definition py_getitem (v : json) (key : string) : result json :=
  match v with
  | JObj fields => of_option KeyError (fields !! key)
  | _ => Raise TypeError
  end.

(** [for x in v]: the items [v] yields. *)
Definition py_iter (v : json) : result (list json) :=
  match v with
  | JArr items => Ok items
  | JObj fields => Ok (map (fun kv => JStr (fst kv)) (map_to_list fields))
  | JStr s => Ok (map JStr (utf8_chars s))
  | JNull | JBool _ | JNum _ => Raise TypeError
  end.

(** [v.get(key, default)] *)
Definition py_get (v : json) (key : string) (default : json) : result json :=
  match v with
  | JObj fields => Ok (match fields !! key with Some x => x | None => default end)
  | _ => Raise AttributeError
  end.

(** *** Floats and integers *)

Definition prec : Z := 53.
Definition emax : Z := 1024.

(** [float(z)] of an integer; used on integers that do not overflow. *)
Definition Z2SF (z : Z) : float64 := binary_normalize prec emax z 0 false.

(** [int(x)]: truncation towards zero. *)
Definition float_to_int (x : float64) : result Z :=
  match x with
  | S754_zero _ => Ok 0%Z
  | S754_finite s m e =>
      let a := Z.shiftl (Z.pos m) e in
      Ok (if s then (- a)%Z else a)
  | S754_infinity _ => Raise OverflowError
  | S754_nan => Raise ValueError
  end.

(** [a / b] on integers with [b > 0]: the quotient, correctly rounded. *)
Definition int_true_divide (a : Z) (b : positive) : float64 :=
  let quotient (s : bool) (m : positive) :=
    let '(mz, ez, lz) := SFdiv_core_binary prec emax (Z.pos m) 0 (Z.pos b) 0 in
    binary_round_aux prec emax s mz ez lz in
  match a with
  | Z0 => S754_zero false
  | Zpos m => quotient false m
  | Zneg m => quotient true m
  end.

(** [f"{n:02d}"] *)
Definition format_02d (n : Z) : string :=
  let s := DecimalString.NilZero.string_of_int (Z.to_int n) in
  if String.length s <? 2 then ("0" +:+ s) else s.

(** [datetime._divide_and_round(a, b)]: [a / b] rounded to the nearest
    integer, halves to even; it is what [timedelta / int] computes on the
    microseconds. *)
Definition _divide_and_round (a b : Z) : Z :=
  let q := (a / b)%Z in
  let r := (2 * (a mod b))%Z in
  let greater_than_half := if (0 <? b)%Z then (b <? r)%Z else (r <? b)%Z in
  if greater_than_half || ((r =? b)%Z && (q mod 2 =? 1)%Z) then (q + 1)%Z else q.

(** ** Offset formatting *)

(** [timedelta.total_seconds()] *)
Definition total_seconds (td : Z) : float64 := int_true_divide td 1000000.

Definition _format_tz_offset (td : Z) : result string :=
  rbind (float_to_int (SFdiv prec emax (total_seconds td) (Z2SF 60))) (fun total_minutes =>
  let sign := if (0 <=? total_minutes)%Z then "+" else "-" in
  let total_minutes := Z.abs total_minutes in
  let hh := (total_minutes / 60)%Z in
  let mm := (total_minutes mod 60)%Z in
  Ok (sign +:+ format_02d hh +:+ ":" +:+ format_02d mm)).

(** ** GPS encoding *)

Definition _deg_to_dms_rational (deg_float : float64) : result (list (Z * Z)) :=
  let deg_abs := SFabs deg_float in
  rbind (float_to_int deg_abs) (fun deg =>
  let minutes_float := SFmul prec emax (SFsub prec emax deg_abs (Z2SF deg)) (Z2SF 60) in
  rbind (float_to_int minutes_float) (fun minutes =>
  let seconds := SFmul prec emax (SFsub prec emax minutes_float (Z2SF minutes)) (Z2SF 60) in
  rbind (float_to_int (SFmul prec emax seconds (Z2SF 100))) (fun hundredths =>
  Ok [(deg, 1%Z); (minutes, 1%Z); (hundredths, 100%Z)]))).

(** [x >= 0] for a float [x]. *)
Definition float_nonneg (x : float64) : bool := SFleb (Z2SF 0) x.

(** The text [±HH:MM] written out digit by digit, for hours and minutes
    below 100. *)
Definition digit (d : Z) : ascii := ascii_of_N (48 + Z.to_N d).

Definition hh_mm (sign : ascii) (h m : Z) : string :=
  String sign
    (String (digit (h / 10)) (String (digit (h mod 10))
      (String ":"
        (String (digit (m / 10)) (String (digit (m mod 10)) EmptyString))))).

(** [_format_tz_offset] on an offset of [m] whole minutes gives the sign of
    [m] and its hours and minutes, two digits each. *)
Definition offset_formats_as_hh_mm (m : Z) : bool :=
  match _format_tz_offset (m * 60000000) with
  | Ok s =>
      String.eqb s
        (hh_mm (if (0 <=? m)%Z then "+" else "-") (Z.abs m / 60) (Z.abs m mod 60))
  | Raise _ => false
  end.

(** The whole-minute offsets a [datetime] may carry: those strictly between
    -24 h and +24 h. *)
Definition utc_offset_minutes : list Z :=
  map (fun i => (Z.of_nat i - 1439)%Z) (seq 0 2879).

(** *** The value of a float *)

(** The real number a finite float stands for, as a rational; [0] for the
    zeros (and for infinities and NaN, which have no value). *)
Definition SF2Q (x : float64) : Q :=
  match x with
  | S754_finite s m e =>
      let magnitude :=
        match e with
        | Zneg p => Qmake (Z.pos m) (2 ^ p)
        | _ => inject_Z (Z.pos m * 2 ^ e)
        end in
      if s then Qopp magnitude else magnitude
  | _ => 0%Q
  end.

(** The value of an EXIF rational, a pair of numerator and denominator. *)
Definition rational (r : Z * Z) : Q := Qdiv (inject_Z (fst r)) (inject_Z (snd r)).

(** The decoding the round-trip property speaks of (the program only
    encodes): [deg + min / 60 + sec / 3600], negated in the southern or
    western hemisphere. *)
Definition dms_decode (positive_ref : bool) (dms : list (Z * Z)) : Q :=
  match dms with
  | [deg; minutes; seconds] =>
      let v := (rational deg + rational minutes / 60 + rational seconds / 3600)%Q in
      if positive_ref then v else Qopp v
  | _ => 0%Q
  end.

(** A float in units of [2 ^ -1200], an integer for every float whose
    exponent is at least [-1200]; the magnitude only. *)
Definition scaled (x : float64) : Z :=
  match x with
  | S754_finite _ m e => (Z.pos m * 2 ^ (e + 1200))%Z
  | _ => 0%Z
  end.

(** The number one in these units. *)
Definition ONE : Z := (2 ^ 1200)%Z.

(** A zero or a finite float in canonical form with the sign [s]. *)
Definition canonical (s : bool) (x : float64) : Prop :=
  x = S754_zero s \/
  exists m e, x = S754_finite s m e /\ bounded 53 1024 m e = true.

(** The float [binary_round_aux] builds from the rounded mantissa [m] at
    the exponent [e]: its last step. *)
Definition renormalized (s : bool) (m e : Z) : float64 :=
  let '(mrs, e') := shr_fexp 53 1024 m e loc_Exact in
  match shr_m mrs with
  | Z0 => S754_zero s
  | Zpos m' => if (e' <=? 971)%Z then S754_finite s m' e' else S754_infinity s
  | Zneg _ => S754_nan
  end.

(** A non-negative float in canonical form, the shape every intermediate
    result of the encoding has. *)
Definition tame (x : float64) : Prop := canonical false x.

(** ** Utility dataclasses *)

Record TimelinePoint := mkPoint {
  time_utc : Z;
  lat : float64;
  lon : float64
}.

(** The index invariant: instants never decrease along the list. *)
Definition non_decreasing (points : list TimelinePoint) : Prop :=
  forall (i j : nat) (p q : TimelinePoint),
    i < j -> points !! i = Some p -> points !! j = Some q ->
    (time_utc p <= time_utc q)%Z.

Definition instant_le (p q : TimelinePoint) : Prop := (time_utc p <= time_utc q)%Z.

(** ** Nearest-sample search *)

(** [bisect.bisect_left(a, x)]: the loop
    [while lo < hi: mid = (lo + hi) // 2; if a[mid] < x: lo = mid + 1 else: hi = mid].
    The fuel bounds the number of iterations; [bisect_left] supplies
    [len(a)], which is always enough (lemma [bisect_loop_spec]). *)
Fixpoint bisect_loop (fuel : nat) (a : list Z) (x : Z) (lo hi : nat) : nat :=
  match fuel with
  | O => lo
  | S fuel' =>
      if lo <? hi then
        let mid := (lo + hi) / 2 in
        if (nth mid a 0 <? x)%Z
        then bisect_loop fuel' a x (mid + 1) hi
        else bisect_loop fuel' a x lo mid
      else lo
  end.

Definition bisect_left (a : list Z) (x : Z) : nat :=
  bisect_loop (length a) a x 0 (length a).

(** [min(candidates, key=...)] started on its first element: a later element
    replaces the current best only when its key is strictly smaller. *)
Fixpoint min_from {A : Type} (key : A -> Z) (best : A) (rest : list A) : A :=
  match rest with
  | [] => best
  | c :: rest' =>
      if (key c <? key best)%Z then min_from key c rest' else min_from key best rest'
  end.

Definition py_min {A : Type} (key : A -> Z) (l : list A) : option A :=
  match l with
  | [] => None
  | c :: rest => Some (min_from key c rest)
  end.

(** [abs(p.time_utc - ts)]. *)
Definition gap (p : TimelinePoint) (ts : Z) : Z := Z.abs (time_utc p - ts).

Definition candidates_at (points : list TimelinePoint) (idx : nat) : list TimelinePoint :=
  (if idx <? length points then option_list (points !! idx) else []) ++
  (if 0 <? idx then option_list (points !! (idx - 1)) else []).

Definition find_nearest_timeline_point
    (points : list TimelinePoint) (ts : Z) : option TimelinePoint :=
  let keys := map time_utc points in
  let idx := bisect_left keys ts in
  py_min (fun p => gap p ts) (candidates_at points idx).


(** ** EXIF tag maps, as [piexif.load] returns them *)

Inductive exif_value : Type :=
  | EBytes (b : string)
  | EInt (n : Z)
  | EInts (l : list Z)
  | ERational (num den : Z)
  | ERationals (l : list (Z * Z)).

(** Python truth value of a tag value: empty bytes, [0] and the empty tuple
    are false. *)
Definition truthy (v : exif_value) : bool :=
  match v with
  | EBytes b => negb (String.eqb b "")
  | EInt n => negb (n =? 0)%Z
  | EInts l => negb (Nat.eqb (length l) 0)
  | ERational _ _ => true
  | ERationals l => negb (Nat.eqb (length l) 0)
  end.

Definition truthy_opt (o : option exif_value) : bool :=
  match o with
  | Some v => truthy v
  | None => false
  end.

(** [piexif.load] always returns the five groups and the thumbnail. *)
Record exif_dict : Type := mkExif {
  ifd_0th : gmap N exif_value;
  ifd_Exif : gmap N exif_value;
  ifd_GPS : gmap N exif_value;
  ifd_Interop : gmap N exif_value;
  ifd_1st : gmap N exif_value;
  thumbnail : option string
}.

(** [piexif]'s tag numbers (those of the EXIF standard). *)
Module ImageIFD.
Definition DateTime : N := 306.
Definition JPEGInterchangeFormat : N := 513.
Definition JPEGInterchangeFormatLength : N := 514.
Definition ExifTag : N := 34665.
Definition GPSTag : N := 34853.
End ImageIFD.

Module ExifIFD.
Definition DateTimeOriginal : N := 36867.
Definition DateTimeDigitized : N := 36868.
Definition OffsetTime : N := 36880.
Definition OffsetTimeOriginal : N := 36881.
Definition OffsetTimeDigitized : N := 36882.
Definition InteroperabilityTag : N := 40965.
End ExifIFD.

Module GPSIFD.
Definition GPSLatitudeRef : N := 1.
Definition GPSLatitude : N := 2.
Definition GPSLongitudeRef : N := 3.
Definition GPSLongitude : N := 4.
End GPSIFD.

(** A file of the photo directory: a JPEG with the tag map [piexif.load]
    reads from it, or something [piexif.load] rejects. *)
Inductive file : Type :=
  | Photo (e : exif_dict)
  | NotAPhoto (content : string).

(** The tag maps [e] and [w] agree on everything but the tags that hold the
    position of a group or of the thumbnail in the file: [ExifTag] and
    [GPSTag] of the 0th group, [InteroperabilityTag] of the Exif group, and
    the two [JPEGInterchangeFormat] tags of the 1st group.  [piexif.dump]
    computes these itself from the layout of what it writes. *)
Definition same_outside_pointers (e w : exif_dict) : Prop :=
  (forall tag, tag <> ImageIFD.ExifTag -> tag <> ImageIFD.GPSTag ->
     ifd_0th w !! tag = ifd_0th e !! tag) /\
  (forall tag, tag <> ExifIFD.InteroperabilityTag ->
     ifd_Exif w !! tag = ifd_Exif e !! tag) /\
  ifd_GPS w = ifd_GPS e /\
  ifd_Interop w = ifd_Interop e /\
  (forall tag, tag <> ImageIFD.JPEGInterchangeFormat ->
     tag <> ImageIFD.JPEGInterchangeFormatLength ->
     ifd_1st w !! tag = ifd_1st e !! tag) /\
  thumbnail w = thumbnail e.

(** ** Collaborators

    What the program calls and does not define.  Time zones are named by
    their IANA name; a naive [datetime] of one-second precision is the count
    of its seconds.  Timestamps are taken away from the two ends of the
    range of [datetime] (the years 1 and 9999), where a conversion between
    zones raises [OverflowError]; such a photo is skipped with a warning by
    the [try] of the loop. *)
Record Collaborators : Type := {
  (** [float(s)]; [None] when it raises [ValueError]. *)
  py_float : string -> option float64;
  (** [dtparse.isoparse(s).astimezone(dt.timezone.utc)], in microseconds;
      [None] when it raises. *)
  isoparse_utc : string -> option Z;
  (** [dt.datetime.strptime(b.decode(), "%Y:%m:%d %H:%M:%S")]; [None] when
      either call raises (both raise a [ValueError]). *)
  strptime_exif : string -> option Z;
  (** [pytz.timezone(name)] succeeds. *)
  known_timezone : string -> bool;
  (** [tz.localize(naive).astimezone(dt.timezone.utc)], in microseconds. *)
  localize_utc : string -> Z -> Z;
  (** [tf.timezone_at(lat=.., lng=..)] *)
  timezone_at : float64 -> float64 -> result (option string);
  (** [instant.astimezone(tz).utcoffset()], in microseconds. *)
  utcoffset : string -> Z -> option Z;
  (** [instant.astimezone(tz).strftime("%Y:%m:%d %H:%M:%S")] *)
  strftime_local : string -> Z -> string;
  (** [piexif.insert(piexif.dump(e), path)] on the file at [path], from
      which [piexif.load] reads [cur]: the exception either call raises
      ([dump] on a value it cannot encode, [insert] on a file it cannot
      rewrite), or else the tag map [piexif.load] reads from the rewritten
      file. *)
  piexif_rewrite : string -> exif_dict -> exif_dict -> result exif_dict;
  (** The codec keeps the tags it is given: what is read back differs from
      what was written in the pointer tags at most. *)
  piexif_rewrite_keeps_tags :
    forall (path : string) (cur e w : exif_dict),
      piexif_rewrite path cur e = Ok w -> same_outside_pointers e w
}.


(** A small instance of the collaborators, enough to run the examples: a
    few coordinate and time strings, three time zones with a fixed offset,
    a timezone lookup that knows the eastern hemisphere only, and a codec
    that always succeeds and sets the two pointers of the 0th group. *)
Definition example_float (s : string) : option float64 :=
  if String.eqb s "35.0" then Some (Z2SF 35)
  else if String.eqb s "139.0" then Some (Z2SF 139)
  else if String.eqb s "-122.0" then Some (Z2SF (-122))
  else if String.eqb s "0.02" then Some (S754_finite false 5764607523034235 (-58))
  else None.

Definition example_isoparse (s : string) : option Z :=
  if String.eqb s "2024-01-01T10:00:00Z" then Some 1704103200000000%Z
  else if String.eqb s "2024-01-01T12:00:00Z" then Some 1704110400000000%Z
  else if String.eqb s "2024-06-01T18:00:00Z" then Some 1717264800000000%Z
  else None.

Definition example_strptime (s : string) : option Z :=
  if String.eqb s "2024:06:01 10:30:00" then Some 1717237800%Z
  else if String.eqb s "2024:06:01 03:00:00" then Some 1717210800%Z
  else None.

Definition example_offset (tz : string) : option Z :=
  if String.eqb tz "UTC" then Some 0%Z
  else if String.eqb tz "Asia/Tokyo" then Some 32400000000%Z
  else if String.eqb tz "Etc/GMT+7" then Some (-25200000000)%Z
  else None.

Definition example_strftime (tz : string) (instant : Z) : string :=
  if (String.eqb tz "Asia/Tokyo" && (instant =? 1717263000000000)%Z)%bool
  then "2024:06:02 02:30:00"
  else "1970:01:01 00:00:00".

Definition example_rewrite (e : exif_dict) : exif_dict :=
  mkExif (<[ImageIFD.GPSTag := EInt 193]> (<[ImageIFD.ExifTag := EInt 70]> (ifd_0th e)))
    (ifd_Exif e) (ifd_GPS e) (ifd_Interop e) (ifd_1st e) (thumbnail e).

Definition example_collaborators : Collaborators := {|
  py_float := example_float;
  isoparse_utc := example_isoparse;
  strptime_exif := example_strptime;
  known_timezone := fun tz => bool_decide (is_Some (example_offset tz));
  localize_utc := fun tz naive =>
    (naive * 1000000 - match example_offset tz with Some d => d | None => 0 end)%Z;
  timezone_at := fun lat lon =>
    if SFltb (Z2SF 0) lon then Ok (Some "Asia/Tokyo") else Ok None;
  utcoffset := fun tz _ => example_offset tz;
  strftime_local := example_strftime;
  piexif_rewrite := fun _ _ e => Ok (example_rewrite e);
  piexif_rewrite_keeps_tags :=
    ltac:(intros path cur e w [= <-]; repeat split; intros;
          cbn [example_rewrite ifd_0th]; now rewrite !lookup_insert_ne by congruence)
|}.

(** The visit of the example: two hours at 35.0 N, 139.0 E. *)
Definition example_visit : json :=
  JObj {[ "startTime" := JStr "2024-01-01T10:00:00Z";
          "endTime" := JStr "2024-01-01T12:00:00Z";
          "visit" :=
            JObj {[ "topCandidate" :=
              JObj {[ "placeLocation" :=
                JObj {[ "latLng" := JStr "35.0°, 139.0°" ]} ]} ]} ]}.

Definition example_entry (point time : string) : json :=
  JObj {[ "point" := JStr point; "time" := JStr time ]}.

(** A path segment whose first entry has a malformed coordinate string and
    whose second entry is well formed. *)
Definition example_broken_path : json :=
  JObj {[ "timelinePath" :=
    JArr [example_entry "35.0°; 139.0°" "2024-01-01T10:00:00Z";
          example_entry "35.0°, 139.0°" "2024-01-01T12:00:00Z"] ]}.

Section Program.

Variable env : Collaborators.

Local Open Scope se_scope.

(** ** Parsing the timeline *)

Record build_state : Type := mkBuild {
  tf_points : list TimelinePoint;
  build_log : list log_record
}.

Definition append_point (p : TimelinePoint) : SE build_state unit :=
  modify (fun s => mkBuild (tf_points s ++ [p]) (build_log s)).

Definition build_logger (r : log_record) : SE build_state unit :=
  modify (fun s => mkBuild (tf_points s) (build_log s ++ [r])).

Definition _parse_latlng (ll_str : json) : result (float64 * float64) :=
  match ll_str with
  | JStr ll_str =>
      let ll_clean := py_strip (py_replace "°" "" ll_str) in
      match map py_strip (py_split "," ll_clean) with
      | [lat_str; lon_str] =>
          lat <~ of_option ValueError (py_float env lat_str) ;;
          lon <~ of_option ValueError (py_float env lon_str) ;;
          Ok (lat, lon)
      | _ => Raise ValueError
      end
  | _ => Raise AttributeError
  end.

(** [dtparse.isoparse(v).astimezone(dt.timezone.utc)] on a JSON item. *)
Definition isoparse_item (v : json) : result Z :=
  match v with
  | JStr s => of_option ValueError (isoparse_utc env s)
  | _ => Raise TypeError
  end.

(** The sample a [timelinePath] entry yields. *)
Definition path_entry_point (entry : json) : result TimelinePoint :=
  point <~ py_getitem entry "point" ;;
  latlon <~ _parse_latlng point ;;
  time <~ py_getitem entry "time" ;;
  time_local <~ isoparse_item time ;;
  Ok (mkPoint time_local (fst latlon) (snd latlon)).

Definition _add_point_from_path_entry (entry : json) : SE build_state unit :=
  p <- lift (path_entry_point entry) ;;
  append_point p.

(** The location lookup of a visit, inside its [try]. *)
Definition visit_location (seg : json) : result (float64 * float64) :=
  visit <~ py_getitem seg "visit" ;;
  top <~ py_getitem visit "topCandidate" ;;
  place <~ py_getitem top "placeLocation" ;;
  loc_str <~ py_getitem place "latLng" ;;
  _parse_latlng loc_str.

Definition _add_point_from_visit (seg : json) : SE build_state unit :=
  match visit_location seg with
  | Raise KeyError | Raise TypeError | Raise ValueError => ret tt
  | Raise e => throw e
  | Ok (lat, lon) =>
      start_s <- lift (py_getitem seg "startTime") ;;
      start <- lift (isoparse_item start_s) ;;
      end_s <- lift (py_getitem seg "endTime") ;;
      end_ <- lift (isoparse_item end_s) ;;
      let midpoint := (start + _divide_and_round (end_ - start) 2)%Z in
      append_point (mkPoint midpoint lat lon)
  end.

Definition parse_segment (seg : json) : SE build_state unit :=
  has_path <- lift (py_contains "timelinePath" seg) ;;
  if has_path : bool then
    path <- lift (py_get seg "timelinePath" (JArr [])) ;;
    entries <- lift (py_iter path) ;;
    for_each _add_point_from_path_entry entries
  else
    has_visit <- lift (py_contains "visit" seg) ;;
    if has_visit : bool then _add_point_from_visit seg else ret tt.

(** [list.sort(key=...)]: sorted and stable, which fixes the result; it is
    computed here by insertion. *)
Fixpoint insert_by_key (p : TimelinePoint) (l : list TimelinePoint) : list TimelinePoint :=
  match l with
  | [] => [p]
  | q :: l' =>
      if (time_utc p <=? time_utc q)%Z then p :: l else q :: insert_by_key p l'
  end.

Fixpoint sort_by_time (l : list TimelinePoint) : list TimelinePoint :=
  match l with
  | [] => []
  | p :: l' => insert_by_key p (sort_by_time l')
  end.

(** The loop of [load_timeline_points] over the segments [ijson] yields. *)
Definition parse_segments (segments : list json) : SE build_state unit :=
  for_each
    (fun seg =>
       try_except (parse_segment seg)
         (fun _ => build_logger (WARNING, "Failed to parse segment entry: %s")))
    segments.

Definition load_timeline_points (segments : list json) : list TimelinePoint * list log_record :=
  let s := snd (parse_segments segments (mkBuild [] [])) in
  (sort_by_time (tf_points s), build_log s ++ [(INFO, "Loaded %s timeline points")]).

(** ** Photo processing *)

Record run_state : Type := mkRun {
  fs : gmap string file;
  processed : nat;
  skipped : nat;
  run_log : list log_record
}.

Definition logger (r : log_record) : SE run_state unit :=
  modify (fun s => mkRun (fs s) (processed s) (skipped s) (run_log s ++ [r])).

Definition count_processed : SE run_state unit :=
  modify (fun s => mkRun (fs s) (processed s + 1) (skipped s) (run_log s)).

Definition count_skipped : SE run_state unit :=
  modify (fun s => mkRun (fs s) (processed s) (skipped s + 1) (run_log s)).

(** [piexif.load(str(filepath))] *)
Definition piexif_load (filepath : string) : SE run_state exif_dict :=
  fun s =>
    match fs s !! filepath with
    | Some (Photo e) => (Ok e, s)
    | Some (NotAPhoto _) => (Raise ValueError, s)
    | None => (Raise OSError, s)
    end.

(** [piexif.insert(piexif.dump(exif_dict), str(filepath))]: the file is
    rewritten, and holds afterwards what the codec reads back from it. *)
Definition piexif_insert_dump (e : exif_dict) (filepath : string) : SE run_state unit :=
  fun s =>
    match fs s !! filepath with
    | Some (Photo cur) =>
        match piexif_rewrite env filepath cur e with
        | Ok w =>
            (Ok tt,
             mkRun (<[filepath := Photo w]> (fs s)) (processed s) (skipped s) (run_log s))
        | Raise exc => (Raise exc, s)
        end
    | Some (NotAPhoto _) => (Raise ValueError, s)
    | None => (Raise OSError, s)
    end.

(** The backup step: [shutil.copy2(filepath, backup_path)] unless the backup
    exists; a failure of the copy is logged and otherwise ignored. *)
Definition backup_file (filepath : string) : SE run_state unit :=
  let backup_path := filepath +:+ ".exif_backup" in
  fun s =>
    match fs s !! backup_path with
    | Some _ => (Ok tt, s)
    | None =>
        match fs s !! filepath with
        | Some f =>
            (Ok tt, mkRun (<[backup_path := f]> (fs s)) (processed s) (skipped s) (run_log s))
        | None =>
            logger (WARNING, "Could not create backup for %s: %s") s
        end
    end.

Definition set_Exif (tag : N) (v : exif_value) (e : exif_dict) : exif_dict :=
  mkExif (ifd_0th e) (<[tag := v]> (ifd_Exif e)) (ifd_GPS e) (ifd_Interop e) (ifd_1st e)
    (thumbnail e).

Definition set_0th (tag : N) (v : exif_value) (e : exif_dict) : exif_dict :=
  mkExif (<[tag := v]> (ifd_0th e)) (ifd_Exif e) (ifd_GPS e) (ifd_Interop e) (ifd_1st e)
    (thumbnail e).

Definition set_GPS (tag : N) (v : exif_value) (e : exif_dict) : exif_dict :=
  mkExif (ifd_0th e) (ifd_Exif e) (<[tag := v]> (ifd_GPS e)) (ifd_Interop e) (ifd_1st e)
    (thumbnail e).

Definition _write_gps (e : exif_dict) (lat lon : float64) : result exif_dict :=
  let e := set_GPS GPSIFD.GPSLatitudeRef (EBytes (if float_nonneg lat then "N" else "S")) e in
  lat_dms <~ _deg_to_dms_rational lat ;;
  let e := set_GPS GPSIFD.GPSLatitude (ERationals lat_dms) e in
  let e := set_GPS GPSIFD.GPSLongitudeRef (EBytes (if float_nonneg lon then "E" else "W")) e in
  lon_dms <~ _deg_to_dms_rational lon ;;
  Ok (set_GPS GPSIFD.GPSLongitude (ERationals lon_dms) e).

(** [value.decode()] followed by [strptime]: only [bytes] has [decode]. *)
Definition parse_original (v : exif_value) : result Z :=
  match v with
  | EBytes b => of_option ValueError (strptime_exif env b)
  | _ => Raise AttributeError
  end.

(** The date/time, offset and GPS fields [update_photo] computes for the
    tag map [e], the matched sample and the instant of the photo. *)
Definition stamp_fields (e : exif_dict) (tl_point : TimelinePoint)
    (local_tz : string) (aware_utc : Z) : result exif_dict :=
  let offset :=
    match utcoffset env local_tz aware_utc with
    | Some d => if (d =? 0)%Z then 0%Z else d
    | None => 0%Z
    end in
  offset_str <~ _format_tz_offset offset ;;
  let dt_bytes := EBytes (strftime_local env local_tz aware_utc) in
  let e := set_Exif ExifIFD.DateTimeOriginal dt_bytes e in
  let e := set_Exif ExifIFD.DateTimeDigitized dt_bytes e in
  let e := set_0th ImageIFD.DateTime dt_bytes e in
  let e := set_Exif ExifIFD.OffsetTime (EBytes offset_str) e in
  let e := set_Exif ExifIFD.OffsetTimeOriginal (EBytes offset_str) e in
  let e := set_Exif ExifIFD.OffsetTimeDigitized (EBytes offset_str) e in
  _write_gps e (lat tl_point) (lon tl_point).

(** The tag map [e] holds the given date/time, offset and GPS values in
    the ten tags [update_photo] writes. *)
Definition carries_stamp (e : exif_dict) (time_str offset_str : string)
    (lat_ref : string) (lat_dms : list (Z * Z))
    (lon_ref : string) (lon_dms : list (Z * Z)) : Prop :=
  ifd_Exif e !! ExifIFD.DateTimeOriginal = Some (EBytes time_str) /\
  ifd_Exif e !! ExifIFD.DateTimeDigitized = Some (EBytes time_str) /\
  ifd_0th e !! ImageIFD.DateTime = Some (EBytes time_str) /\
  ifd_Exif e !! ExifIFD.OffsetTime = Some (EBytes offset_str) /\
  ifd_Exif e !! ExifIFD.OffsetTimeOriginal = Some (EBytes offset_str) /\
  ifd_Exif e !! ExifIFD.OffsetTimeDigitized = Some (EBytes offset_str) /\
  ifd_GPS e !! GPSIFD.GPSLatitudeRef = Some (EBytes lat_ref) /\
  ifd_GPS e !! GPSIFD.GPSLatitude = Some (ERationals lat_dms) /\
  ifd_GPS e !! GPSIFD.GPSLongitudeRef = Some (EBytes lon_ref) /\
  ifd_GPS e !! GPSIFD.GPSLongitude = Some (ERationals lon_dms).

Definition has_gps (e : exif_dict) : bool :=
  truthy_opt (ifd_GPS e !! GPSIFD.GPSLatitude) &&
  truthy_opt (ifd_GPS e !! GPSIFD.GPSLongitude).

Definition update_photo (filepath : string) (tl_point : TimelinePoint) (camera_tz : string)
    (apply backup overwrite_gps : bool) : SE run_state bool :=
  exif <- piexif_load filepath ;;
  if negb overwrite_gps && has_gps exif then
    logger (DEBUG, "%s already has GPS tags; skipping") ;;;
    ret false
  else
    match ifd_Exif exif !! ExifIFD.DateTimeOriginal with
    | None =>
        logger (WARNING, "%s has no DateTimeOriginal; skipped") ;;;
        ret false
    | Some original =>
        naive_dt <- lift (parse_original original) ;;
        let aware_utc := localize_utc env camera_tz naive_dt in
        tz_name <- lift (timezone_at env (lat tl_point) (lon tl_point)) ;;
        match tz_name with
        | None =>
            logger (WARNING, "Could not find timezone for %s; skipped") ;;;
            ret false
        | Some tz_name =>
            if known_timezone env tz_name then
              exif' <- lift (stamp_fields exif tl_point tz_name aware_utc) ;;
              if apply then
                (if backup then backup_file filepath else ret tt) ;;;
                piexif_insert_dump exif' filepath ;;;
                ret true
              else
                logger (INFO, "[dry-run] Would update %s (lat=%.5f, lon=%.5f, tz=%s, time=%s)") ;;;
                ret true
            else throw KeyError
        end
    end.

(** ** CLI entry point *)

Record arguments : Type := mkArgs {
  camera_tz : string;
  max_gap_minutes : Z;
  apply : bool;
  backup : bool;
  overwrite_gps : bool;
  verbose : bool
}.

(** The microseconds of [dt.timedelta(minutes=n)]. *)
Definition timedelta_minutes (n : Z) : Z := (n * 60000000)%Z.

(** [dt.timedelta(minutes=n)]: a [timedelta] holds at most 999999999 days
    in either direction (the days are the floor of the quotient). *)
Definition timedelta (n : Z) : result Z :=
  let days := (timedelta_minutes n / 86400000000)%Z in
  if ((-999999999 <=? days) && (days <=? 999999999))%Z
  then Ok (timedelta_minutes n)
  else Raise OverflowError.

(** The body of the loop over the photos, inside its [try].  [max_gap] is
    the value [main] built before the loop. *)
Definition process_photo (args : arguments) (points : list TimelinePoint)
    (photo : string) : SE run_state unit :=
  let max_gap := timedelta_minutes (max_gap_minutes args) in
  exif <- piexif_load photo ;;
  let orig_bytes := ifd_Exif exif !! ExifIFD.DateTimeOriginal in
  match orig_bytes with
  | Some orig =>
      if truthy orig then
        naive_dt <- lift (parse_original orig) ;;
        let photo_dt_utc := localize_utc env (camera_tz args) naive_dt in
        match find_nearest_timeline_point points photo_dt_utc with
        | Some tl_point =>
            if (max_gap <? gap tl_point photo_dt_utc)%Z then
              logger (INFO, "%s has no close timeline match (gap > %s); skipping") ;;;
              count_skipped
            else
              would_update <- update_photo photo tl_point (camera_tz args)
                                (apply args) (backup args) (overwrite_gps args) ;;
              if would_update : bool then count_processed else ret tt
        | None =>
            logger (INFO, "%s has no close timeline match (gap > %s); skipping") ;;;
            count_skipped
        end
      else
        logger (INFO, "%s lacks DateTimeOriginal, skipping") ;;;
        count_skipped
  | None =>
      logger (INFO, "%s lacks DateTimeOriginal, skipping") ;;;
      count_skipped
  end.

Definition photo_step (args : arguments) (points : list TimelinePoint)
    (photo : string) : SE run_state unit :=
  try_except (process_photo args points photo)
    (fun _ => logger (WARNING, "Failed to process %s: %s") ;;; count_skipped).

Definition photo_loop (args : arguments) (points : list TimelinePoint)
    (photo_paths : list string) : SE run_state unit :=
  for_each (photo_step args points) photo_paths.

(** How [main] ends: it returns, or leaves through [sys.exit(code)], or an
    exception escapes. *)
Inductive outcome : Type :=
  | Returned
  | Exited (code : Z)
  | Escaped (e : exn).

(** [main], given what the timeline file and the photo directory hold:
    the segments of the timeline, the sorted paths of the directory that
    match ["*.jp*g"], and the files.  [max_gap] is built once, after the two
    checks and before the loop, outside any [try]. *)
Definition main (args : arguments) (segments : list json) (photo_paths : list string)
    (files : gmap string file) : outcome * run_state :=
  if known_timezone env (camera_tz args) then
    let '(points, build_records) := load_timeline_points segments in
    let s0 := mkRun files 0 0 build_records in
    match points with
    | [] => (Exited 1, snd (logger (ERROR, "No timeline points extracted – exiting.") s0))
    | _ :: _ =>
        match photo_paths with
        | [] => (Exited 1, snd (logger (ERROR, "No JPEGs found in %s") s0))
        | _ :: _ =>
            match timedelta (max_gap_minutes args) with
            | Raise e => (Escaped e, s0)
            | Ok _ =>
                let '(r, s) := photo_loop args points photo_paths s0 in
                let s' :=
                  snd (logger
                         (if apply args
                          then (INFO, "Done. %s photos updated, %s skipped.")
                          else (INFO, "Dry-run complete. %s photos WOULD be updated, %s skipped."))
                         s) in
                match r with
                | Ok _ => (Returned, s')
                | Raise e => (Escaped e, s)
                end
            end
        end
    end
  else (Escaped KeyError, mkRun files 0 0 []).

(** ** Example data *)

(** A timeline with the single sample 2024-06-01T18:00:00Z at 35.0 N,
    139.0 E. *)
Definition example_timeline : list json :=
  [JObj {[ "timelinePath" := JArr [example_entry "35.0°, 139.0°" "2024-06-01T18:00:00Z"] ]}].

Definition example_sample : TimelinePoint :=
  mkPoint 1717264800000000 (Z2SF 35) (Z2SF 139).

Definition example_args : arguments :=
  mkArgs "Etc/GMT+7" 60 true false false false.

Definition example_exif (original : string) (gps : gmap N exif_value) : exif_dict :=
  mkExif ∅ {[ ExifIFD.DateTimeOriginal := EBytes original ]} gps ∅ ∅ None.

(** A photo taken half an hour before the sample, without GPS tags. *)
Definition example_untagged : exif_dict := example_exif "2024:06:01 10:30:00" ∅.

(** The same photo with a latitude and no longitude. *)
Definition example_half_tagged : exif_dict :=
  example_exif "2024:06:01 10:30:00"
    {[ GPSIFD.GPSLatitude := ERationals [(35, 1); (0, 1); (0, 100)]%Z ]}.

(** The same photo with both coordinates. *)
Definition example_tagged : exif_dict :=
  example_exif "2024:06:01 10:30:00"
    {[ GPSIFD.GPSLatitude := ERationals [(35, 1); (0, 1); (0, 100)]%Z;
       GPSIFD.GPSLongitude := ERationals [(139, 1); (0, 1); (0, 100)]%Z ]}.

(** A photo taken eight hours before the sample. *)
Definition example_far : exif_dict := example_exif "2024:06:01 03:00:00" ∅.

Definition example_state (e : exif_dict) : run_state :=
  mkRun {[ "a.jpg" := Photo e ]} 0 0 [].

(** ** Further notions the properties of a run speak of *)

(** A character a number is written with: ASCII, neither whitespace nor a
    comma; and a non-empty text of such characters. *)
Definition plain_byte (c : ascii) : bool :=
  let b := Ascii.N_of_ascii c in
  ((b <? 128)%N && negb (is_ascii_space b) && negb (b =? 44)%N)%bool.

Definition plain (s : string) : bool :=
  negb (String.eqb s "") && forallb plain_byte (list_ascii_of_string s).

(** A float that is neither NaN nor an infinity. *)
Definition is_finite (x : float64) : bool :=
  match x with
  | S754_zero _ | S754_finite _ _ _ => true
  | S754_infinity _ | S754_nan => false
  end.

(** The tags [update_photo] writes, by group. *)
Definition stamp_tags_Exif : list N :=
  [ExifIFD.DateTimeOriginal; ExifIFD.DateTimeDigitized; ExifIFD.OffsetTime;
   ExifIFD.OffsetTimeOriginal; ExifIFD.OffsetTimeDigitized].

Definition stamp_tags_GPS : list N :=
  [GPSIFD.GPSLatitudeRef; GPSIFD.GPSLatitude; GPSIFD.GPSLongitudeRef; GPSIFD.GPSLongitude].

(** The tag maps [e] and [e'] agree on everything but those tags. *)
Definition same_outside_stamp (e e' : exif_dict) : Prop :=
  (forall tag, tag <> ImageIFD.DateTime -> ifd_0th e' !! tag = ifd_0th e !! tag) /\
  (forall tag, ~ In tag stamp_tags_Exif -> ifd_Exif e' !! tag = ifd_Exif e !! tag) /\
  (forall tag, ~ In tag stamp_tags_GPS -> ifd_GPS e' !! tag = ifd_GPS e !! tag) /\
  ifd_Interop e' = ifd_Interop e /\ ifd_1st e' = ifd_1st e /\ thumbnail e' = thumbnail e.

(** The photo has an original timestamp the loop of [main] can use: the
    tag is there, not empty, and parses. *)
Definition usable_timestamp (e : exif_dict) : bool :=
  match ifd_Exif e !! ExifIFD.DateTimeOriginal with
  | Some orig =>
      truthy orig && match parse_original orig with Ok _ => true | Raise _ => false end
  | None => false
  end.

(** What the loop of [main] does with the result of [update_photo]. *)
Definition count_update (args : arguments) (photo : string) (tl_point : TimelinePoint)
    : SE run_state unit :=
  try_except
    (would_update <- update_photo photo tl_point (camera_tz args)
                       (apply args) (backup args) (overwrite_gps args) ;;
     if would_update : bool then count_processed else ret tt)
    (fun _ => logger (WARNING, "Failed to process %s: %s") ;;; count_skipped).

(** The samples a segment contributes when it is parsed on its own, and
    the warnings it causes. *)
Definition segment_outcome (seg : json) : build_state :=
  snd (try_except (parse_segment seg)
         (fun _ => build_logger (WARNING, "Failed to parse segment entry: %s"))
         (mkBuild [] [])).

(** The samples of the entries of a path up to the first entry that fails
    to parse, and whether one fails. *)
Fixpoint parsed_prefix (entries : list json) : list TimelinePoint * bool :=
  match entries with
  | [] => ([], false)
  | entry :: rest =>
      match path_entry_point entry with
      | Ok p => let '(pts, failed) := parsed_prefix rest in (p :: pts, failed)
      | Raise _ => ([], true)
      end
  end.
(** * Properties *)

(** ** Facts about the binary search and [min] *)

Lemma nth_keys (points : list TimelinePoint) (i : nat) (p : TimelinePoint) :
  points !! i = Some p -> nth i (map time_utc points) 0%Z = time_utc p.
Proof.
  revert i; induction points as [|a l IH]; intros [|i] H; simpl in *; try discriminate.
  - now inversion H.
  - now apply IH.
Qed.

Lemma non_decreasing_of_sorted (points : list TimelinePoint) :
  StronglySorted instant_le points -> non_decreasing points.
Proof.
  induction 1 as [|a l Hl IH Ha]; intros i j p q Hij Hp Hq.
  - rewrite lookup_nil in Hp. discriminate.
  - destruct j as [|j]; [lia|]. simpl in Hq. destruct i as [|i]; simpl in Hp.
    + inversion Hp; subst. rewrite Forall_forall in Ha. apply Ha.
      apply list_elem_of_lookup. eauto.
    + apply (IH i j); auto. lia.
Qed.

Lemma non_decreasing_keys (points : list TimelinePoint) (i j : nat) :
  non_decreasing points -> i <= j < length points ->
  (nth i (map time_utc points) 0 <= nth j (map time_utc points) 0)%Z.
Proof.
  intros Hs [Hij Hj].
  destruct (lookup_lt_is_Some_2 points j Hj) as [q Hq].
  destruct (lookup_lt_is_Some_2 points i ltac:(lia)) as [p Hp].
  rewrite (nth_keys _ _ _ Hp), (nth_keys _ _ _ Hq).
  destruct (Nat.eq_dec i j) as [->|Hne].
  - rewrite Hp in Hq; inversion Hq; lia.
  - apply (Hs i j); auto; lia.
Qed.

Lemma half_between (lo hi : nat) : lo < hi -> lo <= (lo + hi) / 2 < hi.
Proof.
  intros H. split.
  - apply Nat.div_le_lower_bound; lia.
  - apply Nat.Div0.div_lt_upper_bound; lia.
Qed.

Lemma bisect_loop_S (fuel : nat) (a : list Z) (x : Z) (lo hi : nat) :
  bisect_loop (S fuel) a x lo hi =
  if lo <? hi then
    if (nth ((lo + hi) / 2) a 0 <? x)%Z
    then bisect_loop fuel a x ((lo + hi) / 2 + 1) hi
    else bisect_loop fuel a x lo ((lo + hi) / 2)
  else lo.
Proof. reflexivity. Qed.

Lemma bisect_loop_range (a : list Z) (x : Z) (fuel : nat) :
  forall lo hi, lo <= hi -> lo <= bisect_loop fuel a x lo hi <= hi.
Proof.
  induction fuel as [|fuel IH]; intros lo hi Hle; [simpl; lia|].
  rewrite bisect_loop_S. destruct (lo <? hi) eqn:E; [|lia].
  apply Nat.ltb_lt in E. pose proof (half_between lo hi E).
  destruct (nth ((lo + hi) / 2) a 0 <? x)%Z.
  - specialize (IH ((lo + hi) / 2 + 1) hi ltac:(lia)). lia.
  - specialize (IH lo ((lo + hi) / 2) ltac:(lia)). lia.
Qed.

Lemma bisect_left_le (a : list Z) (x : Z) : bisect_left a x <= length a.
Proof.
  unfold bisect_left.
  pose proof (bisect_loop_range a x (length a) 0 (length a) ltac:(lia)). lia.
Qed.

Lemma bisect_loop_spec (a : list Z) (x : Z) :
  (forall i j, i <= j < length a -> (nth i a 0 <= nth j a 0)%Z) ->
  forall fuel lo hi,
    lo <= hi <= length a -> hi - lo <= fuel ->
    (forall i, i < lo -> (nth i a 0 < x)%Z) ->
    (forall i, hi <= i < length a -> (x <= nth i a 0)%Z) ->
    let r := bisect_loop fuel a x lo hi in
    lo <= r <= hi /\
    (forall i, i < r -> (nth i a 0 < x)%Z) /\
    (forall i, r <= i < length a -> (x <= nth i a 0)%Z).
Proof.
  intros Hs fuel; induction fuel as [|fuel IH]; intros lo hi Hb Hf Hlo Hhi; cbv zeta.
  - simpl. assert (lo = hi) by lia; subst. repeat split; auto; lia.
  - rewrite bisect_loop_S. destruct (lo <? hi) eqn:E.
    + apply Nat.ltb_lt in E. pose proof (half_between lo hi E) as Hm.
      set (mid := (lo + hi) / 2) in *.
      destruct (nth mid a 0 <? x)%Z eqn:C.
      * apply Z.ltb_lt in C.
        destruct (IH (mid + 1) hi) as (Hr & H1 & H2); try lia; auto.
        { intros i Hi. specialize (Hs i mid ltac:(lia)). lia. }
        cbv zeta in *. repeat split; try lia; assumption.
      * apply Z.ltb_ge in C.
        destruct (IH lo mid) as (Hr & H1 & H2); try lia; auto.
        { intros i Hi. specialize (Hs mid i ltac:(lia)). lia. }
        cbv zeta in *. repeat split; try lia; assumption.
    + apply Nat.ltb_ge in E. assert (lo = hi) by lia; subst. repeat split; auto; lia.
Qed.

Lemma bisect_left_spec (points : list TimelinePoint) (ts : Z) :
  non_decreasing points ->
  let idx := bisect_left (map time_utc points) ts in
  idx <= length points /\
  (forall i p, i < idx -> points !! i = Some p -> (time_utc p < ts)%Z) /\
  (forall i p, idx <= i -> points !! i = Some p -> (ts <= time_utc p)%Z).
Proof.
  intros Hs. unfold bisect_left.
  destruct (bisect_loop_spec (map time_utc points) ts) with
    (fuel := length (map time_utc points)) (lo := 0) (hi := length (map time_utc points))
    as (Hr & H1 & H2); try lia.
  { intros i j Hij. rewrite length_map in Hij. now apply non_decreasing_keys. }
  rewrite length_map in *. cbv zeta. repeat split; [lia | |].
  - intros i p Hi Hp. rewrite <- (nth_keys _ _ _ Hp). now apply H1.
  - intros i p Hi Hp. rewrite <- (nth_keys _ _ _ Hp). apply H2.
    split; [lia|]. eapply lookup_lt_Some; eauto.
Qed.

Lemma min_from_spec {A : Type} (key : A -> Z) (rest : list A) (best : A) :
  let r := min_from key best rest in
  (r = best \/ In r rest) /\
  (key r <= key best)%Z /\
  (forall c, In c rest -> (key r <= key c)%Z).
Proof.
  revert best; induction rest as [|c rest IH]; intros best; cbn [min_from]; cbv zeta in *.
  - repeat split; auto; try lia; intros c [].
  - destruct (key c <? key best)%Z eqn:E.
    + apply Z.ltb_lt in E. destruct (IH c) as (Hin & Hle & Hall).
      repeat split; [simpl; intuition auto | lia |].
      intros c' [<-|Hc']; auto.
    + apply Z.ltb_ge in E. destruct (IH best) as (Hin & Hle & Hall).
      repeat split; [simpl; intuition auto | lia |].
      intros c' [<-|Hc']; auto. lia.
Qed.

Lemma min_from_keeps_first {A : Type} (key : A -> Z) (rest : list A) (best : A) :
  (forall c, In c rest -> (key best <= key c)%Z) -> min_from key best rest = best.
Proof.
  revert best; induction rest as [|c rest IH]; intros best H; simpl; auto.
  destruct (key c <? key best)%Z eqn:E.
  - apply Z.ltb_lt in E. specialize (H c (or_introl eq_refl)). lia.
  - apply IH. intros c' Hc'. apply H. now right.
Qed.

Lemma py_min_spec {A : Type} (key : A -> Z) (l : list A) (r : A) :
  py_min key l = Some r ->
  In r l /\ forall c, In c l -> (key r <= key c)%Z.
Proof.
  destruct l as [|c rest]; simpl; [discriminate|].
  intros [= <-]. destruct (min_from_spec key rest c) as (Hin & Hle & Hall).
  cbv zeta in *. split; [intuition auto|].
  intros c' [<-|Hc']; auto.
Qed.

Lemma candidates_at_right (points : list TimelinePoint) (idx : nat) (p : TimelinePoint) :
  points !! idx = Some p -> In p (candidates_at points idx).
Proof.
  intros Hp. unfold candidates_at.
  pose proof (lookup_lt_Some _ _ _ Hp) as Hlt.
  apply Nat.ltb_lt in Hlt. rewrite Hlt, Hp. simpl. now left.
Qed.

Lemma candidates_at_left (points : list TimelinePoint) (idx : nat) (p : TimelinePoint) :
  0 < idx -> points !! (idx - 1) = Some p -> In p (candidates_at points idx).
Proof.
  intros Hpos Hp. unfold candidates_at. apply in_or_app. right.
  apply Nat.ltb_lt in Hpos. rewrite Hpos, Hp. simpl. now left.
Qed.

Lemma candidates_at_in (points : list TimelinePoint) (idx : nat) (p : TimelinePoint) :
  In p (candidates_at points idx) ->
  points !! idx = Some p \/ (0 < idx /\ points !! (idx - 1) = Some p).
Proof.
  unfold candidates_at. intros H. apply in_app_or in H. destruct H as [H|H].
  - destruct (idx <? length points); [|contradiction].
    destruct (points !! idx) eqn:E; simpl in H; [|contradiction].
    destruct H as [->|[]]. now left.
  - destruct (0 <? idx) eqn:E0; [|contradiction]. apply Nat.ltb_lt in E0.
    destruct (points !! (idx - 1)) eqn:E; simpl in H; [|contradiction].
    destruct H as [->|[]]. now right.
Qed.

Lemma find_nearest_none (points : list TimelinePoint) (ts : Z) :
  find_nearest_timeline_point points ts = None <-> points = [].
Proof.
  unfold find_nearest_timeline_point. split.
  - intros H. destruct points as [|p0 l]; [reflexivity|exfalso].
    set (idx := bisect_left (map time_utc (p0 :: l)) ts) in *.
    destruct (Nat.eq_dec idx 0) as [E|E].
    + assert (Hin : In p0 (candidates_at (p0 :: l) idx))
        by (apply candidates_at_right; now rewrite E).
      destruct (candidates_at (p0 :: l) idx); [contradiction|discriminate].
    + unfold candidates_at in H.
      destruct (idx <? length (p0 :: l)) eqn:E1.
      * apply Nat.ltb_lt in E1.
        destruct (lookup_lt_is_Some_2 (p0 :: l) idx E1) as [q Hq].
        rewrite Hq in H. discriminate.
      * assert (E0 : (0 <? idx) = true) by (apply Nat.ltb_lt; lia).
        rewrite E0 in H.
        assert (Hr : idx <= length (p0 :: l)).
        { pose proof (bisect_left_le (map time_utc (p0 :: l)) ts) as G.
          rewrite length_map in G. exact G. }
        apply Nat.ltb_ge in E1.
        destruct (lookup_lt_is_Some_2 (p0 :: l) (idx - 1) ltac:(lia)) as [q Hq].
        rewrite Hq in H. discriminate.
  - intros ->. reflexivity.
Qed.

Lemma find_nearest_optimal (points : list TimelinePoint) (ts : Z) (p : TimelinePoint) :
  non_decreasing points ->
  find_nearest_timeline_point points ts = Some p ->
  p ∈ points /\ forall q, q ∈ points -> (gap p ts <= gap q ts)%Z.
Proof.
  intros Hs Hfind. unfold find_nearest_timeline_point in Hfind.
  destruct (bisect_left_spec points ts Hs) as (Hle & Hbelow & Habove).
  set (idx := bisect_left (map time_utc points) ts) in *.
  apply py_min_spec in Hfind. destruct Hfind as [Hin Hmin]. split.
  - apply candidates_at_in in Hin. apply list_elem_of_lookup.
    destruct Hin as [H|[_ H]]; eauto.
  - intros q Hq. apply list_elem_of_lookup in Hq. destruct Hq as [j Hj].
    destruct (le_lt_dec idx j) as [Hge|Hlt].
    + pose proof (lookup_lt_Some _ _ _ Hj) as Hjlen.
      destruct (lookup_lt_is_Some_2 points idx ltac:(lia)) as [c Hc].
      specialize (Hmin c (candidates_at_right _ _ _ Hc)).
      pose proof (Habove idx c ltac:(lia) Hc) as Hc_ts.
      assert (time_utc c <= time_utc q)%Z.
      { destruct (Nat.eq_dec idx j) as [E|E].
        - rewrite E in Hc. rewrite Hc in Hj. inversion Hj. lia.
        - apply (Hs idx j); auto. lia. }
      unfold gap in *. lia.
    + destruct (lookup_lt_is_Some_2 points (idx - 1) ltac:(lia)) as [c Hc].
      specialize (Hmin c (candidates_at_left points idx c ltac:(lia) Hc)).
      pose proof (Hbelow (idx - 1) c ltac:(lia) Hc) as Hc_ts.
      assert (time_utc q <= time_utc c)%Z.
      { destruct (Nat.eq_dec j (idx - 1)) as [E|E].
        - rewrite <- E in Hc. rewrite Hc in Hj. inversion Hj. lia.
        - apply (Hs j (idx - 1)); auto. lia. }
      unfold gap in *. lia.
Qed.

(** The result when the insertion index has a sample on both sides: the
    sample at the insertion index, unless the one before it is strictly
    nearer. *)
Lemma find_nearest_between (points : list TimelinePoint) (ts : Z) (a b : TimelinePoint) :
  let idx := bisect_left (map time_utc points) ts in
  0 < idx -> points !! (idx - 1) = Some a -> points !! idx = Some b ->
  find_nearest_timeline_point points ts =
  Some (if (gap a ts <? gap b ts)%Z then a else b).
Proof.
  intros idx Hpos Ha Hb. unfold find_nearest_timeline_point, candidates_at.
  fold idx. pose proof (lookup_lt_Some _ _ _ Hb) as Hlt.
  apply Nat.ltb_lt in Hlt. apply Nat.ltb_lt in Hpos.
  rewrite Hlt, Hpos, Ha, Hb. reflexivity.
Qed.

Lemma find_nearest_at_start (points : list TimelinePoint) (ts : Z) (b : TimelinePoint) :
  bisect_left (map time_utc points) ts = 0 -> points !! 0 = Some b ->
  find_nearest_timeline_point points ts = Some b.
Proof.
  intros E Hb. unfold find_nearest_timeline_point, candidates_at. rewrite E.
  pose proof (lookup_lt_Some _ _ _ Hb) as Hlt. apply Nat.ltb_lt in Hlt.
  rewrite Hlt, Hb. reflexivity.
Qed.

Lemma find_nearest_at_end (points : list TimelinePoint) (ts : Z) (a : TimelinePoint) :
  bisect_left (map time_utc points) ts = length points ->
  last points = Some a ->
  find_nearest_timeline_point points ts = Some a.
Proof.
  intros E Ha. unfold find_nearest_timeline_point, candidates_at. rewrite E.
  rewrite Nat.ltb_irrefl. rewrite last_lookup in Ha.
  assert (Hpos : 0 < length points).
  { destruct points; [discriminate|simpl; lia]. }
  replace (length points - 1) with (pred (length points)) by lia.
  apply Nat.ltb_lt in Hpos. rewrite Hpos, Ha. reflexivity.
Qed.

(** C1. On an index sorted by instant, [find_nearest_timeline_point] returns
    a sample of the index whose distance to the query is minimal among all
    samples; it returns [None] exactly on the empty index; a query before
    every sample gives the first sample, a query after every sample the last
    one, and a query that equals some sample's instant gives a sample with
    that instant. *)
Theorem find_nearest_timeline_point_nearest (points : list TimelinePoint) (ts : Z) :
  non_decreasing points ->
  (find_nearest_timeline_point points ts = None <-> points = []) /\
  (forall p, find_nearest_timeline_point points ts = Some p ->
     p ∈ points /\ forall q, q ∈ points -> (gap p ts <= gap q ts)%Z) /\
  (forall first, points !! 0 = Some first ->
     (forall q, q ∈ points -> (ts < time_utc q)%Z) ->
     find_nearest_timeline_point points ts = Some first) /\
  (forall final, last points = Some final ->
     (forall q, q ∈ points -> (time_utc q < ts)%Z) ->
     find_nearest_timeline_point points ts = Some final) /\
  ((exists q, q ∈ points /\ time_utc q = ts) ->
     exists p, find_nearest_timeline_point points ts = Some p /\ time_utc p = ts).
Proof.
  intros Hs. split; [apply find_nearest_none|].
  destruct (bisect_left_spec points ts Hs) as (Hle & Hbelow & Habove).
  set (idx := bisect_left (map time_utc points) ts) in *.
  split; [|split; [|split]].
  - intros p Hp. now apply find_nearest_optimal.
  - intros first H0 Hall. apply find_nearest_at_start; auto.
    destruct (Nat.eq_dec idx 0) as [E|E]; [exact E|exfalso].
    specialize (Hbelow 0 first ltac:(lia) H0).
    specialize (Hall first ltac:(apply list_elem_of_lookup; eauto)). lia.
  - intros final Hlast Hall. apply find_nearest_at_end; auto.
    destruct (Nat.eq_dec idx (length points)) as [E|E]; [exact E|exfalso].
    destruct (lookup_lt_is_Some_2 points idx ltac:(fold idx; lia)) as [c Hc].
    specialize (Habove idx c ltac:(lia) Hc).
    specialize (Hall c ltac:(apply list_elem_of_lookup; eauto)). lia.
  - intros (q & Hq & Hts).
    destruct (find_nearest_timeline_point points ts) as [p|] eqn:Hfind.
    + exists p. split; [reflexivity|].
      destruct (find_nearest_optimal points ts p Hs Hfind) as [_ Hmin].
      specialize (Hmin q Hq). unfold gap in Hmin. lia.
    + apply find_nearest_none in Hfind. subst points. inversion Hq.
Qed.

Lemma find_nearest_timeline_point_nearest_witness :
  let pts := [mkPoint 10 (S754_zero false) (S754_zero false);
              mkPoint 20 (S754_zero false) (S754_zero true);
              mkPoint 20 (S754_zero true) (S754_zero false);
              mkPoint 40 (S754_zero true) (S754_zero true)] in
  non_decreasing pts /\
  forall p, find_nearest_timeline_point pts 29 = Some p ->
    p ∈ pts /\ forall q, q ∈ pts -> (gap p 29 <= gap q 29)%Z.
Proof.
  intros pts.
  assert (Hs : non_decreasing pts).
  { apply non_decreasing_of_sorted. unfold pts, instant_le.
    repeat (constructor; simpl; try lia). }
  split; [exact Hs|].
  exact (proj1 (proj2 (find_nearest_timeline_point_nearest pts 29 Hs))).
Defined.

(** C2, as stated, fails: with samples at instants 0 and 2 and the query at
    instant 1 (equidistant from both), the search returns the sample at
    instant 2, the later-indexed one, not the earlier-indexed one. *)
Lemma tie_earlier_index_wins_fails :
  ~ (forall (points : list TimelinePoint) (ts : Z) (i : nat) (a b : TimelinePoint),
       non_decreasing points ->
       points !! i = Some a -> points !! (i + 1) = Some b ->
       (time_utc a < time_utc b)%Z ->
       (ts - time_utc a = time_utc b - ts)%Z ->
       find_nearest_timeline_point points ts = Some a).
Proof.
  intros H.
  specialize (H [mkPoint 0 (S754_zero false) (S754_zero false);
                 mkPoint 2 (S754_zero false) (S754_zero false)] 1%Z 0
                (mkPoint 0 (S754_zero false) (S754_zero false))
                (mkPoint 2 (S754_zero false) (S754_zero false))).
  assert (E : Some (mkPoint 2 (S754_zero false) (S754_zero false)) =
              Some (mkPoint 0 (S754_zero false) (S754_zero false))).
  { apply H; try reflexivity.
    apply non_decreasing_of_sorted. unfold instant_le.
    repeat (constructor; simpl; try lia). }
  discriminate E.
Qed.

(** C2, amended. When the query lies exactly halfway between two adjacent
    samples with distinct instants, [find_nearest_timeline_point] returns
    the later-indexed (right, larger-instant) one: the candidate at the
    insertion index is listed first and [min] keeps the first minimum.  The
    result is a function of the index and the query, hence deterministic. *)
Theorem find_nearest_tie_returns_later (points : list TimelinePoint) (ts : Z)
    (i : nat) (a b : TimelinePoint) :
  non_decreasing points ->
  points !! i = Some a -> points !! (i + 1) = Some b ->
  (time_utc a < time_utc b)%Z ->
  (ts - time_utc a = time_utc b - ts)%Z ->
  find_nearest_timeline_point points ts = Some b.
Proof.
  intros Hs Ha Hb Hab Htie.
  destruct (bisect_left_spec points ts Hs) as (Hle & Hbelow & Habove).
  set (idx := bisect_left (map time_utc points) ts) in *.
  assert (Hidx : idx = i + 1).
  { destruct (lt_eq_lt_dec idx (i + 1)) as [[Hlt|Heq]|Hgt]; [exfalso|exact Heq|exfalso].
    - specialize (Habove i a ltac:(lia) Ha). lia.
    - specialize (Hbelow (i + 1) b Hgt Hb). lia. }
  pose proof (find_nearest_between points ts a b) as Hbetween.
  cbv zeta in Hbetween. fold idx in Hbetween. rewrite Hidx in Hbetween.
  replace (i + 1 - 1) with i in Hbetween by lia.
  rewrite (Hbetween ltac:(lia) Ha Hb).
  replace (gap a ts <? gap b ts)%Z with false; [reflexivity|].
  symmetry. apply Z.ltb_ge. unfold gap. lia.
Qed.

Lemma find_nearest_tie_returns_later_witness :
  let a := mkPoint 0 (S754_zero false) (S754_zero false) in
  let b := mkPoint 2 (S754_zero false) (S754_zero false) in
  find_nearest_timeline_point [a; b; b] 1 = Some b.
Proof.
  intros a b.
  apply (find_nearest_tie_returns_later [a; b; b] 1 0 a b); try reflexivity.
  apply non_decreasing_of_sorted. unfold instant_le, a, b.
  repeat (constructor; simpl; try lia).
Defined.

(** ** The timeline build *)

Lemma insert_by_key_Forall (P : TimelinePoint -> Prop) (p : TimelinePoint)
    (l : list TimelinePoint) :
  P p -> Forall P l -> Forall P (insert_by_key p l).
Proof.
  intros Hp Hl. induction Hl as [|q l Hq Hl IH]; simpl.
  - constructor; [exact Hp|constructor].
  - destruct (time_utc p <=? time_utc q)%Z.
    + constructor; [exact Hp|]. constructor; assumption.
    + constructor; assumption.
Qed.

Lemma insert_by_key_sorted (p : TimelinePoint) (l : list TimelinePoint) :
  StronglySorted instant_le l -> StronglySorted instant_le (insert_by_key p l).
Proof.
  induction 1 as [|q l Hl IH Hq]; simpl.
  - constructor; constructor.
  - destruct (time_utc p <=? time_utc q)%Z eqn:E.
    + apply Z.leb_le in E. constructor.
      * constructor; assumption.
      * constructor; [exact E|].
        eapply Forall_impl; [exact Hq|].
        unfold instant_le in *. intros r Hr. lia.
    + apply Z.leb_gt in E. constructor; [exact IH|].
      apply insert_by_key_Forall; [|exact Hq].
      unfold instant_le. lia.
Qed.

Lemma sort_by_time_sorted (l : list TimelinePoint) :
  StronglySorted instant_le (sort_by_time l).
Proof.
  induction l as [|p l IH]; simpl; [constructor|].
  now apply insert_by_key_sorted.
Qed.

Lemma insert_by_key_perm (p : TimelinePoint) (l : list TimelinePoint) :
  Permutation (p :: l) (insert_by_key p l).
Proof.
  induction l as [|q l IH]; simpl; [reflexivity|].
  destruct (time_utc p <=? time_utc q)%Z; [reflexivity|].
  rewrite perm_swap. now apply perm_skip.
Qed.

Lemma sort_by_time_perm (l : list TimelinePoint) : Permutation l (sort_by_time l).
Proof.
  induction l as [|p l IH]; simpl; [reflexivity|].
  rewrite <- insert_by_key_perm. now apply perm_skip.
Qed.

(** C8. The index [load_timeline_points] returns never decreases in instant,
    whatever the segments: for positions [i < j] the instant at [i] is at
    most the instant at [j].  It holds exactly the samples the segments
    emitted.  (The index is an argument of the search and of the photo loop,
    which return no index: nothing updates it after the build.) *)
Theorem load_timeline_points_sorted (segments : list json) :
  non_decreasing (fst (load_timeline_points segments)) /\
  Permutation (tf_points (snd (parse_segments segments (mkBuild [] []))))
              (fst (load_timeline_points segments)).
Proof.
  unfold load_timeline_points. simpl. split.
  - apply non_decreasing_of_sorted, sort_by_time_sorted.
  - apply sort_by_time_perm.
Qed.

Lemma divide_and_round_half (d : Z) :
  (-1 <= 2 * _divide_and_round d 2 - d <= 1)%Z /\
  (Z.even d = true -> (2 * _divide_and_round d 2 = d)%Z).
Proof.
  unfold _divide_and_round.
  pose proof (Z.div_mod d 2 ltac:(lia)) as Hdm.
  pose proof (Z.mod_pos_bound d 2 ltac:(lia)) as Hb.
  assert (Heven : Z.even d = true -> (d mod 2 = 0)%Z).
  { intros H. apply Z.even_spec in H. destruct H as [k ->].
    rewrite Z.mul_comm. apply Z.mod_mul. lia. }
  change (0 <? 2)%Z with true. cbv iota.
  destruct (2 <? 2 * (d mod 2))%Z eqn:E1.
  { apply Z.ltb_lt in E1. lia. }
  simpl orb.
  destruct ((2 * (d mod 2) =? 2)%Z && ((d / 2) mod 2 =? 1)%Z) eqn:E2.
  - apply andb_true_iff in E2. destruct E2 as [E2 _]. apply Z.eqb_eq in E2.
    split; [lia|]. intros H. specialize (Heven H). lia.
  - split; [lia|]. intros H. specialize (Heven H). lia.
Qed.

Lemma getitem_contains (seg v : json) (key : string) :
  py_getitem seg key = Ok v -> py_contains key seg = Ok true.
Proof.
  destruct seg; simpl; try discriminate.
  destruct (fields !! key) eqn:E; simpl; [|discriminate].
  intros _. f_equal; try (apply bool_decide_eq_true; eauto).
Qed.

(** C5. A visit segment (one without a [timelinePath]) whose top-candidate
    coordinate and whose start and end instants parse makes the build emit
    exactly one sample: its coordinate is the top candidate's and its
    instant is [start + (end - start) / 2], the midpoint of the interval
    (exact when the interval is an even number of microseconds, else within
    half a microsecond of it). *)
Theorem visit_emits_one_midpoint_sample
    (seg visit top place latlng : json) (lat_v lon_v : float64)
    (s1 s2 : string) (start end_ : Z) (st : build_state) :
  py_contains "timelinePath" seg = Ok false ->
  py_getitem seg "visit" = Ok visit ->
  py_getitem visit "topCandidate" = Ok top ->
  py_getitem top "placeLocation" = Ok place ->
  py_getitem place "latLng" = Ok latlng ->
  _parse_latlng latlng = Ok (lat_v, lon_v) ->
  py_getitem seg "startTime" = Ok (JStr s1) -> isoparse_utc env s1 = Some start ->
  py_getitem seg "endTime" = Ok (JStr s2) -> isoparse_utc env s2 = Some end_ ->
  let midpoint := (start + _divide_and_round (end_ - start) 2)%Z in
  parse_segment seg st =
    (Ok tt, mkBuild (tf_points st ++ [mkPoint midpoint lat_v lon_v]) (build_log st)) /\
  fst (load_timeline_points [seg]) = [mkPoint midpoint lat_v lon_v] /\
  (-1 <= 2 * midpoint - (start + end_) <= 1)%Z /\
  (Z.even (end_ - start) = true -> (2 * midpoint = start + end_)%Z).
Proof.
  intros Hpath Hvisit Htop Hplace Hll Hparse Hs1 Hstart Hs2 Hend midpoint.
  assert (Hseg : forall st', parse_segment seg st' =
    (Ok tt, mkBuild (tf_points st' ++ [mkPoint midpoint lat_v lon_v]) (build_log st'))).
  { intros st'. unfold parse_segment, bind, lift.
    rewrite Hpath. rewrite (getitem_contains _ _ _ Hvisit).
    assert (Hloc : visit_location seg = Ok (lat_v, lon_v)).
    { unfold visit_location. rewrite Hvisit. cbn [rbind]. rewrite Htop. cbn [rbind].
      rewrite Hplace. cbn [rbind]. rewrite Hll. cbn [rbind]. exact Hparse. }
    unfold _add_point_from_visit. rewrite Hloc.
    unfold bind, lift. rewrite Hs1. cbn [isoparse_item]. rewrite Hstart.
    cbn [of_option]. rewrite Hs2. cbn [isoparse_item]. rewrite Hend.
    reflexivity. }
  split; [apply Hseg|]. split.
  - unfold load_timeline_points, parse_segments. simpl for_each.
    unfold bind, try_except. rewrite Hseg. reflexivity.
  - destruct (divide_and_round_half (end_ - start)) as [H1 H2].
    unfold midpoint. split; [lia|]. intros H. specialize (H2 H). lia.
Qed.

(** *** Malformed entries *)





(** ** The photo loop *)

Lemma find_nearest_elem (points : list TimelinePoint) (ts : Z) (p : TimelinePoint) :
  find_nearest_timeline_point points ts = Some p -> p ∈ points.
Proof.
  unfold find_nearest_timeline_point. intros H.
  apply py_min_spec in H. destruct H as [Hin _].
  apply candidates_at_in in Hin. apply list_elem_of_lookup.
  destruct Hin as [H|[_ H]]; eauto.
Qed.

(** C3. A photo whose original timestamp, localized to the camera time zone
    and converted to UTC, lies further than [max_gap] from every sample of
    the index is skipped: the loop step only counts it as skipped and logs
    the skip; the files, hence every metadata field of the photo, are left
    as they were. *)
Theorem far_photo_is_skipped_untouched
    (args : arguments) (points : list TimelinePoint) (photo : string)
    (exif : exif_dict) (orig : exif_value) (naive_dt : Z) (s : run_state) :
  fs s !! photo = Some (Photo exif) ->
  ifd_Exif exif !! ExifIFD.DateTimeOriginal = Some orig ->
  truthy orig = true ->
  parse_original orig = Ok naive_dt ->
  (forall q, q ∈ points ->
     (timedelta_minutes (max_gap_minutes args)
      < gap q (localize_utc env (camera_tz args) naive_dt))%Z) ->
  photo_step args points photo s =
  (Ok tt,
   mkRun (fs s) (processed s) (skipped s + 1)
     (run_log s ++ [(INFO, "%s has no close timeline match (gap > %s); skipping")])).
Proof.
  intros Hfile Horig Htruthy Hparse Hfar.
  unfold photo_step, try_except, process_photo, bind at 1, piexif_load.
  rewrite Hfile, Horig, Htruthy. unfold bind at 1, lift. rewrite Hparse.
  destruct (find_nearest_timeline_point points _) as [p|] eqn:Hfind.
  - apply find_nearest_elem in Hfind. specialize (Hfar p Hfind).
    apply Z.ltb_lt in Hfar. rewrite Hfar. reflexivity.
  - reflexivity.
Qed.

Lemma bind_piexif_load {A : Type} (filepath : string) (exif : exif_dict)
    (k : exif_dict -> SE run_state A) (s : run_state) :
  fs s !! filepath = Some (Photo exif) ->
  bind (piexif_load filepath) k s = k exif s.
Proof. intros H. unfold bind, piexif_load. now rewrite H. Qed.

Lemma write_gps_spec (e e' : exif_dict) (lat_v lon_v : float64) :
  _write_gps e lat_v lon_v = Ok e' ->
  exists lat_dms lon_dms,
    _deg_to_dms_rational lat_v = Ok lat_dms /\
    _deg_to_dms_rational lon_v = Ok lon_dms /\
    ifd_0th e' = ifd_0th e /\ ifd_Exif e' = ifd_Exif e /\
    ifd_GPS e' !! GPSIFD.GPSLatitudeRef
      = Some (EBytes (if float_nonneg lat_v then "N" else "S")) /\
    ifd_GPS e' !! GPSIFD.GPSLatitude = Some (ERationals lat_dms) /\
    ifd_GPS e' !! GPSIFD.GPSLongitudeRef
      = Some (EBytes (if float_nonneg lon_v then "E" else "W")) /\
    ifd_GPS e' !! GPSIFD.GPSLongitude = Some (ERationals lon_dms).
Proof.
  unfold _write_gps. intros H.
  destruct (_deg_to_dms_rational lat_v) as [lat_dms|] eqn:Hlat; [|discriminate].
  destruct (_deg_to_dms_rational lon_v) as [lon_dms|] eqn:Hlon; [|discriminate].
  cbn [rbind] in H. inversion H; subst e'; clear H.
  exists lat_dms, lon_dms. unfold set_GPS; cbn [ifd_0th ifd_Exif ifd_GPS].
  repeat split; by simplify_map_eq.
Qed.

Lemma stamp_fields_spec (e e' : exif_dict) (p : TimelinePoint) (tz : string) (t : Z) :
  stamp_fields e p tz t = Ok e' ->
  exists offset_str lat_dms lon_dms,
    _format_tz_offset
      (match utcoffset env tz t with
       | Some d => if (d =? 0)%Z then 0%Z else d
       | None => 0%Z
       end) = Ok offset_str /\
    _deg_to_dms_rational (lat p) = Ok lat_dms /\
    _deg_to_dms_rational (lon p) = Ok lon_dms /\
    carries_stamp e' (strftime_local env tz t) offset_str
      (if float_nonneg (lat p) then "N" else "S") lat_dms
      (if float_nonneg (lon p) then "E" else "W") lon_dms.
Proof.
  unfold stamp_fields. intros H.
  destruct (_format_tz_offset _) as [offset_str|] eqn:Hoff; [|discriminate].
  cbn [rbind] in H. apply write_gps_spec in H.
  destruct H as (lat_dms & lon_dms & Hlat & Hlon & H0 & HE & G1 & G2 & G3 & G4).
  exists offset_str, lat_dms, lon_dms. repeat split; try assumption;
    rewrite ?H0, ?HE; unfold set_Exif, set_0th; cbn [ifd_0th ifd_Exif ifd_GPS];
    by simplify_map_eq.
Qed.

Lemma write_gps_frame (e e' : exif_dict) (lat_v lon_v : float64) :
  _write_gps e lat_v lon_v = Ok e' ->
  (forall tag, ~ In tag stamp_tags_GPS -> ifd_GPS e' !! tag = ifd_GPS e !! tag) /\
  ifd_0th e' = ifd_0th e /\ ifd_Exif e' = ifd_Exif e /\
  ifd_Interop e' = ifd_Interop e /\ ifd_1st e' = ifd_1st e /\ thumbnail e' = thumbnail e.
Proof.
  unfold _write_gps. intros H.
  destruct (_deg_to_dms_rational lat_v) as [lat_dms|]; [|discriminate].
  destruct (_deg_to_dms_rational lon_v) as [lon_dms|]; [|discriminate].
  cbn [rbind] in H. inversion H; subst e'; clear H.
  unfold set_GPS; cbn [ifd_0th ifd_Exif ifd_GPS ifd_Interop ifd_1st thumbnail].
  repeat split. intros tag Htag. unfold stamp_tags_GPS in Htag. cbn [In] in Htag.
  rewrite !lookup_insert_ne by (intros <-; tauto). reflexivity.
Qed.

Lemma stamp_fields_frame (e e' : exif_dict) (p : TimelinePoint) (tz : string) (t : Z) :
  stamp_fields e p tz t = Ok e' -> same_outside_stamp e e'.
Proof.
  unfold stamp_fields. intros H.
  destruct (_format_tz_offset _) as [offset_str|]; [|discriminate].
  cbn [rbind] in H. apply write_gps_frame in H.
  destruct H as (HG & H0 & HE & HI & H1 & HT).
  unfold same_outside_stamp. rewrite H0, HE, HI, H1, HT.
  unfold set_Exif, set_0th in *;
    cbn [ifd_0th ifd_Exif ifd_GPS ifd_Interop ifd_1st thumbnail] in *.
  repeat split.
  - intros tag Htag. rewrite lookup_insert_ne by congruence. reflexivity.
  - intros tag Htag. unfold stamp_tags_Exif in Htag. cbn [In] in Htag.
    rewrite !lookup_insert_ne by (intros <-; tauto). reflexivity.
  - exact HG.
Qed.

(** The stamp succeeds when the offset can be formatted and the two
    coordinates encoded, and holds exactly these values. *)
Lemma stamp_fields_ok (e : exif_dict) (p : TimelinePoint) (tz : string) (t : Z)
    (offset_str : string) (lat_dms lon_dms : list (Z * Z)) :
  _format_tz_offset
    (match utcoffset env tz t with
     | Some d => if (d =? 0)%Z then 0%Z else d
     | None => 0%Z
     end) = Ok offset_str ->
  _deg_to_dms_rational (lat p) = Ok lat_dms ->
  _deg_to_dms_rational (lon p) = Ok lon_dms ->
  exists e',
    stamp_fields e p tz t = Ok e' /\
    carries_stamp e' (strftime_local env tz t) offset_str
      (if float_nonneg (lat p) then "N" else "S") lat_dms
      (if float_nonneg (lon p) then "E" else "W") lon_dms.
Proof.
  intros Hoff Hlat Hlon.
  destruct (stamp_fields e p tz t) as [e'|exc] eqn:Hstamp.
  - exists e'. split; [reflexivity|].
    destruct (stamp_fields_spec _ _ _ _ _ Hstamp)
      as (offset_str' & lat_dms' & lon_dms' & Hoff' & Hlat' & Hlon' & Hc).
    congruence.
  - exfalso. unfold stamp_fields, _write_gps in Hstamp.
    rewrite Hoff in Hstamp. cbn [rbind] in Hstamp.
    rewrite Hlat in Hstamp. cbn [rbind] in Hstamp.
    rewrite Hlon in Hstamp. discriminate Hstamp.
Qed.

(** The stamp tags are not pointer tags: what the codec reads back carries
    the stamp that was written. *)
Lemma carries_stamp_rewritten (e w : exif_dict) (time_str offset_str : string)
    (lat_ref : string) (lat_dms : list (Z * Z)) (lon_ref : string) (lon_dms : list (Z * Z)) :
  same_outside_pointers e w ->
  carries_stamp e time_str offset_str lat_ref lat_dms lon_ref lon_dms ->
  carries_stamp w time_str offset_str lat_ref lat_dms lon_ref lon_dms.
Proof.
  intros (H0 & HE & HG & _) Hc. unfold carries_stamp in *.
  rewrite HG, !HE, H0 by discriminate. exact Hc.
Qed.

(** The backup leaves the photo itself as it is. *)
Lemma backup_keeps_photo (filepath : string) (backup : bool) (s : run_state) :
  exists s1,
    (if backup then backup_file filepath else ret tt) s = (Ok tt, s1) /\
    fs s1 !! filepath = fs s !! filepath /\
    processed s1 = processed s /\ skipped s1 = skipped s.
Proof.
  destruct backup; [|exists s; repeat split].
  unfold backup_file. destruct (fs s !! (filepath +:+ ".exif_backup")) eqn:Eb.
  - exists s. repeat split.
  - destruct (fs s !! filepath) as [f|] eqn:Ef.
    + eexists. split; [reflexivity|]. cbn [fs processed skipped]. repeat split.
      rewrite lookup_insert_ne; [exact Ef|].
      intros H. apply (f_equal String.length) in H. revert H. clear.
      induction filepath as [|c p IH]; [discriminate|].
      change (String.length (String c p +:+ ".exif_backup"))
        with (S (String.length (p +:+ ".exif_backup"))).
      cbn [String.length]. intros H. apply IH. now injection H.
    + eexists. split; [reflexivity|]. cbn [fs processed skipped]. repeat split. exact Ef.
Qed.

(** C10. Without the overwrite flag, [update_photo] takes the already-tagged
    skip exactly when the GPS group holds a non-empty value for both
    [GPSLatitude] and [GPSLongitude].  Otherwise (one of them missing or
    empty) the photo is handled as with the overwrite flag: when its
    timestamp parses, the time zone of the sample resolves, the offset can
    be formatted and the coordinates encoded, the tag map is the one read
    with the ten stamp tags recomputed: the local time, the offset
    [_format_tz_offset] gives, the hemispheres and the triples
    [_deg_to_dms_rational] gives.  In apply mode it is handed to the codec,
    and the file holds what the codec reads back, which carries the same
    stamp; in a dry run the update is only logged. *)
Theorem gps_skip_needs_both_coordinates
    (filepath : string) (tl_point : TimelinePoint) (camera_tz : string)
    (apply backup : bool) (exif : exif_dict) (s : run_state) :
  fs s !! filepath = Some (Photo exif) ->
  let tagged :=
    truthy_opt (ifd_GPS exif !! GPSIFD.GPSLatitude) &&
    truthy_opt (ifd_GPS exif !! GPSIFD.GPSLongitude) in
  (tagged = true ->
   update_photo filepath tl_point camera_tz apply backup false s =
   (Ok false,
    mkRun (fs s) (processed s) (skipped s)
      (run_log s ++ [(DEBUG, "%s already has GPS tags; skipping")]))) /\
  (tagged = false ->
   update_photo filepath tl_point camera_tz apply backup false s =
   update_photo filepath tl_point camera_tz apply backup true s /\
   forall (orig : exif_value) (naive_dt : Z) (tz_name : string)
          (offset_str : string) (lat_dms lon_dms : list (Z * Z)),
     ifd_Exif exif !! ExifIFD.DateTimeOriginal = Some orig ->
     parse_original orig = Ok naive_dt ->
     timezone_at env (lat tl_point) (lon tl_point) = Ok (Some tz_name) ->
     known_timezone env tz_name = true ->
     let aware_utc := localize_utc env camera_tz naive_dt in
     _format_tz_offset
       (match utcoffset env tz_name aware_utc with
        | Some d => if (d =? 0)%Z then 0%Z else d
        | None => 0%Z
        end) = Ok offset_str ->
     _deg_to_dms_rational (lat tl_point) = Ok lat_dms ->
     _deg_to_dms_rational (lon tl_point) = Ok lon_dms ->
     exists exif',
       stamp_fields exif tl_point tz_name aware_utc = Ok exif' /\
       carries_stamp exif' (strftime_local env tz_name aware_utc) offset_str
         (if float_nonneg (lat tl_point) then "N" else "S") lat_dms
         (if float_nonneg (lon tl_point) then "E" else "W") lon_dms /\
       same_outside_stamp exif exif' /\
       (apply = true ->
        forall written, piexif_rewrite env filepath exif exif' = Ok written ->
        exists s',
          update_photo filepath tl_point camera_tz apply backup false s = (Ok true, s') /\
          fs s' !! filepath = Some (Photo written) /\
          carries_stamp written (strftime_local env tz_name aware_utc) offset_str
            (if float_nonneg (lat tl_point) then "N" else "S") lat_dms
            (if float_nonneg (lon tl_point) then "E" else "W") lon_dms) /\
       (apply = false ->
        update_photo filepath tl_point camera_tz apply backup false s =
        (Ok true,
         mkRun (fs s) (processed s) (skipped s)
           (run_log s ++
            [(INFO, "[dry-run] Would update %s (lat=%.5f, lon=%.5f, tz=%s, time=%s)")])))).
Proof.
  intros Hfile tagged. split.
  - intros Htag. unfold update_photo. rewrite (bind_piexif_load _ _ _ _ Hfile).
    unfold has_gps. fold tagged. rewrite Htag. reflexivity.
  - intros Htag.
    assert (Hsame : update_photo filepath tl_point camera_tz apply backup false s =
                    update_photo filepath tl_point camera_tz apply backup true s).
    { unfold update_photo. rewrite !(bind_piexif_load _ _ _ _ Hfile).
      unfold has_gps. fold tagged. rewrite Htag. reflexivity. }
    split; [exact Hsame|].
    intros orig naive_dt tz_name offset_str lat_dms lon_dms
      Horig Hparse Htz Hknown aware_utc Hoff Hlat Hlon.
    destruct (stamp_fields_ok exif tl_point tz_name aware_utc _ _ _ Hoff Hlat Hlon)
      as (exif' & Hstamp & Hc).
    exists exif'. split; [exact Hstamp|]. split; [exact Hc|].
    split; [exact (stamp_fields_frame _ _ _ _ _ Hstamp)|].
    assert (Hrun : update_photo filepath tl_point camera_tz apply backup false s =
      (if apply
       then bind (if backup then backup_file filepath else ret tt)
              (fun _ => bind (piexif_insert_dump exif' filepath) (fun _ => ret true))
       else bind (logger (INFO, "[dry-run] Would update %s (lat=%.5f, lon=%.5f, tz=%s, time=%s)"))
              (fun _ => ret true)) s).
    { unfold update_photo. rewrite (bind_piexif_load _ _ _ _ Hfile).
      unfold has_gps. fold tagged. rewrite Htag. cbn [negb andb]. rewrite Horig.
      unfold bind at 1, lift. rewrite Hparse.
      unfold bind at 1. rewrite Htz, Hknown.
      unfold bind at 1. fold aware_utc. rewrite Hstamp. reflexivity. }
    rewrite Hrun. split.
    + intros -> written Hwritten. unfold bind at 1.
      destruct (backup_keeps_photo filepath backup s) as (s1 & Hs1 & Hfs1 & _).
      rewrite Hs1. unfold bind, piexif_insert_dump, ret.
      rewrite Hfs1, Hfile, Hwritten.
      eexists; split; [reflexivity|]. cbn [fs].
      split; [apply lookup_insert_eq|].
      exact (carries_stamp_rewritten _ _ _ _ _ _ _ _
               (piexif_rewrite_keeps_tags env _ _ _ _ Hwritten) Hc).
    + intros ->. reflexivity.
Qed.

(** When [update_photo] declines a photo (it returns [False]), the loop step
    changes neither counter. *)
Lemma declined_photo_is_not_counted
    (args : arguments) (points : list TimelinePoint) (photo : string)
    (exif : exif_dict) (orig : exif_value) (naive_dt : Z) (tl_point : TimelinePoint)
    (s s' : run_state) :
  fs s !! photo = Some (Photo exif) ->
  ifd_Exif exif !! ExifIFD.DateTimeOriginal = Some orig ->
  truthy orig = true ->
  parse_original orig = Ok naive_dt ->
  find_nearest_timeline_point points (localize_utc env (camera_tz args) naive_dt)
    = Some tl_point ->
  (gap tl_point (localize_utc env (camera_tz args) naive_dt)
   <= timedelta_minutes (max_gap_minutes args))%Z ->
  update_photo photo tl_point (camera_tz args) (apply args) (backup args)
    (overwrite_gps args) s = (Ok false, s') ->
  photo_step args points photo s = (Ok tt, s').
Proof.
  intros Hfile Horig Htruthy Hparse Hfind Hgap Hupd.
  unfold photo_step, try_except, process_photo, bind at 1, piexif_load.
  rewrite Hfile, Horig, Htruthy. unfold bind at 1, lift. rewrite Hparse, Hfind.
  apply Z.ltb_ge in Hgap. rewrite Hgap. unfold bind at 1. rewrite Hupd. reflexivity.
Qed.

(** ** Offset formatting *)

Lemma utc_offset_minutes_complete (m : Z) :
  (-1440 < m < 1440)%Z -> In m utc_offset_minutes.
Proof.
  intros H. unfold utc_offset_minutes. apply in_map_iff.
  exists (Z.to_nat (m + 1439)). split; [lia|]. apply in_seq. lia.
Qed.

Lemma utc_offsets_format : forallb offset_formats_as_hh_mm utc_offset_minutes = true.
Proof. vm_compute. reflexivity. Qed.

(** C4. A UTC offset of a whole number of minutes (a UTC offset lies
    strictly between -24 h and +24 h) is formatted as the sign of its value,
    [+] for zero and above, followed by the hours and the minutes of its
    absolute value, each as two decimal digits, separated by a colon. *)
Theorem format_tz_offset_whole_minutes (m : Z) :
  (-1440 < m < 1440)%Z ->
  _format_tz_offset (timedelta_minutes m) =
  Ok (hh_mm (if (0 <=? m)%Z then "+" else "-") (Z.abs m / 60) (Z.abs m mod 60)).
Proof.
  intros H. pose proof utc_offsets_format as Hall.
  rewrite forallb_forall in Hall.
  specialize (Hall m (utc_offset_minutes_complete m H)).
  unfold offset_formats_as_hh_mm in Hall. unfold timedelta_minutes.
  destruct (_format_tz_offset (m * 60000000)) as [s|e]; [|discriminate].
  apply String.eqb_eq in Hall. now rewrite Hall.
Qed.

Lemma format_tz_offset_whole_minutes_witness :
  _format_tz_offset (-28800 * 1000000) = Ok "-08:00" /\
  _format_tz_offset (19800 * 1000000) = Ok "+05:30" /\
  _format_tz_offset 0 = Ok "+00:00".
Proof.
  split; [|split].
  - exact (format_tz_offset_whole_minutes (-480) ltac:(lia)).
  - exact (format_tz_offset_whole_minutes 330 ltac:(lia)).
  - exact (format_tz_offset_whole_minutes 0 ltac:(lia)).
Defined.

(** ** Rounding in [SpecFloat] *)

Lemma digits2_pos_bounds (m : positive) :
  (2 ^ (Z.pos (digits2_pos m) - 1) <= Z.pos m < 2 ^ Z.pos (digits2_pos m))%Z.
Proof.
  induction m as [m IH|m IH|]; cbn [digits2_pos].
  - rewrite Pos2Z.inj_succ.
    replace (Z.succ (Z.pos (digits2_pos m)) - 1)%Z with (Z.succ (Z.pos (digits2_pos m) - 1))%Z by lia.
    rewrite !Z.pow_succ_r by lia. lia.
  - rewrite Pos2Z.inj_succ.
    replace (Z.succ (Z.pos (digits2_pos m)) - 1)%Z with (Z.succ (Z.pos (digits2_pos m) - 1))%Z by lia.
    rewrite !Z.pow_succ_r by lia. lia.
  - simpl. lia.
Qed.

Lemma iter_pos_nat {A : Type} (f : A -> A) (p : positive) (x : A) :
  SpecFloat.iter_pos f p x = Nat.iter (Pos.to_nat p) f x.
Proof.
  revert x; induction p as [p IH|p IH|]; intros x; cbn [SpecFloat.iter_pos].
  - rewrite !IH, Pos2Nat.inj_xI.
    replace (S (2 * Pos.to_nat p)) with (Pos.to_nat p + (Pos.to_nat p + 1))%nat by lia.
    rewrite !Nat.iter_add. reflexivity.
  - rewrite !IH, Pos2Nat.inj_xO.
    replace (2 * Pos.to_nat p)%nat with (Pos.to_nat p + Pos.to_nat p)%nat by lia.
    rewrite Nat.iter_add. reflexivity.
  - reflexivity.
Qed.

Lemma shr_1_nonneg (m : Z) (r s : bool) :
  (0 <= m)%Z ->
  shr_1 (Build_shr_record m r s) = Build_shr_record (m / 2) (Z.odd m) (r || s).
Proof.
  intros Hm. destruct m as [|[p|p|]|p]; try lia; cbn [shr_1].
  - reflexivity.
  - f_equal. rewrite Pos2Z.inj_xI. apply Z.div_unique with 1%Z; lia.
  - f_equal. rewrite Pos2Z.inj_xO. apply Z.div_unique with 0%Z; lia.
  - reflexivity.
Qed.

(** The record after [k] one-bit shifts of the exact mantissa [m]: the
    quotient by [2 ^ k], the last bit shifted out, and whether a bit below
    it was set. *)
Lemma shr_iter_spec (m : Z) (k : nat) :
  (0 <= m)%Z ->
  let mrs := Nat.iter k shr_1 (Build_shr_record m false false) in
  let rem := (m mod 2 ^ Z.of_nat k)%Z in
  shr_m mrs = (m / 2 ^ Z.of_nat k)%Z /\
  match k with
  | O => shr_r mrs = false /\ shr_s mrs = false
  | S k' =>
      (shr_r mrs = true <-> (2 ^ Z.of_nat k' <= rem)%Z) /\
      (shr_s mrs = true <-> (rem <> 0 /\ rem <> 2 ^ Z.of_nat k')%Z)
  end.
Proof.
  intros Hm. induction k as [|k IH]; cbv zeta in *.
  - simpl. rewrite Z.div_1_r. auto.
  - rewrite Nat.iter_succ. destruct IH as [IHm IHrs].
    destruct (Nat.iter k shr_1 (Build_shr_record m false false)) as [q r s].
    cbn [shr_m shr_r shr_s] in *.
    assert (Hq : (0 <= q)%Z) by (subst q; apply Z.div_pos; lia).
    rewrite (shr_1_nonneg q r s Hq). cbn [shr_m shr_r shr_s].
    set (P := (2 ^ Z.of_nat k)%Z) in *.
    assert (HP : (0 < P)%Z) by (apply Z.pow_pos_nonneg; lia).
    assert (HS : (2 ^ Z.of_nat (S k) = 2 * P)%Z).
    { rewrite Nat2Z.inj_succ, Z.pow_succ_r by lia. reflexivity. }
    rewrite HS.
    pose proof (Z.div_mod m P ltac:(lia)) as Hdm.
    pose proof (Z.mod_pos_bound m P HP) as Hrb.
    pose proof (Z.div_mod q 2 ltac:(lia)) as Hq2.
    pose proof (Z.mod_pos_bound q 2 ltac:(lia)) as Hq2b.
    assert (Hdiv : (m / (2 * P) = q / 2)%Z).
    { rewrite Z.mul_comm, <- Z.div_div by lia. now rewrite <- IHm. }
    assert (Hmod : (m mod (2 * P) = m mod P + (q mod 2) * P)%Z).
    { pose proof (Z.div_mod m (2 * P) ltac:(lia)) as H2. rewrite Hdiv in H2. nia. }
    rewrite Hdiv, Hmod. split; [reflexivity|].
    assert (Hodd : Z.odd q = true <-> (q mod 2 = 1)%Z).
    { rewrite Zmod_odd. destruct (Z.odd q); split; intros; try lia; auto; discriminate. }
    split.
    + rewrite Hodd. assert (Hc : (q mod 2 = 0 \/ q mod 2 = 1)%Z) by lia.
      destruct Hc as [Hc | Hc]; rewrite Hc; lia.
    + assert (Hrs : (r || s) = true <-> (m mod P <> 0)%Z).
      { destruct k as [|k'].
        - destruct IHrs as [-> ->]. unfold P. simpl Z.of_nat. rewrite Z.pow_0_r, Z.mod_1_r.
          split; [discriminate|lia].
        - destruct IHrs as [Hr Hs]. rewrite orb_true_iff, Hr, Hs.
          assert (0 < 2 ^ Z.of_nat k')%Z by (apply Z.pow_pos_nonneg; lia). lia. }
      rewrite Hrs. assert (Hc : (q mod 2 = 0 \/ q mod 2 = 1)%Z) by lia.
      destruct Hc as [-> | ->]; lia.
Qed.

Lemma fexp_binary64 (D : Z) : SpecFloat.fexp 53 1024 D = Z.max (D - 53) (-1074).
Proof. reflexivity. Qed.

Lemma digits2_pos_unique (m : positive) (k : Z) :
  (2 ^ (k - 1) <= Z.pos m < 2 ^ k)%Z -> Z.pos (digits2_pos m) = k.
Proof.
  intros [Hlo Hhi]. pose proof (digits2_pos_bounds m) as [Dlo Dhi].
  set (d := Z.pos (digits2_pos m)) in *.
  assert (Hk : (0 < k)%Z).
  { destruct (Z_lt_le_dec 0 k) as [H|H]; [exact H|].
    destruct (Z.eq_dec k 0%Z) as [->|Hne]; [simpl in Hhi; lia|].
    rewrite Z.pow_neg_r in Hhi by lia. lia. }
  destruct (Z_lt_le_dec d k) as [H1|H1].
  - assert (2 ^ d <= 2 ^ (k - 1))%Z by (apply Z.pow_le_mono_r; lia). lia.
  - destruct (Z_lt_le_dec k d) as [H2|H2]; [|lia].
    assert (2 ^ k <= 2 ^ (d - 1))%Z by (apply Z.pow_le_mono_r; lia). lia.
Qed.

(** Rounding to nearest even after a right shift by [n > 0] bits. *)
Lemma round_shifted (M : Z) (p : positive) :
  (0 <= M)%Z ->
  let mrs := SpecFloat.iter_pos shr_1 p (Build_shr_record M false false) in
  let m' := round_nearest_even (shr_m mrs) (loc_of_shr_record mrs) in
  let q := (M / 2 ^ Z.pos p)%Z in
  (q <= m' <= q + 1)%Z /\
  (2 * Z.abs (m' * 2 ^ Z.pos p - M) <= 2 ^ Z.pos p)%Z /\
  ((M mod 2 ^ Z.pos p = 0)%Z -> m' = q).
Proof.
  intros HM. cbv zeta. rewrite iter_pos_nat.
  destruct (Pos2Nat.is_succ p) as [k Hk]. rewrite Hk.
  pose proof (shr_iter_spec M (S k) HM) as Hspec. cbv zeta in Hspec.
  assert (Hpk : Z.of_nat (S k) = Z.pos p) by (rewrite <- Hk; apply positive_nat_Z).
  rewrite Hpk in Hspec. destruct Hspec as (Hq & Hr & Hs).
  destruct (Nat.iter (S k) shr_1 (Build_shr_record M false false)) as [q r s].
  cbn [shr_m shr_r shr_s] in *. subst q.
  set (P := (2 ^ Z.pos p)%Z) in *. set (h := (2 ^ Z.of_nat k)%Z) in *.
  assert (Hh : (0 < h)%Z) by (apply Z.pow_pos_nonneg; lia).
  assert (HP : (P = 2 * h)%Z).
  { unfold P, h. rewrite <- Hpk, Nat2Z.inj_succ, Z.pow_succ_r by lia. reflexivity. }
  pose proof (Z.div_mod M P ltac:(lia)) as Hdm.
  pose proof (Z.mod_pos_bound M P ltac:(lia)) as Hrb.
  set (q := (M / P)%Z) in *. set (rem := (M mod P)%Z) in *.
  destruct r, s; cbn [loc_of_shr_record round_nearest_even].
  - assert (h <= rem)%Z by (apply Hr; reflexivity).
    assert (rem <> 0 /\ rem <> h)%Z by (apply Hs; reflexivity).
    repeat split; intros; lia.
  - assert (h <= rem)%Z by (apply Hr; reflexivity).
    assert (rem = h)%Z.
    { destruct (Z.eq_dec rem h) as [E|E]; [exact E|].
      assert (false = true) by (apply Hs; lia). discriminate. }
    destruct (Z.even q); repeat split; intros; lia.
  - assert (rem < h)%Z.
    { destruct (Z_lt_le_dec rem h) as [E|E]; [exact E|].
      assert (false = true) by (apply Hr; exact E). discriminate. }
    repeat split; intros; lia.
  - assert (rem < h)%Z.
    { destruct (Z_lt_le_dec rem h) as [E|E]; [exact E|].
      assert (false = true) by (apply Hr; exact E). discriminate. }
    repeat split; intros; lia.
Qed.

Lemma bounded_iff (m : positive) (e : Z) :
  bounded 53 1024 m e = true <->
  (Z.max (Z.pos (digits2_pos m) + e - 53) (-1074) = e /\ e <= 971)%Z.
Proof.
  unfold bounded, canonical_mantissa. rewrite fexp_binary64.
  change (1024 - 53)%Z with 971%Z.
  rewrite andb_true_iff, Z.eqb_eq, Z.leb_le. reflexivity.
Qed.

Lemma renormalized_spec (s : bool) (m t : Z) :
  (-1074 <= t <= 900)%Z -> (0 <= m <= 2 ^ 53)%Z ->
  (t = -1074 \/ 2 ^ 52 <= m)%Z ->
  canonical s (renormalized s m t) /\
  scaled (renormalized s m t) = (m * 2 ^ (t + 1200))%Z.
Proof.
  intros Ht Hm Hcase. unfold renormalized, shr_fexp. rewrite fexp_binary64.
  destruct m as [|m|m]; [| |lia].
  - (* the mantissa rounded to zero *)
    cbn [Zdigits2]. unfold shr.
    destruct (Z.max (0 + t - 53) (-1074) - t)%Z eqn:En; try lia;
      cbn [shr_record_of_loc shr_m]; split; try (left; reflexivity); reflexivity.
  - cbn [Zdigits2].
    destruct (Z.eq_dec (Z.pos m) (2 ^ 53)%Z) as [E53|N53].
    + (* the mantissa rounded up to 2^53 *)
      assert (m = 9007199254740992%positive) by (apply Pos2Z.inj; rewrite E53; reflexivity).
      subst m. change (Z.pos (digits2_pos 9007199254740992)) with 54%Z.
      replace (Z.max (54 + t - 53) (-1074) - t)%Z with 1%Z by lia.
      cbn [shr SpecFloat.iter_pos shr_record_of_loc shr_1 shr_m].
      replace (t + 1 <=? 971)%Z with true by (symmetry; apply Z.leb_le; lia).
      split.
      * right. eexists; eexists; split; [reflexivity|].
        apply bounded_iff. change (Z.pos (digits2_pos 4503599627370496)) with 53%Z. lia.
      * cbn [scaled]. replace (t + 1 + 1200)%Z with (Z.succ (t + 1200)) by lia.
        rewrite Z.pow_succ_r by lia. change (2 ^ 53)%Z with 9007199254740992%Z. lia.
    + pose proof (digits2_pos_bounds m) as [Dlo Dhi].
      set (d := Z.pos (digits2_pos m)) in *.
      assert (Hd : (d <= 53)%Z).
      { destruct (Z_lt_le_dec 53 d) as [H|H]; [|exact H].
        assert (2 ^ 53 <= 2 ^ (d - 1))%Z by (apply Z.pow_le_mono_r; lia). lia. }
      assert (Hcan : (Z.max (d + t - 53) (-1074) = t)%Z).
      { destruct Hcase as [->|H52]; [lia|].
        assert (d = 53%Z) by (apply digits2_pos_unique; change (53 - 1)%Z with 52%Z; lia).
        lia. }
      unfold shr. rewrite Hcan, Z.sub_diag. cbn [shr_record_of_loc shr_m].
      replace (t <=? 971)%Z with true by (symmetry; apply Z.leb_le; lia).
      split; [|reflexivity].
      right. eexists; eexists; split; [reflexivity|].
      apply bounded_iff. fold d. lia.
Qed.

Lemma binary_round_aux_unfold (sx : bool) (mx ex : Z) (lx : location) :
  binary_round_aux 53 1024 sx mx ex lx =
  let '(mrs', e') := shr_fexp 53 1024 mx ex lx in
  renormalized sx (round_nearest_even (shr_m mrs') (loc_of_shr_record mrs')) e'.
Proof. reflexivity. Qed.

Lemma pow2_pos (k : Z) : (0 <= k)%Z -> (0 < 2 ^ k)%Z.
Proof. intros. apply Z.pow_pos_nonneg; lia. Qed.

Lemma pow2_split (a b : Z) :
  (0 <= a)%Z -> (0 <= b)%Z -> (2 ^ (a + b) = 2 ^ a * 2 ^ b)%Z.
Proof. intros. apply Z.pow_add_r; assumption. Qed.

(** Rounding the exact value [M * 2 ^ E] to binary64: the result is
    canonical, within half a unit in the last place of the value, and equal
    to it when the value fits. *)
Lemma binary_round_aux_spec (sx : bool) (M : positive) (E : Z) :
  let D := (Z.pos (digits2_pos M) + E)%Z in
  let t := Z.max (D - 53) (-1074) in
  (-1200 <= E)%Z -> (D <= 900)%Z -> (E <= t)%Z ->
  let r := binary_round_aux 53 1024 sx (Z.pos M) E loc_Exact in
  canonical sx r /\
  (2 * Z.abs (scaled r - Z.pos M * 2 ^ (E + 1200)) <= 2 ^ (t + 1200))%Z /\
  ((Z.pos M mod 2 ^ (t - E) = 0)%Z -> scaled r = (Z.pos M * 2 ^ (E + 1200))%Z).
Proof.
  intros D t HE HD Ht r. unfold r. rewrite binary_round_aux_unfold.
  unfold shr_fexp. rewrite fexp_binary64. cbn [Zdigits2]. fold D. fold t.
  pose proof (digits2_pos_bounds M) as [Dlo Dhi].
  set (d := Z.pos (digits2_pos M)) in *.
  assert (Hd : (0 < d)%Z) by (unfold d; lia).
  destruct (t - E)%Z as [|p|p] eqn:En; [| |lia].
  - (* nothing to shift out *)
    assert (t = E) by lia. cbn [shr shr_record_of_loc shr_m loc_of_shr_record round_nearest_even].
    assert (Hd53 : (d <= 53)%Z) by (unfold t, D in *; lia).
    assert (HM : (Z.pos M < 2 ^ 53)%Z).
    { assert (2 ^ d <= 2 ^ 53)%Z by (apply Z.pow_le_mono_r; lia). lia. }
    destruct (renormalized_spec sx (Z.pos M) E) as [Hc Hs].
    + unfold t, D in *. lia.
    + lia.
    + destruct (Z.eq_dec E (-1074)%Z) as [HE'|HE']; [left; exact HE'|right].
      assert (d = 53%Z) by (unfold t, D in *; lia).
      replace 52%Z with (d - 1)%Z by lia. exact Dlo.
    + split; [exact Hc|]. rewrite Hs. subst t.
      replace (Z.pos M * 2 ^ (E + 1200) - Z.pos M * 2 ^ (E + 1200))%Z with 0%Z by lia.
      pose proof (pow2_pos (E + 1200) ltac:(lia)). split; [simpl; lia|reflexivity].
  - (* [t - E = Z.pos p] bits are shifted out *)
    cbn [shr shr_record_of_loc].
    pose proof (round_shifted (Z.pos M) p ltac:(lia)) as Hround. cbv zeta in Hround.
    set (mrs := SpecFloat.iter_pos shr_1 p (Build_shr_record (Z.pos M) false false)) in *.
    set (m' := round_nearest_even (shr_m mrs) (loc_of_shr_record mrs)) in *.
    destruct Hround as (Hq & Herr & Hexact).
    replace (E + Z.pos p)%Z with t by lia.
    set (P := (2 ^ Z.pos p)%Z) in *.
    assert (HP : (0 < P)%Z) by (apply pow2_pos; lia).
    assert (Hdn : (d - Z.pos p <= 53)%Z) by (unfold t, D in *; lia).
    pose proof (Z.div_mod (Z.pos M) P ltac:(lia)) as Hdm.
    pose proof (Z.mod_pos_bound (Z.pos M) P HP) as Hrb.
    assert (Hqhi : (Z.pos M / P < 2 ^ 53)%Z).
    { apply Z.div_lt_upper_bound; [exact HP|].
      assert (2 ^ d <= P * 2 ^ 53)%Z; [|lia].
      unfold P. rewrite <- pow2_split by lia. apply Z.pow_le_mono_r; lia. }
    destruct (renormalized_spec sx m' t) as [Hc Hs].
    + unfold t, D in *. lia.
    + assert (0 <= Z.pos M / P)%Z by (apply Z.div_pos; lia). lia.
    + destruct (Z.eq_dec t (-1074)%Z) as [Ht'|Ht']; [left; exact Ht'|right].
      assert (Hd53 : (d - Z.pos p = 53)%Z) by (unfold t, D in *; lia).
      assert (2 ^ 52 <= Z.pos M / P)%Z; [|lia].
      apply Z.div_le_lower_bound; [exact HP|].
      assert (P * 2 ^ 52 = 2 ^ (d - 1))%Z; [|lia].
      unfold P. rewrite <- pow2_split by lia. f_equal. lia.
    + split; [exact Hc|]. rewrite Hs.
      assert (Hpow : (2 ^ (t + 1200) = P * 2 ^ (E + 1200))%Z).
      { unfold P. rewrite <- pow2_split by lia. f_equal. lia. }
      rewrite Hpow.
      pose proof (pow2_pos (E + 1200) ltac:(lia)) as HU.
      set (U := (2 ^ (E + 1200))%Z) in *.
      replace (m' * (P * U) - Z.pos M * U)%Z with ((m' * P - Z.pos M) * U)%Z by ring.
      rewrite Z.abs_mul, (Z.abs_eq U) by lia. split; [nia|].
      intros Hdiv. rewrite (Hexact Hdiv). rewrite Hdiv in Hdm. nia.
Qed.

Lemma pos_iter_xO (m d : positive) :
  Z.pos (Pos.iter xO m d) = (Z.pos m * 2 ^ Z.pos d)%Z.
Proof.
  induction d as [|d IH] using Pos.peano_ind.
  - simpl. lia.
  - rewrite Pos.iter_succ, Pos2Z.inj_xO, IH, Pos2Z.inj_succ, Z.pow_succ_r by lia. ring.
Qed.

Lemma digits2_pos_shift (m d : positive) :
  Z.pos (digits2_pos (Pos.iter xO m d)) = (Z.pos (digits2_pos m) + Z.pos d)%Z.
Proof.
  apply digits2_pos_unique. rewrite pos_iter_xO.
  pose proof (digits2_pos_bounds m) as [Dlo Dhi].
  pose proof (pow2_pos (Z.pos d) ltac:(lia)).
  replace (Z.pos (digits2_pos m) + Z.pos d - 1)%Z
    with ((Z.pos (digits2_pos m) - 1) + Z.pos d)%Z by lia.
  rewrite !pow2_split by lia. nia.
Qed.

Lemma shl_align_value (m : positive) (e e' : Z) :
  (e' <= e)%Z -> Z.pos (fst (shl_align m e e')) = (Z.pos m * 2 ^ (e - e'))%Z.
Proof.
  intros H. unfold shl_align. destruct (e' - e)%Z as [|p|p] eqn:E; try lia.
  - replace (e - e')%Z with 0%Z by lia. simpl. lia.
  - cbn [fst]. rewrite pos_iter_xO. f_equal. f_equal. lia.
Qed.

(** [binary_round] on a value that fits the format is exact. *)
Lemma binary_round_exact (sx : bool) (M : positive) (E : Z) :
  let D := (Z.pos (digits2_pos M) + E)%Z in
  let t := Z.max (D - 53) (-1074) in
  (-1200 <= E)%Z -> (D <= 900)%Z ->
  ((E < t)%Z -> (Z.pos M mod 2 ^ (t - E) = 0)%Z) ->
  canonical sx (binary_round 53 1024 sx M E) /\
  scaled (binary_round 53 1024 sx M E) = (Z.pos M * 2 ^ (E + 1200))%Z.
Proof.
  intros D t HE HD Hfit. unfold binary_round. rewrite fexp_binary64. fold D. fold t.
  unfold shl_align. destruct (t - E)%Z as [|p|p] eqn:En.
  - destruct (binary_round_aux_spec sx M E HE HD) as (Hc & _ & Hx); [fold D; fold t; lia|].
    split; [exact Hc|]. apply Hx. fold D. fold t. rewrite En. apply Z.mod_1_r.
  - destruct (binary_round_aux_spec sx M E HE HD) as (Hc & _ & Hx); [fold D; fold t; lia|].
    split; [exact Hc|]. apply Hx. fold D. fold t. rewrite En. apply Hfit. lia.
  - pose proof (digits2_pos_shift M p) as Hdig.
    assert (HD' : (Z.pos (digits2_pos (Pos.iter xO M p)) + t = D)%Z) by (unfold D; lia).
    destruct (binary_round_aux_spec sx (Pos.iter xO M p) t) as (Hc & _ & Hx).
    + unfold t. lia.
    + rewrite HD'. exact HD.
    + rewrite HD'. fold t. lia.
    + split; [exact Hc|]. rewrite Hx.
      * rewrite pos_iter_xO. rewrite <- Z.mul_assoc, <- pow2_split by (unfold t; lia).
        f_equal. f_equal. lia.
      * rewrite HD'. fold t. rewrite Z.sub_diag. apply Z.mod_1_r.
Qed.

Lemma ONE_pos : (0 < ONE)%Z.
Proof. unfold ONE. apply pow2_pos. lia. Qed.

Lemma pow2_ONE (e : Z) : (0 <= e)%Z -> (2 ^ (e + 1200) = 2 ^ e * ONE)%Z.
Proof. intros H. unfold ONE. apply pow2_split; lia. Qed.

Lemma ONE_split (e : Z) :
  (-1200 <= e <= 0)%Z -> (ONE = 2 ^ (- e) * 2 ^ (e + 1200))%Z.
Proof. intros H. unfold ONE. rewrite <- pow2_split by lia. f_equal. lia. Qed.

Lemma Z2SF_spec (d : Z) :
  (0 <= d < 2 ^ 53)%Z -> tame (Z2SF d) /\ scaled (Z2SF d) = (d * ONE)%Z.
Proof.
  intros Hd. unfold Z2SF, binary_normalize, prec, emax.
  destruct d as [|p|p]; [split; [left; reflexivity|reflexivity]| |lia].
  pose proof (digits2_pos_bounds p) as [Dlo Dhi].
  assert (Hdig : (Z.pos (digits2_pos p) <= 53)%Z).
  { destruct (Z_lt_le_dec 53 (Z.pos (digits2_pos p))) as [H|H]; [|exact H].
    assert (2 ^ 53 <= 2 ^ (Z.pos (digits2_pos p) - 1))%Z by (apply Z.pow_le_mono_r; lia).
    lia. }
  destruct (binary_round_exact false p 0) as [Hc Hs]; try lia.
  split; [exact Hc|]. rewrite Hs. reflexivity.
Qed.

Lemma bounded_facts (m : positive) (e : Z) :
  bounded 53 1024 m e = true ->
  (-1074 <= e <= 971)%Z /\ (Z.pos m < 2 ^ 53)%Z /\ (e = -1074 \/ 2 ^ 52 <= Z.pos m)%Z.
Proof.
  intros H. apply bounded_iff in H. destruct H as [Hcan Hle].
  pose proof (digits2_pos_bounds m) as [Dlo Dhi].
  set (d := Z.pos (digits2_pos m)) in *.
  assert (Hd : (d <= 53)%Z) by lia.
  assert (2 ^ d <= 2 ^ 53)%Z by (apply Z.pow_le_mono_r; lia).
  repeat split; try lia.
  destruct (Z.eq_dec e (-1074)%Z) as [He|He]; [left; exact He|right].
  assert (d = 53%Z) by lia. replace 52%Z with (d - 1)%Z by lia. exact Dlo.
Qed.

Lemma pow2_lt_inv (a b : Z) : (0 <= b)%Z -> (2 ^ a < 2 ^ b)%Z -> (a < b)%Z.
Proof.
  intros Hb H. destruct (Z_lt_le_dec a b) as [Hlt|Hge]; [exact Hlt|].
  assert (2 ^ b <= 2 ^ a)%Z by (apply Z.pow_le_mono_r; lia). lia.
Qed.

(** A difference that fits the format is computed exactly. *)
Lemma SFsub_exact (ma mb : positive) (ea eb f0 e0 : Z) :
  bounded 53 1024 ma ea = true -> bounded 53 1024 mb eb = true ->
  (0 <= f0 < 2 ^ 53)%Z -> (-1074 <= e0 <= 800)%Z ->
  (Z.pos ma * 2 ^ (ea + 1200) - Z.pos mb * 2 ^ (eb + 1200) = f0 * 2 ^ (e0 + 1200))%Z ->
  let r := SFsub 53 1024 (S754_finite false ma ea) (S754_finite false mb eb) in
  tame r /\ scaled r = (f0 * 2 ^ (e0 + 1200))%Z.
Proof.
  intros Ha Hb Hf0 He0 Hdiff.
  destruct (bounded_facts _ _ Ha) as (Hea & _ & _).
  destruct (bounded_facts _ _ Hb) as (Heb & _ & _).
  cbn [SFsub cond_Zopp]. set (ez := Z.min ea eb).
  rewrite !shl_align_value by (unfold ez; lia).
  set (F := (Z.pos ma * 2 ^ (ea - ez) - Z.pos mb * 2 ^ (eb - ez))%Z).
  assert (HF : (F * 2 ^ (ez + 1200) = f0 * 2 ^ (e0 + 1200))%Z).
  { rewrite <- Hdiff. unfold F. rewrite Z.mul_sub_distr_r.
    rewrite <- !Z.mul_assoc, <- !pow2_split by (unfold ez; lia).
    f_equal; f_equal; f_equal; lia. }
  pose proof (pow2_pos (ez + 1200) ltac:(unfold ez; lia)) as Hz.
  pose proof (pow2_pos (e0 + 1200) ltac:(lia)) as H0.
  destruct F as [|pF|pF].
  - cbn [binary_normalize]. split; [left; reflexivity|]. cbn [scaled]. lia.
  - cbn [binary_normalize].
    pose proof (digits2_pos_bounds pF) as [Dlo Dhi].
    set (dF := Z.pos (digits2_pos pF)) in *.
    assert (HdF : (dF + ez <= 53 + e0)%Z).
    { assert (Hlt : (2 ^ (dF - 1 + (ez + 1200)) < 2 ^ (53 + (e0 + 1200)))%Z).
      { rewrite (pow2_split (dF - 1) (ez + 1200)), (pow2_split 53 (e0 + 1200))
          by (unfold dF, ez; lia). nia. }
      apply pow2_lt_inv in Hlt; lia. }
    destruct (binary_round_exact false pF ez) as [Hc Hs].
    + unfold ez; lia.
    + fold dF. lia.
    + fold dF. set (t := Z.max (dF + ez - 53) (-1074)). intros Hlt.
      assert (Ht0 : (t <= e0)%Z) by (unfold t; lia).
      assert (HpF : (Z.pos pF = f0 * 2 ^ (e0 - t) * 2 ^ (t - ez))%Z).
      { rewrite <- Z.mul_assoc, <- (pow2_split (e0 - t) (t - ez)) by lia.
        replace (e0 - t + (t - ez))%Z with (e0 - ez)%Z by lia.
        replace (e0 + 1200)%Z with ((e0 - ez) + (ez + 1200))%Z in HF by lia.
        rewrite (pow2_split (e0 - ez) (ez + 1200)), Z.mul_assoc in HF by lia.
        apply Z.mul_cancel_r in HF; lia. }
      rewrite HpF. apply Z.mod_mul. pose proof (pow2_pos (t - ez) ltac:(lia)). lia.
    + split; [exact Hc|]. rewrite Hs. exact HF.
  - exfalso. assert (0 <= f0 * 2 ^ (e0 + 1200))%Z by nia. nia.
Qed.

(** [int(y)] and [y - int(y)] for a non-negative [y] below [2 ^ 53]: the
    integer part is the floor and the fractional part is exact. *)
Lemma split_integer_part (y : float64) :
  tame y -> (scaled y < 2 ^ 53 * ONE)%Z ->
  exists i,
    float_to_int y = Ok i /\
    (0 <= i < 2 ^ 53)%Z /\
    (i * ONE <= scaled y < (i + 1) * ONE)%Z /\
    tame (SFsub prec emax y (Z2SF i)) /\
    scaled (SFsub prec emax y (Z2SF i)) = (scaled y - i * ONE)%Z.
Proof.
  pose proof ONE_pos as H1.
  intros [->|(m & e & -> & Hb)] Hlt.
  - exists 0%Z. cbn [float_to_int scaled].
    split; [reflexivity|]. split; [lia|]. split; [lia|].
    split; [left; reflexivity|]. reflexivity.
  - cbn [float_to_int scaled] in *.
    destruct (bounded_facts _ _ Hb) as (He & Hm & Hnorm).
    assert (He0 : (e <= 0)%Z).
    { destruct Hnorm as [->|H52]; [lia|].
      destruct (Z_lt_le_dec 0 e) as [Hpos|Hle]; [exfalso|exact Hle].
      rewrite pow2_ONE in Hlt by lia.
      assert (H2e : (2 ^ 1 <= 2 ^ e)%Z) by (apply Z.pow_le_mono_r; lia).
      change (2 ^ 1)%Z with 2%Z in H2e.
      assert (Hge : (2 ^ 52 * 2 <= Z.pos m * 2 ^ e)%Z)
        by (apply Z.mul_le_mono_nonneg; lia).
      assert (Hge' : (2 ^ 52 * 2 * ONE <= Z.pos m * 2 ^ e * ONE)%Z)
        by (apply Z.mul_le_mono_nonneg_r; lia).
      rewrite <- Z.mul_assoc in Hge'. lia. }
    rewrite Z.shiftl_div_pow2 by lia.
    set (P := (2 ^ (- e))%Z). set (U := (2 ^ (e + 1200))%Z) in *.
    assert (HP : (0 < P)%Z) by (apply pow2_pos; lia).
    assert (HU : (0 < U)%Z) by (apply pow2_pos; lia).
    assert (HPU : (ONE = P * U)%Z) by (apply ONE_split; lia).
    pose proof (Z.div_mod (Z.pos m) P ltac:(lia)) as Hdm.
    pose proof (Z.mod_pos_bound (Z.pos m) P HP) as Hrb.
    set (i := (Z.pos m / P)%Z) in *. set (rem := (Z.pos m mod P)%Z) in *.
    assert (Hi0 : (0 <= i)%Z) by (apply Z.div_pos; lia).
    assert (HiP : (i <= P * i)%Z) by nia.
    assert (Hi : (i < 2 ^ 53)%Z) by lia.
    assert (Hval : (Z.pos m * U = i * ONE + rem * U)%Z).
    { rewrite HPU, Hdm. ring. }
    assert (HremU : (0 <= rem * U < ONE)%Z).
    { rewrite HPU. split; [apply Z.mul_nonneg_nonneg; lia|].
      apply Z.mul_lt_mono_pos_r; lia. }
    exists i. split; [reflexivity|]. split; [lia|]. split; [lia|].
    destruct (Z2SF_spec i ltac:(lia)) as [Hti Hsi].
    destruct Hti as [Hz|(mi & ei & Hfi & Hbi)].
    + (* the integer part is zero *)
      rewrite Hz in *. cbn [scaled] in Hsi. cbn [SFsub scaled].
      split; [right; eauto|]. fold U. lia.
    + rewrite Hfi in *. cbn [scaled] in Hsi. unfold prec, emax.
      assert (Hdiff : (Z.pos m * 2 ^ (e + 1200) - Z.pos mi * 2 ^ (ei + 1200)
                       = rem * 2 ^ (e + 1200))%Z) by (rewrite Hsi; fold U; lia).
      destruct (SFsub_exact m mi e ei rem e Hb Hbi ltac:(lia) ltac:(lia) Hdiff) as [Ht Hs].
      split; [exact Ht|]. rewrite Hs. fold U. lia.
Qed.

(** The product of a non-negative float by a constant [c] with a 53-bit
    mantissa, when the exact product is below [2 ^ B]: within half a unit in
    the last place of [2 ^ B], that is within [2 ^ (B - 54)]. *)
Lemma SFmul_by_constant (y : float64) (c : Z) (mc : positive) (ec B : Z) :
  Z2SF c = S754_finite false mc ec ->
  Z.pos (digits2_pos mc) = 53%Z -> (-60 <= ec <= 0)%Z ->
  Z.pos mc = (c * 2 ^ (- ec))%Z ->
  tame y -> (0 <= B <= 53)%Z ->
  (c * scaled y < 2 ^ B * ONE)%Z ->
  let r := SFmul prec emax y (Z2SF c) in
  tame r /\ (2 ^ (54 - B) * Z.abs (scaled r - c * scaled y) <= ONE)%Z.
Proof.
  intros Hc Hdc Hec Hmc Hy HB Hlt. rewrite Hc. unfold prec, emax.
  pose proof ONE_pos as H1.
  destruct Hy as [->|(m & e & -> & Hb)].
  - cbn [SFmul xorb scaled]. split; [left; reflexivity|].
    rewrite Z.mul_0_r. simpl Z.abs. lia.
  - cbn [SFmul xorb scaled] in *.
    destruct (bounded_facts _ _ Hb) as (He & Hm & _).
    pose proof (digits2_pos_bounds mc) as [Clo _]. rewrite Hdc in Clo.
    change (53 - 1)%Z with 52%Z in Clo.
    pose proof (digits2_pos_bounds (m * mc)) as [Dlo Dhi].
    set (dM := Z.pos (digits2_pos (m * mc))) in *.
    rewrite Pos2Z.inj_mul in *.
    assert (HdM : (53 <= dM)%Z).
    { assert (Hp : (2 ^ 52 < 2 ^ dM)%Z) by nia.
      apply pow2_lt_inv in Hp; unfold dM in *; lia. }
    assert (Hval : (Z.pos m * Z.pos mc * 2 ^ (e + ec + 1200)
                    = c * (Z.pos m * 2 ^ (e + 1200)))%Z).
    { rewrite Hmc. replace (e + 1200)%Z with (- ec + (e + ec + 1200))%Z by lia.
      rewrite (pow2_split (- ec) (e + ec + 1200)) by lia. ring. }
    pose proof (pow2_pos (e + ec + 1200) ltac:(lia)) as HU.
    assert (HD : (dM + (e + ec) <= B)%Z).
    { assert (Hp : (2 ^ (dM - 1 + (e + ec + 1200)) < 2 ^ (B + 1200))%Z).
      { rewrite (pow2_split (dM - 1) (e + ec + 1200)), (pow2_ONE B) by lia. nia. }
      apply pow2_lt_inv in Hp; lia. }
    destruct (binary_round_aux_spec false (m * mc) (e + ec)) as (Hcan & Herr & _).
    + lia.
    + fold dM. lia.
    + fold dM. lia.
    + split; [exact Hcan|]. fold dM in Herr.
      rewrite Pos2Z.inj_mul, Hval in Herr.
      set (t := Z.max (dM + (e + ec) - 53) (-1074)) in *.
      set (err := Z.abs (scaled (binary_round_aux 53 1024 false (Z.pos m * Z.pos mc)
                                   (e + ec) loc_Exact)
                         - c * (Z.pos m * 2 ^ (e + 1200)))) in *.
      assert (Hq : (2 ^ (t + 1200) * 2 ^ (53 - B) <= ONE)%Z).
      { rewrite <- pow2_split by (unfold t; lia). unfold ONE.
        apply Z.pow_le_mono_r; unfold t; lia. }
      pose proof (pow2_pos (53 - B) ltac:(lia)) as HQ.
      replace (54 - B)%Z with (Z.succ (53 - B)) by lia.
      rewrite Z.pow_succ_r by lia.
      assert (Hm2 : (2 * err * 2 ^ (53 - B) <= 2 ^ (t + 1200) * 2 ^ (53 - B))%Z)
        by (apply Z.mul_le_mono_nonneg_r; lia).
      lia.
Qed.

Lemma Z2SF_60 : Z2SF 60 = S754_finite false 8444249301319680 (-47).
Proof. reflexivity. Qed.

Lemma Z2SF_100 : Z2SF 100 = S754_finite false 7036874417766400 (-46).
Proof. reflexivity. Qed.

(** The encoding of a coordinate of magnitude at most 180, in units of
    [2 ^ -1200]: [360000 |x|] exceeds [360000 deg + 6000 min + hundredths]
    by less than one plus the rounding of the three products (at most
    [6228 / 2 ^ 48]), and falls short of it by at most that rounding. *)
Lemma deg_to_dms_scaled (x : float64) :
  tame (SFabs x) -> (scaled (SFabs x) <= 180 * ONE)%Z ->
  exists d m n : Z,
    _deg_to_dms_rational x = Ok [(d, 1%Z); (m, 1%Z); (n, 100%Z)] /\
    (- (6228 * ONE)
     <= 2 ^ 48 * (360000 * scaled (SFabs x) - (360000 * d + 6000 * m + n) * ONE)
     < 2 ^ 48 * ONE + 6228 * ONE)%Z.
Proof.
  intros Ha Hle. unfold _deg_to_dms_rational. pose proof ONE_pos as H1.
  set (a := SFabs x) in *.
  destruct (split_integer_part a Ha ltac:(lia)) as (d & Hd & Hdr & Hdf & Htf & Hsf).
  rewrite Hd. cbn [rbind].
  set (f := SFsub prec emax a (Z2SF d)) in *.
  destruct (SFmul_by_constant f 60 _ (-47) 6 Z2SF_60) as [Htm Hem];
    try reflexivity; try assumption; try lia.
  set (mfl := SFmul prec emax f (Z2SF 60)) in *.
  change (2 ^ (54 - 6))%Z with 281474976710656%Z in Hem.
  destruct (split_integer_part mfl Htm ltac:(lia)) as (m & Hm & Hmr & Hmf & Htg & Hsg).
  rewrite Hm. cbn [rbind].
  set (g := SFsub prec emax mfl (Z2SF m)) in *.
  destruct (SFmul_by_constant g 60 _ (-47) 6 Z2SF_60) as [Hts Hes];
    try reflexivity; try assumption; try lia.
  set (sec := SFmul prec emax g (Z2SF 60)) in *.
  change (2 ^ (54 - 6))%Z with 281474976710656%Z in Hes.
  destruct (SFmul_by_constant sec 100 _ (-46) 13 Z2SF_100) as [Tth Hth];
    try reflexivity; try assumption; try lia.
  set (hun := SFmul prec emax sec (Z2SF 100)) in *.
  change (2 ^ (54 - 13))%Z with 2199023255552%Z in Hth.
  destruct (split_integer_part hun Tth ltac:(lia)) as (n & Hn & Hnr & Hnf & _ & _).
  rewrite Hn. cbn [rbind].
  exists d, m, n. split; [reflexivity|]. lia.
Qed.

(** ** The round trip of the GPS encoding *)

Lemma tame_abs_of_valid (x : float64) :
  valid_binary 53 1024 x = true ->
  SFleb (SFabs x) (Z2SF 180) = true ->
  tame (SFabs x) /\ (scaled (SFabs x) <= 180 * ONE)%Z.
Proof.
  intros Hv Hle. pose proof ONE_pos as H1.
  destruct x as [s|s| |s m e]; cbn [SFabs valid_binary] in *.
  - split; [left; reflexivity|]. cbn [scaled]. lia.
  - discriminate Hle.
  - discriminate Hle.
  - split; [right; eauto|]. cbn [scaled].
    destruct (bounded_facts _ _ Hv) as (He & Hm & _).
    change (Z2SF 180) with (S754_finite false 6333186975989760 (-45)) in Hle.
    unfold SFleb in Hle. cbn [SFcompare] in Hle.
    destruct (Z.compare_spec e (-45)) as [Heq|Hlt|Hgt].
    + subst e.
      assert (Hmle : (Z.pos m <= 6333186975989760)%Z).
      { apply Pos2Z.pos_le_pos. unfold Pos.le, Pos.compare. intros Hgt.
        rewrite Hgt in Hle. discriminate Hle. }
      rewrite (ONE_split (-45)) by lia.
      set (U := (2 ^ (-45 + 1200))%Z).
      assert (HU : (0 < U)%Z) by (apply pow2_pos; lia).
      change (2 ^ (- -45))%Z with 35184372088832%Z.
      assert (Z.pos m * U <= 6333186975989760 * U)%Z
        by (apply Z.mul_le_mono_nonneg_r; lia).
      lia.
    + rewrite (ONE_split e) by lia.
      set (U := (2 ^ (e + 1200))%Z).
      assert (HU : (0 < U)%Z) by (apply pow2_pos; lia).
      assert (HP : (2 ^ 46 <= 2 ^ (- e))%Z) by (apply Z.pow_le_mono_r; lia).
      change (2 ^ 46)%Z with 70368744177664%Z in HP.
      change (2 ^ 53)%Z with 9007199254740992%Z in Hm.
      assert (Z.pos m * U <= 9007199254740992 * U)%Z
        by (apply Z.mul_le_mono_nonneg_r; lia).
      assert (70368744177664 * U <= 2 ^ (- e) * U)%Z
        by (apply Z.mul_le_mono_nonneg_r; lia).
      lia.
    + discriminate Hle.
Qed.

Lemma ONE_positive : Z.pos (2 ^ 1200) = ONE.
Proof. apply Pos2Z.inj_pow. Qed.

Lemma scaled_error_to_Q (A T : Z) :
  (- (6228 * ONE) <= 2 ^ 48 * (360000 * A - T * ONE) < 2 ^ 48 * ONE + 6228 * ONE)%Z ->
  (Qabs (Qmake A (2 ^ 1200) - Qmake T 360000)
   <= (1 # 360000) + (1 # 10000000000000000))%Q.
Proof.
  intros H. pose proof ONE_pos as H1.
  change (2 ^ 48)%Z with 281474976710656%Z in H.
  apply Qabs_Qle_condition. unfold Qle, Qminus, Qplus, Qopp. cbn [Qnum Qden].
  rewrite !Pos2Z.inj_mul, ONE_positive. split; lia.
Qed.

Lemma SF2Q_scaled (s : bool) (m : positive) (e : Z) :
  (-1200 <= e < 0)%Z ->
  (SF2Q (S754_finite s m e)
   == (if s then - Qmake (scaled (S754_finite s m e)) (2 ^ 1200)
       else Qmake (scaled (S754_finite s m e)) (2 ^ 1200)))%Q.
Proof.
  intros He. destruct e as [|p|p]; try lia. cbn [SF2Q scaled].
  assert (Heq : (Qmake (Z.pos m) (2 ^ p) == Qmake (Z.pos m * 2 ^ (Z.neg p + 1200)) (2 ^ 1200))%Q).
  { unfold Qeq. cbn [Qnum Qden]. rewrite ONE_positive, Pos2Z.inj_pow.
    rewrite (ONE_split (Z.neg p)) by lia. change (- Z.neg p)%Z with (Z.pos p). ring. }
  destruct s; rewrite Heq; reflexivity.
Qed.

Lemma dms_decode_value (ref_positive : bool) (d m n : Z) :
  (dms_decode ref_positive [(d, 1%Z); (m, 1%Z); (n, 100%Z)]
   == (if ref_positive then Qmake (360000 * d + 6000 * m + n) 360000
       else - Qmake (360000 * d + 6000 * m + n) 360000))%Q.
Proof.
  assert (H : (rational (d, 1%Z) + rational (m, 1%Z) / 60 + rational (n, 100%Z) / 3600
               == Qmake (360000 * d + 6000 * m + n) 360000)%Q).
  { unfold rational, Qdiv, Qeq. simpl. lia. }
  unfold dms_decode. destruct ref_positive; rewrite H; reflexivity.
Qed.

Lemma float_nonneg_sign (s : bool) (m : positive) (e : Z) :
  float_nonneg (S754_finite s m e) = negb s.
Proof. destruct s; reflexivity. Qed.

(** C7, amended. For every binary64 coordinate of magnitude at most 180,
    the degree/minute/second encoding succeeds, and decoding it
    ([deg + min / 60 + sec / 3600], signed by the hemisphere) gives the
    original value within [1/360000 + 1/10^16] degree: the truncation to
    hundredths of a second, plus the rounding of the three floating-point
    products. *)
Theorem dms_round_trip (x : float64) :
  valid_binary 53 1024 x = true ->
  SFleb (SFabs x) (Z2SF 180) = true ->
  exists dms,
    _deg_to_dms_rational x = Ok dms /\
    (Qabs (SF2Q x - dms_decode (float_nonneg x) dms)
     <= (1 # 360000) + (1 # 10000000000000000))%Q.
Proof.
  intros Hv Hle. pose proof ONE_pos as H1.
  destruct (tame_abs_of_valid x Hv Hle) as [Ht Hs].
  destruct (deg_to_dms_scaled x Ht Hs) as (d & m & n & Hdms & Hbound).
  exists [(d, 1%Z); (m, 1%Z); (n, 100%Z)]. split; [exact Hdms|].
  rewrite dms_decode_value.
  pose proof (scaled_error_to_Q _ _ Hbound) as HQ.
  destruct x as [s|s| |s mx e]; cbn [SFabs] in *.
  - (* zero *)
    cbn [scaled SF2Q] in *.
    replace (float_nonneg (S754_zero s)) with true by (destruct s; reflexivity).
    assert (H0 : (0 == Qmake 0 (2 ^ 1200))%Q) by reflexivity.
    rewrite H0. exact HQ.
  - destruct Ht as [Ht|(m' & e' & Ht & _)]; discriminate Ht.
  - destruct Ht as [Ht|(m' & e' & Ht & _)]; discriminate Ht.
  - cbn [valid_binary] in Hv. destruct (bounded_facts _ _ Hv) as (He & Hm & Hnorm).
    assert (He0 : (e < 0)%Z).
    { destruct Hnorm as [->|H52]; [lia|].
      destruct (Z_lt_le_dec e 0) as [H|H]; [exact H|exfalso].
      cbn [scaled] in Hs. rewrite (pow2_ONE e) in Hs by lia.
      pose proof (pow2_pos e H) as Hpe.
      change (2 ^ 52)%Z with 4503599627370496%Z in H52.
      assert (Hge : (4503599627370496 * 1 <= Z.pos mx * 2 ^ e)%Z)
        by (apply Z.mul_le_mono_nonneg; lia).
      assert (Hge' : (4503599627370496 * 1 * ONE <= Z.pos mx * 2 ^ e * ONE)%Z)
        by (apply Z.mul_le_mono_nonneg_r; lia).
      rewrite <- (Z.mul_assoc (Z.pos mx)) in Hge'. lia. }
    rewrite (SF2Q_scaled s mx e) by lia. rewrite float_nonneg_sign.
    cbn [scaled] in *. destruct s; cbn [negb].
    + set (a := Qmake (Z.pos mx * 2 ^ (e + 1200)) (2 ^ 1200)) in *.
      set (b := Qmake (360000 * d + 6000 * m + n) 360000) in *.
      assert (Hopp : (- a - - b == - (a - b))%Q) by ring.
      rewrite Hopp, Qabs_opp. exact HQ.
    + exact HQ.
Qed.

Lemma dms_round_trip_witness :
  exists dms,
    _deg_to_dms_rational (Z2SF (-122)) = Ok dms /\
    (Qabs (SF2Q (Z2SF (-122)) - dms_decode (float_nonneg (Z2SF (-122))) dms)
     <= (1 # 360000) + (1 # 10000000000000000))%Q.
Proof.
  apply (dms_round_trip (Z2SF (-122))); vm_compute; reflexivity.
Defined.

(** C7, as stated, fails: the binary64 value nearest to 0.02 (one minute and
    twelve seconds, to fifteen digits) is encoded as 0 degrees, 1 minute and
    11.99 seconds, because the product [seconds * 100] is rounded just below
    1200 before it is truncated; the decoded value is more than [1/360000]
    degree below the original. *)
Lemma dms_round_trip_exceeds_truncation_bound :
  let x := S754_finite false 5764607523034235 (-58) in
  let dms := [(0, 1); (1, 1); (1199, 100)]%Z in
  valid_binary 53 1024 x = true /\
  SFleb (SFabs x) (Z2SF 180) = true /\
  _deg_to_dms_rational x = Ok dms /\
  ~ (Qabs (SF2Q x - dms_decode (float_nonneg x) dms) <= 1 # 360000)%Q.
Proof.
  cbv zeta. split; [reflexivity|]. split; [reflexivity|]. split; [reflexivity|].
  intros H. vm_compute in H. apply H. reflexivity.
Qed.

(** ** What a run does to the files and the counters *)

Lemma length_append (p q : string) :
  String.length (p +:+ q) = String.length p + String.length q.
Proof. induction p as [|c p IH]; simpl; [reflexivity|now rewrite IH]. Qed.

Lemma append_neq_self (p ext : string) : ext <> EmptyString -> p +:+ ext <> p.
Proof.
  intros Hext H. apply (f_equal String.length) in H.
  rewrite length_append in H. destruct ext; [congruence|simpl in H; lia].
Qed.

Lemma append_inj_l (p q ext : string) : p +:+ ext = q +:+ ext -> p = q.
Proof.
  revert q; induction p as [|c p IH]; intros [|d q] H; cbn [String.append] in *.
  - reflexivity.
  - exfalso. apply (f_equal String.length) in H.
    rewrite !length_append in H. simpl in H. lia.
  - exfalso. apply (f_equal String.length) in H.
    rewrite !length_append in H. simpl in H. lia.
  - simpl in H. inversion H; subst. f_equal. now apply IH.
Qed.

(** The backup step always succeeds; it creates the backup from the current
    file when there is none and otherwise changes no file. *)
Lemma backup_file_spec (filepath : string) (s : run_state) :
  exists s1,
    backup_file filepath s = (Ok tt, s1) /\
    processed s1 = processed s /\ skipped s1 = skipped s /\
    match fs s !! (filepath +:+ ".exif_backup"), fs s !! filepath with
    | None, Some f => fs s1 = <[filepath +:+ ".exif_backup" := f]> (fs s)
    | _, _ => fs s1 = fs s
    end.
Proof.
  unfold backup_file.
  destruct (fs s !! (filepath +:+ ".exif_backup")) as [b|] eqn:Eb.
  - exists s. repeat split.
  - destruct (fs s !! filepath) as [f|] eqn:Ef.
    + eexists. repeat split.
    + eexists. split; [reflexivity|]. repeat split.
Qed.

(** Every way [update_photo] can end: without touching a file or a counter
    (every skip, every failure before the write, and the dry run), or, in
    apply mode, after the stamped tag map was computed, with the optional
    backup made and the file written (or the write refused). *)
Lemma update_photo_inv (filepath : string) (tl_point : TimelinePoint) (tz : string)
    (apply backup overwrite_gps : bool) (s s' : run_state) (r : result bool) :
  update_photo filepath tl_point tz apply backup overwrite_gps s = (r, s') ->
  (fs s' = fs s /\ processed s' = processed s /\ skipped s' = skipped s /\
   (r = Ok true -> apply = false))
  \/
  (apply = true /\
   exists exif exif' tz_name naive_dt s1,
     fs s !! filepath = Some (Photo exif) /\
     (negb overwrite_gps && has_gps exif = false) /\
     stamp_fields exif tl_point tz_name (localize_utc env tz naive_dt) = Ok exif' /\
     (if backup then backup_file filepath s = (Ok tt, s1) else s1 = s) /\
     processed s' = processed s /\ skipped s' = skipped s /\
     ((exists w, piexif_rewrite env filepath exif exif' = Ok w /\ r = Ok true /\
         fs s' = <[filepath := Photo w]> (fs s1))
      \/
      (exists exc, piexif_rewrite env filepath exif exif' = Raise exc /\
         r = Raise exc /\ fs s' = fs s1))).
Proof.
  unfold update_photo, bind at 1, piexif_load.
  destruct (fs s !! filepath) as [[exif|content]|] eqn:Hfile;
    [|intros [= <- <-]; left; repeat split; discriminate
     |intros [= <- <-]; left; repeat split; discriminate].
  destruct (negb overwrite_gps && has_gps exif) eqn:Htag.
  { intros [= <- <-]. left. repeat split. discriminate. }
  destruct (ifd_Exif exif !! ExifIFD.DateTimeOriginal) as [orig|].
  2:{ intros [= <- <-]. left. repeat split. discriminate. }
  unfold bind at 1, lift.
  destruct (parse_original orig) as [naive_dt|e].
  2:{ intros [= <- <-]. left. repeat split. discriminate. }
  unfold bind at 1.
  destruct (timezone_at env (lat tl_point) (lon tl_point)) as [[tz_name|]|e].
  3:{ intros [= <- <-]. left. repeat split. discriminate. }
  2:{ intros [= <- <-]. left. repeat split. discriminate. }
  destruct (known_timezone env tz_name).
  2:{ intros [= <- <-]. left. repeat split. discriminate. }
  unfold bind at 1.
  destruct (stamp_fields exif tl_point tz_name (localize_utc env tz naive_dt))
    as [exif'|e] eqn:Hstamp.
  2:{ intros [= <- <-]. left. repeat split. discriminate. }
  destruct apply.
  2:{ intros [= <- <-]. left. repeat split. }
  intros Hrun. right. split; [reflexivity|].
  assert (Hb : exists s1,
             (if backup then backup_file filepath else ret tt) s = (Ok tt, s1) /\
             (if backup then backup_file filepath s = (Ok tt, s1) else s1 = s) /\
             fs s1 !! filepath = Some (Photo exif) /\
             processed s1 = processed s /\ skipped s1 = skipped s).
  { destruct (backup_keeps_photo filepath backup s) as (s1 & H1 & H2 & H3 & H4).
    exists s1. rewrite H2, Hfile. repeat split; auto.
    destruct backup; [exact H1|]. now inversion H1. }
  destruct Hb as (s1 & Hb1 & Hb2 & Hf1 & Hp & Hk).
  unfold bind at 1 in Hrun. rewrite Hb1 in Hrun.
  unfold bind, piexif_insert_dump, ret in Hrun. rewrite Hf1 in Hrun.
  exists exif, exif', tz_name, naive_dt, s1.
  destruct (piexif_rewrite env filepath exif exif') as [w|exc] eqn:Hd;
    inversion Hrun; subst; cbn [fs processed skipped].
  - repeat split; auto. left. exists w. auto.
  - repeat split; auto. right. exists exc. auto.
Qed.

(** Every way one step of the photo loop can end: the photo is counted as
    skipped and nothing else changes, or [update_photo] ran on the nearest
    sample, which lies within the gap, and its result decides the count. *)
Lemma photo_step_inv (args : arguments) (points : list TimelinePoint) (photo : string)
    (s s' : run_state) (r : result unit) :
  photo_step args points photo s = (r, s') ->
  r = Ok tt /\
  ((fs s' = fs s /\ processed s' = processed s /\ skipped s' = skipped s + 1)
   \/
   exists tl_point ru su,
     update_photo photo tl_point (camera_tz args) (apply args) (backup args)
       (overwrite_gps args) s = (ru, su) /\
     fs s' = fs su /\
     match ru with
     | Ok true => processed s' = processed su + 1 /\ skipped s' = skipped su
     | Ok false => processed s' = processed su /\ skipped s' = skipped su
     | Raise _ => processed s' = processed su /\ skipped s' = skipped su + 1
     end).
Proof.
  unfold photo_step, try_except, process_photo, bind at 1, piexif_load.
  destruct (fs s !! photo) as [[exif|content]|] eqn:Hfile;
    [|intros [= <- <-]; split; [reflexivity|left; repeat split]
     |intros [= <- <-]; split; [reflexivity|left; repeat split]].
  destruct (ifd_Exif exif !! ExifIFD.DateTimeOriginal) as [orig|].
  2:{ intros [= <- <-]. split; [reflexivity|left; repeat split]. }
  destruct (truthy orig).
  2:{ intros [= <- <-]. split; [reflexivity|left; repeat split]. }
  unfold bind at 1, lift.
  destruct (parse_original orig) as [naive_dt|e].
  2:{ intros [= <- <-]. split; [reflexivity|left; repeat split]. }
  destruct (find_nearest_timeline_point points _) as [tl_point|].
  2:{ intros [= <- <-]. split; [reflexivity|left; repeat split]. }
  destruct (_ <? _)%Z.
  { intros [= <- <-]. split; [reflexivity|left; repeat split]. }
  unfold bind at 1.
  destruct (update_photo photo tl_point (camera_tz args) (apply args) (backup args)
              (overwrite_gps args) s) as [[[|]|e] su] eqn:Hupd;
    intros [= <- <-]; (split; [reflexivity|]); right;
    exists tl_point; eexists; exists su; (split; [exact Hupd|]); repeat split.
Qed.

(** One step of the loop: it never raises, it adds at most one to the two
    counters together, and it either changes no file or, in apply mode,
    makes the optional backup of the photo and then writes the photo (or
    fails to). *)
Lemma photo_step_frame (args : arguments) (points : list TimelinePoint) (photo : string)
    (s s' : run_state) (r : result unit) :
  photo_step args points photo s = (r, s') ->
  r = Ok tt /\
  (processed s <= processed s' /\ skipped s <= skipped s' /\
   processed s' + skipped s' <= processed s + skipped s + 1) /\
  (fs s' = fs s
   \/
   apply args = true /\
   exists exif exif' s1,
     fs s !! photo = Some (Photo exif) /\
     (if backup args then backup_file photo s = (Ok tt, s1) else s1 = s) /\
     (fs s' = <[photo := Photo exif']> (fs s1) \/ fs s' = fs s1)).
Proof.
  intros Hstep. apply photo_step_inv in Hstep.
  destruct Hstep as [-> [(Hfs & Hp & Hk)|(tl & ru & su & Hupd & Hfs & Hcount)]].
  - split; [reflexivity|]. split; [lia|]. left. exact Hfs.
  - split; [reflexivity|]. apply update_photo_inv in Hupd.
    destruct Hupd as [(Hq & Hp & Hk & Hdry)
                     |(Happly & exif & exif' & tzn & nd & s1 & Hfile & _ & _ & Hb & Hp & Hk & Hw)].
    + split; [destruct ru as [[|]|e]; lia|]. left. congruence.
    + split; [destruct ru as [[|]|e]; lia|]. right. split; [exact Happly|].
      destruct Hw as [(w & _ & _ & Hw)|(exc & _ & _ & Hw)].
      * exists exif, w, s1. split; [exact Hfile|]. split; [exact Hb|]. left. congruence.
      * exists exif, exif', s1. split; [exact Hfile|]. split; [exact Hb|]. right.
        congruence.
Qed.

(** The same in terms of each path [q]: a file other than the photo is left
    as it is, unless it is the missing backup of the photo, which is created
    as a copy of the photo. *)
Lemma photo_step_other_files (args : arguments) (points : list TimelinePoint)
    (photo q : string) (s s' : run_state) (r : result unit) :
  photo_step args points photo s = (r, s') ->
  q <> photo ->
  fs s' !! q = fs s !! q
  \/
  (q = photo +:+ ".exif_backup" /\ apply args = true /\ backup args = true /\
   fs s !! q = None /\ is_Some (fs s !! photo) /\ fs s' !! q = fs s !! photo).
Proof.
  intros Hstep Hq. apply photo_step_frame in Hstep.
  destruct Hstep as (_ & _ & [Hsame|(Happly & exif & exif' & s1 & Hfile & Hb & Hw)]).
  - left. now rewrite Hsame.
  - assert (Hq' : fs s' !! q = fs s1 !! q).
    { destruct Hw as [-> | ->]; [|reflexivity]. now rewrite lookup_insert_ne. }
    rewrite Hq'. destruct (backup args) eqn:Hbk; [|left; now subst s1].
    destruct (backup_file_spec photo s) as (s1' & Hb' & _ & _ & Hfs).
    rewrite Hb in Hb'. inversion Hb'; subst s1'. clear Hb'.
    destruct (fs s !! (photo +:+ ".exif_backup")) as [b|] eqn:Eb;
      [left; now rewrite Hfs|].
    rewrite Hfile in Hfs. rewrite Hfs.
    destruct (String.eqb_spec q (photo +:+ ".exif_backup")) as [->|Hne].
    + right. rewrite lookup_insert_eq, Hfile, Eb. repeat split; eauto.
    + left. now rewrite lookup_insert_ne.
Qed.

(** The loop as a whole: an invariant kept by every step for a photo of the
    list holds at the end, and the loop never raises. *)
Lemma photo_loop_invariant (args : arguments) (points : list TimelinePoint)
    (I : run_state -> Prop) (photo_paths : list string) :
  (forall photo s r s', In photo photo_paths -> I s ->
     photo_step args points photo s = (r, s') -> I s') ->
  forall s r s', I s -> photo_loop args points photo_paths s = (r, s') ->
    r = Ok tt /\ I s'.
Proof.
  unfold photo_loop. induction photo_paths as [|photo l IH]; intros Hstep s r s' HI Hloop.
  - inversion Hloop; subst. auto.
  - cbn [for_each] in Hloop. unfold bind in Hloop.
    destruct (photo_step args points photo s) as [r1 s1] eqn:H1.
    pose proof (Hstep photo s r1 s1 (or_introl eq_refl) HI H1) as HI1.
    apply photo_step_frame in H1. destruct H1 as [-> _].
    apply (IH ltac:(intros; eapply Hstep; eauto; now right) s1 r s' HI1 Hloop).
Qed.

Lemma photo_loop_counts (args : arguments) (points : list TimelinePoint)
    (photo_paths : list string) (s s' : run_state) (r : result unit) :
  photo_loop args points photo_paths s = (r, s') ->
  processed s <= processed s' /\ skipped s <= skipped s' /\
  processed s' + skipped s' <= processed s + skipped s + length photo_paths.
Proof.
  unfold photo_loop. revert s.
  induction photo_paths as [|photo l IH]; intros s Hloop.
  - inversion Hloop; subst. simpl. lia.
  - cbn [for_each] in Hloop. unfold bind in Hloop.
    destruct (photo_step args points photo s) as [r1 s1] eqn:H1.
    apply photo_step_frame in H1. destruct H1 as (-> & Hc & _).
    apply IH in Hloop. simpl. lia.
Qed.

(** [dt.timedelta(minutes=n)] can be built exactly for these [n]. *)
Lemma timedelta_range (n : Z) :
  ((-1439999998560 <= n <= 1439999999999)%Z ->
     timedelta n = Ok (timedelta_minutes n)) /\
  (~ (-1439999998560 <= n <= 1439999999999)%Z -> timedelta n = Raise OverflowError).
Proof.
  unfold timedelta, timedelta_minutes.
  replace (n * 60000000 / 86400000000)%Z with (n / 1440)%Z
    by (change 86400000000%Z with (1440 * 60000000)%Z;
        now rewrite Z.div_mul_cancel_r by lia).
  pose proof (Z.div_mod n 1440 ltac:(lia)) as Hdm.
  pose proof (Z.mod_pos_bound n 1440 ltac:(lia)) as Hmod.
  split; intros H.
  - replace ((-999999999 <=? n / 1440) && (n / 1440 <=? 999999999))%Z with true;
      [reflexivity|].
    symmetry. apply andb_true_iff. split; apply Z.leb_le; lia.
  - replace ((-999999999 <=? n / 1440) && (n / 1440 <=? 999999999))%Z with false;
      [reflexivity|].
    symmetry. apply andb_false_iff.
    destruct (Z_lt_le_dec (n / 1440) (-999999999)) as [Hlo|Hlo].
    + left. apply Z.leb_gt. exact Hlo.
    + right. apply Z.leb_gt. lia.
Qed.

(** [main] ends in one of four ways: before anything is read when the
    camera time zone is unknown, with exit code 1 when there is no sample or
    no photo, with the exception of [dt.timedelta] when the largest gap
    cannot be built, or after the loop over the photos, which never
    raises. *)
Lemma main_inv (args : arguments) (segments : list json) (photo_paths : list string)
    (files : gmap string file) :
  let points := fst (load_timeline_points segments) in
  let s0 := mkRun files 0 0 (snd (load_timeline_points segments)) in
  let run := main args segments photo_paths files in
  (known_timezone env (camera_tz args) = false /\
   run = (Escaped KeyError, mkRun files 0 0 []))
  \/
  (known_timezone env (camera_tz args) = true /\
   (points = [] \/ photo_paths = []) /\
   fst run = Exited 1 /\ fs (snd run) = files /\
   processed (snd run) = 0 /\ skipped (snd run) = 0)
  \/
  (known_timezone env (camera_tz args) = true /\
   points <> [] /\ photo_paths <> [] /\
   exists e, timedelta (max_gap_minutes args) = Raise e /\ run = (Escaped e, s0))
  \/
  (known_timezone env (camera_tz args) = true /\
   points <> [] /\ photo_paths <> [] /\
   timedelta (max_gap_minutes args) = Ok (timedelta_minutes (max_gap_minutes args)) /\
   fst run = Returned /\
   exists s1,
     photo_loop args points photo_paths s0 = (Ok tt, s1) /\
     fs (snd run) = fs s1 /\ processed (snd run) = processed s1 /\
     skipped (snd run) = skipped s1).
Proof.
  cbv zeta. unfold main.
  destruct (known_timezone env (camera_tz args)); [right|left; auto].
  destruct (load_timeline_points segments) as [points recs]. cbn [fst snd].
  destruct points as [|p points]; [left; repeat split; auto|].
  destruct photo_paths as [|photo photo_paths]; [left; repeat split; auto|].
  right.
  destruct (timedelta (max_gap_minutes args)) as [g|e] eqn:Hgap.
  2:{ left. repeat split; try discriminate. exists e. auto. }
  right.
  assert (Hg : g = timedelta_minutes (max_gap_minutes args)).
  { unfold timedelta in Hgap. destruct (_ && _)%bool; congruence. }
  subst g.
  destruct (photo_loop args (p :: points) (photo :: photo_paths) (mkRun files 0 0 recs))
    as [r s1] eqn:Hloop.
  destruct (photo_loop_invariant args (p :: points) (fun _ => True) (photo :: photo_paths)
              ltac:(auto) _ _ _ I Hloop) as [-> _].
  repeat split; try discriminate. exists s1. repeat split.
Qed.

(** A property of the file map that every loop step for a photo of the list
    keeps is kept by [main]. *)
Lemma main_files_invariant (args : arguments) (segments : list json)
    (photo_paths : list string) (files : gmap string file)
    (I : gmap string file -> Prop) :
  (forall points photo s r s', In photo photo_paths -> I (fs s) ->
     photo_step args points photo s = (r, s') -> I (fs s')) ->
  I files -> I (fs (snd (main args segments photo_paths files))).
Proof.
  intros Hstep HI.
  destruct (main_inv args segments photo_paths files)
    as [[_ ->]|[(_ & _ & _ & -> & _)|[(_ & _ & _ & e & _ & ->)
                |(_ & _ & _ & _ & _ & s1 & Hloop & -> & _)]]];
    [exact HI|exact HI|exact HI|].
  eapply (photo_loop_invariant args _ (fun s => I (fs s)) photo_paths); eauto.
  exact HI.
Qed.

(** X1. Without [--apply] no file is created, changed or removed, whatever
    the timeline, the photos and the other options are. *)
Theorem dry_run_changes_no_file (args : arguments) (segments : list json)
    (photo_paths : list string) (files : gmap string file) :
  apply args = false ->
  fs (snd (main args segments photo_paths files)) = files.
Proof.
  intros Hdry.
  apply (main_files_invariant args segments photo_paths files (fun m => m = files));
    [|reflexivity].
  intros points photo s r s' _ Hs Hstep. apply photo_step_frame in Hstep.
  destruct Hstep as (_ & _ & [Hfs|[Happly _]]); congruence.
Qed.

(** X2. With a known camera time zone and a timeline that was read, [main]
    fails only before the loop.  It exits with code 1, touching nothing,
    exactly when the timeline gives no sample or the directory has no
    photo.  Otherwise the largest gap is built: when [--max-gap-minutes]
    is beyond what a [timedelta] holds, the [OverflowError] of its
    construction leaves [main] before any photo is read; when it is
    within, [main] returns, whatever the files hold: no exception leaves
    the loop.  Each photo is counted at most once: the two counters sum to
    at most the number of photos. *)
Theorem main_fails_only_before_the_loop (args : arguments) (segments : list json)
    (photo_paths : list string) (files : gmap string file) :
  known_timezone env (camera_tz args) = true ->
  let run := main args segments photo_paths files in
  let gap_fits := (-1439999998560 <= max_gap_minutes args <= 1439999999999)%Z in
  (fst (load_timeline_points segments) = [] \/ photo_paths = [] ->
   fst run = Exited 1 /\ fs (snd run) = files) /\
  (fst (load_timeline_points segments) <> [] -> photo_paths <> [] ->
   (gap_fits -> fst run = Returned) /\
   (~ gap_fits ->
    fst run = Escaped OverflowError /\ fs (snd run) = files /\
    processed (snd run) = 0 /\ skipped (snd run) = 0)) /\
  processed (snd run) + skipped (snd run) <= length photo_paths.
Proof.
  intros Htz run gap_fits. subst run.
  destruct (timedelta_range (max_gap_minutes args)) as [Hfits Hover].
  fold gap_fits in Hfits, Hover.
  destruct (main_inv args segments photo_paths files)
    as [[Hno _]|[(_ & Hempty & Hexit & Hfs & Hp & Hk)
                |[(_ & Hpoints & Hpaths & e & Hgap & Hrun)
                 |(_ & Hpoints & Hpaths & Hgap & Hret & s1 & Hloop & _ & Hp & Hk)]]];
    [congruence| | |].
  - split; [auto|]. split; [intros H1 H2; destruct Hempty; contradiction|].
    rewrite Hp, Hk. lia.
  - rewrite Hrun. cbn [fst snd fs processed skipped].
    split; [intros [H|H]; contradiction|]. split; [|lia].
    intros _ _. split.
    + intros Hin. rewrite (Hfits Hin) in Hgap. discriminate Hgap.
    + intros Hout. rewrite (Hover Hout) in Hgap. injection Hgap as <-. auto.
  - split; [intros [H|H]; contradiction|]. split.
    + intros _ _. split; [auto|].
      intros Hout. rewrite (Hover Hout) in Hgap. discriminate Hgap.
    + apply photo_loop_counts in Hloop. cbn [processed skipped] in Hloop. lia.
Qed.

(** X3. A run only touches the photos it is given and their backups: a file
    whose path is not among the photo paths keeps its content, and a path
    that is not among them and held no file holds one afterwards only in
    apply mode with [--backup], and only if it is the backup path of one of
    the photos. *)
Theorem main_touches_only_photos_and_backups (args : arguments) (segments : list json)
    (photo_paths : list string) (files : gmap string file) (q : string) :
  ~ In q photo_paths ->
  let final := fs (snd (main args segments photo_paths files)) in
  (forall f, files !! q = Some f -> final !! q = Some f) /\
  (files !! q = None -> is_Some (final !! q) ->
   apply args = true /\ backup args = true /\
   exists p, In p photo_paths /\ q = p +:+ ".exif_backup").
Proof.
  intros Hq final. subst final. split.
  - intros f Hf.
    apply (main_files_invariant args segments photo_paths files (fun m => m !! q = Some f));
      [|exact Hf].
    intros points photo s r s' Hin Hs Hstep.
    assert (Hne : q <> photo) by (intros ->; contradiction).
    destruct (photo_step_other_files _ _ _ q _ _ _ Hstep Hne) as [->|(_ & _ & _ & Hnone & _)];
      congruence.
  - intros Hnone.
    pose (I := fun m : gmap string file =>
      m !! q = None \/
      (apply args = true /\ backup args = true /\
       exists p, In p photo_paths /\ q = p +:+ ".exif_backup")).
    assert (HI : I (fs (snd (main args segments photo_paths files)))).
    { apply main_files_invariant; [|left; exact Hnone].
      intros points photo s r s' Hin Hs Hstep.
      assert (Hne : q <> photo) by (intros ->; contradiction).
      destruct (photo_step_other_files _ _ _ q _ _ _ Hstep Hne)
        as [Hsame|(Hqb & Ha & Hb & _)].
      - destruct Hs as [Hs|Hs]; [left; congruence|right; exact Hs].
      - right. eauto. }
    intros Hsome. destruct HI as [HI|HI]; [|exact HI].
    rewrite HI in Hsome. destruct Hsome; discriminate.
Qed.

(** X4. Without [--backup] a run creates no file at all and changes only
    files among the photo paths. *)
Theorem main_without_backup_creates_no_file (args : arguments) (segments : list json)
    (photo_paths : list string) (files : gmap string file) (q : string) :
  backup args = false ->
  let final := fs (snd (main args segments photo_paths files)) in
  (~ In q photo_paths -> final !! q = files !! q) /\
  (files !! q = None -> final !! q = None).
Proof.
  intros Hb final. subst final.
  assert (Hstep1 : forall points photo s r s',
            photo_step args points photo s = (r, s') ->
            (q <> photo -> fs s' !! q = fs s !! q) /\
            (fs s !! q = None -> fs s' !! q = None)).
  { intros points photo s r s' Hstep.
    assert (Hother : q <> photo -> fs s' !! q = fs s !! q).
    { intros Hne.
      destruct (photo_step_other_files _ _ _ q _ _ _ Hstep Hne) as [H|(_ & _ & H & _)];
        [exact H|congruence]. }
    split; [exact Hother|]. intros Hnone.
    destruct (String.eqb_spec q photo) as [->|Hne]; [|rewrite Hother; auto].
    apply photo_step_frame in Hstep.
    destruct Hstep as (_ & _ & [->|(_ & exif & _ & _ & Hfile & _)]); congruence. }
  split.
  - intros Hq.
    apply (main_files_invariant args segments photo_paths files
             (fun m => m !! q = files !! q)); [|reflexivity].
    intros points photo s r s' Hin Hs Hstep. rewrite <- Hs.
    apply (Hstep1 _ _ _ _ _ Hstep). intros ->. contradiction.
  - intros Hnone.
    apply (main_files_invariant args segments photo_paths files (fun m => m !! q = None));
      [|exact Hnone].
    intros points photo s r s' _ Hs Hstep. now apply (Hstep1 _ _ _ _ _ Hstep).
Qed.

(** X5. A run removes no file, and a photo stays a photo: what the loop writes
    at a photo path is again a loadable photo. *)
Theorem main_removes_no_file (args : arguments) (segments : list json)
    (photo_paths : list string) (files : gmap string file) (q : string) (f : file) :
  files !! q = Some f ->
  exists f', fs (snd (main args segments photo_paths files)) !! q = Some f' /\
    (forall e, f = Photo e -> exists e', f' = Photo e') /\
    (forall b, f = NotAPhoto b -> f' = f).
Proof.
  intros Hf.
  apply (main_files_invariant args segments photo_paths files
           (fun m => exists f', m !! q = Some f' /\
              (forall e, f = Photo e -> exists e', f' = Photo e') /\
              (forall b, f = NotAPhoto b -> f' = f))).
  - intros points photo s r s' _ (f' & Hq & Hphoto & Hnot) Hstep.
    destruct (String.eqb_spec q photo) as [->|Hne].
    + apply photo_step_frame in Hstep.
      destruct Hstep as (_ & _ & [->|(_ & exif & exif' & s1 & Hfile & Hbk & Hw)]);
        [eauto|].
      assert (Hs1 : fs s1 !! photo = Some (Photo exif)).
      { destruct (backup args); [|now subst s1].
        destruct (backup_file_spec photo s) as (s1' & Hb' & _ & _ & Hfs).
        rewrite Hbk in Hb'. inversion Hb'; subst s1'.
        destruct (fs s !! (photo +:+ ".exif_backup")); [now rewrite Hfs|].
        rewrite Hfile in Hfs. rewrite Hfs, lookup_insert_ne; [exact Hfile|].
        apply append_neq_self. discriminate. }
      rewrite Hfile in Hq. inversion Hq; subst f'.
      assert (Hf' : forall b, f <> NotAPhoto b).
      { intros b Hb. specialize (Hnot b Hb). congruence. }
      destruct Hw as [-> | ->].
      * rewrite lookup_insert_eq. eexists; split; [reflexivity|].
        split; [eauto|]. intros b Hb. destruct (Hf' b Hb).
      * rewrite Hs1. eexists; split; [reflexivity|].
        split; [eauto|]. intros b Hb. destruct (Hf' b Hb).
    + destruct (photo_step_other_files _ _ _ q _ _ _ Hstep Hne) as [->|(_ & _ & _ & Hnone & _)];
        [eauto|congruence].
  - exists f. split; [exact Hf|]. split; [eauto|reflexivity].
Qed.

(** X6. With [--backup], a photo that had no backup file is never lost: at
    the end its backup path holds the original file, or the photo itself is
    still the original and no backup was made.  (The backup path must not
    itself be one of the photo paths; copying a file that exists succeeds,
    as [backup_file] has it.) *)
Theorem backup_keeps_original (args : arguments) (segments : list json)
    (photo_paths : list string) (files : gmap string file) (p : string) (f0 : file) :
  backup args = true ->
  files !! p = Some f0 ->
  files !! (p +:+ ".exif_backup") = None ->
  ~ In (p +:+ ".exif_backup") photo_paths ->
  let final := fs (snd (main args segments photo_paths files)) in
  final !! (p +:+ ".exif_backup") = Some f0
  \/
  (final !! p = Some f0 /\ final !! (p +:+ ".exif_backup") = None).
Proof.
  intros Hbackup Hp Hnone Hnotin final. subst final.
  apply (main_files_invariant args segments photo_paths files
           (fun m => m !! (p +:+ ".exif_backup") = Some f0 \/
                     (m !! p = Some f0 /\ m !! (p +:+ ".exif_backup") = None)));
    [|right; auto].
  intros points photo s r s' Hin HJ Hstep.
  assert (Hbne : p +:+ ".exif_backup" <> photo) by (intros <-; contradiction).
  assert (Hself : p +:+ ".exif_backup" <> p) by (apply append_neq_self; discriminate).
  destruct HJ as [HJ|[HJp HJb]].
  - left.
    destruct (photo_step_other_files _ _ _ _ _ _ _ Hstep Hbne) as [->|(_ & _ & _ & H & _)];
      congruence.
  - destruct (String.eqb_spec p photo) as [<-|Hne].
    + apply photo_step_frame in Hstep.
      destruct Hstep as (_ & _ & [->|(_ & exif & exif' & s1 & Hfile & Hbk & Hw)]);
        [right; auto|].
      left. rewrite Hbackup in Hbk.
      destruct (backup_file_spec p s) as (s1' & Hb' & _ & _ & Hfs).
      rewrite Hbk in Hb'. inversion Hb'; subst s1'.
      rewrite HJb, HJp in Hfs.
      destruct Hw as [-> | ->]; rewrite ?lookup_insert_ne by auto;
        rewrite Hfs; apply lookup_insert_eq.
    + right. split.
      * destruct (photo_step_other_files _ _ _ p _ _ _ Hstep Hne)
          as [->|(_ & _ & _ & H & _)]; congruence.
      * destruct (photo_step_other_files _ _ _ _ _ _ _ Hstep Hbne)
          as [->|(Heq & _)]; [exact HJb|].
        apply append_inj_l in Heq. contradiction.
Qed.

(** ** What [update_photo] writes *)

(** [update_photo] answers [True] only after every step before the write
    succeeded. *)
Lemma update_photo_true_inv (filepath : string) (tl_point : TimelinePoint) (tz : string)
    (apply backup overwrite_gps : bool) (s s' : run_state) :
  update_photo filepath tl_point tz apply backup overwrite_gps s = (Ok true, s') ->
  exists exif orig naive_dt tz_name exif',
    fs s !! filepath = Some (Photo exif) /\
    negb overwrite_gps && has_gps exif = false /\
    ifd_Exif exif !! ExifIFD.DateTimeOriginal = Some orig /\
    parse_original orig = Ok naive_dt /\
    timezone_at env (lat tl_point) (lon tl_point) = Ok (Some tz_name) /\
    known_timezone env tz_name = true /\
    stamp_fields exif tl_point tz_name (localize_utc env tz naive_dt) = Ok exif' /\
    (apply = true ->
     exists w, piexif_rewrite env filepath exif exif' = Ok w /\
               fs s' !! filepath = Some (Photo w)).
Proof.
  unfold update_photo, bind at 1, piexif_load.
  destruct (fs s !! filepath) as [[exif|content]|] eqn:Hfile; try discriminate.
  destruct (negb overwrite_gps && has_gps exif) eqn:Htag; [discriminate|].
  destruct (ifd_Exif exif !! ExifIFD.DateTimeOriginal) as [orig|] eqn:Horig;
    [|discriminate].
  unfold bind at 1, lift.
  destruct (parse_original orig) as [naive_dt|e] eqn:Hparse; [|discriminate].
  unfold bind at 1.
  destruct (timezone_at env (lat tl_point) (lon tl_point)) as [[tz_name|]|e] eqn:Htz;
    try discriminate.
  destruct (known_timezone env tz_name) eqn:Hknown; [|discriminate].
  unfold bind at 1.
  destruct (stamp_fields exif tl_point tz_name (localize_utc env tz naive_dt))
    as [exif'|e] eqn:Hstamp; [|discriminate].
  intros Hrun. exists exif, orig, naive_dt, tz_name, exif'.
  repeat (split; [reflexivity || assumption|]).
  intros ->. unfold bind at 1 in Hrun.
  destruct (backup_keeps_photo filepath backup s) as (s1 & Hs1 & Hfs1 & _).
  rewrite Hs1 in Hrun. unfold bind, piexif_insert_dump, ret in Hrun.
  rewrite Hfs1, Hfile in Hrun.
  destruct (piexif_rewrite env filepath exif exif') as [w|exc]; [|discriminate].
  inversion Hrun; subst s'. cbn [fs]. exists w.
  split; [reflexivity|apply lookup_insert_eq].
Qed.

(** The encoding gives exactly three rationals, and only for a finite
    float: [int] raises on NaN and on the infinities. *)
Lemma deg_to_dms_shape (x : float64) (dms : list (Z * Z)) :
  _deg_to_dms_rational x = Ok dms ->
  length dms = 3 /\ is_finite x = true.
Proof.
  unfold _deg_to_dms_rational. intros H.
  destruct (float_to_int (SFabs x)) as [deg|] eqn:Hd; [|discriminate].
  cbn [rbind] in H.
  destruct (float_to_int (SFmul _ _ _ _)) as [minutes|]; [|discriminate].
  cbn [rbind] in H.
  destruct (float_to_int (SFmul _ _ _ _)) as [hundredths|]; [|discriminate].
  cbn [rbind] in H. inversion H; subst dms. split; [reflexivity|].
  destruct x; try reflexivity; discriminate Hd.
Qed.


(** X8. A photo that was stamped is left alone by every later call without
    [--overwrite-gps], whatever the sample, the time zone and the mode: the
    call finds both coordinates, logs the skip and answers [False]. *)
Theorem stamped_photo_is_skipped_next_time
    (filepath : string) (tl_point : TimelinePoint) (tz : string)
    (backup overwrite_gps : bool) (s s' : run_state) :
  update_photo filepath tl_point tz true backup overwrite_gps s = (Ok true, s') ->
  forall (tl_point2 : TimelinePoint) (tz2 : string) (apply2 backup2 : bool),
    update_photo filepath tl_point2 tz2 apply2 backup2 false s' =
    (Ok false,
     mkRun (fs s') (processed s') (skipped s')
       (run_log s' ++ [(DEBUG, "%s already has GPS tags; skipping")])).
Proof.
  intros Hrun tl_point2 tz2 apply2 backup2. apply update_photo_true_inv in Hrun.
  destruct Hrun as (exif & orig & naive_dt & tz_name & exif' & _ & _ & _ & _ & _ & _ &
                    Hstamp & Hw).
  destruct (Hw eq_refl) as (written & Hwritten & Hfile').
  destruct (stamp_fields_spec _ _ _ _ _ Hstamp)
    as (offset_str & lat_dms & lon_dms & _ & Hlat & Hlon & Hc).
  apply (carries_stamp_rewritten _ _ _ _ _ _ _ _
           (piexif_rewrite_keeps_tags env _ _ _ _ Hwritten)) in Hc.
  destruct Hc as (_ & _ & _ & _ & _ & _ & _ & HGlat & _ & HGlon).
  apply deg_to_dms_shape in Hlat, Hlon.
  unfold update_photo. rewrite (bind_piexif_load _ _ _ _ Hfile').
  unfold has_gps. rewrite HGlat, HGlon. cbn [truthy_opt truthy].
  destruct Hlat as [-> _], Hlon as [-> _]. reflexivity.
Qed.

(** X9. [update_photo] answers [True], in a dry run as well, only for a sample
    with finite coordinates: with a NaN or an infinite latitude or longitude
    the encoding raises and no file is written. *)
Theorem update_needs_finite_coordinates
    (filepath : string) (tl_point : TimelinePoint) (tz : string)
    (apply backup overwrite_gps : bool) (s s' : run_state) (r : result bool) :
  is_finite (lat tl_point) && is_finite (lon tl_point) = false ->
  update_photo filepath tl_point tz apply backup overwrite_gps s = (r, s') ->
  r <> Ok true /\ fs s' = fs s.
Proof.
  intros Hnonfinite Hrun. split.
  - intros ->. apply update_photo_true_inv in Hrun.
    destruct Hrun as (exif & orig & naive_dt & tz_name & exif' & _ & _ & _ & _ & _ & _ &
                      Hstamp & _).
    destruct (stamp_fields_spec _ _ _ _ _ Hstamp)
      as (offset_str & lat_dms & lon_dms & _ & Hlat & Hlon & _).
    apply deg_to_dms_shape in Hlat, Hlon.
    destruct Hlat as [_ Hlat], Hlon as [_ Hlon]. rewrite Hlat, Hlon in Hnonfinite.
    discriminate.
  - apply update_photo_inv in Hrun.
    destruct Hrun as [(Hfs & _)|(_ & exif & exif' & tz_name & naive_dt & s1 & _ & _ &
                                 Hstamp & _)]; [exact Hfs|].
    destruct (stamp_fields_spec _ _ _ _ _ Hstamp)
      as (offset_str & lat_dms & lon_dms & _ & Hlat & Hlon & _).
    apply deg_to_dms_shape in Hlat, Hlon.
    destruct Hlat as [_ Hlat], Hlon as [_ Hlon]. rewrite Hlat, Hlon in Hnonfinite.
    discriminate.
Qed.

(** ** What the loop decides for a photo *)

(** X10. A photo with at least one sample of a sorted index within the gap
    (at exactly the largest allowed gap as well) is not skipped for its
    distance: the sample the search returns is within the gap too, and
    [update_photo] is called with it. *)
Theorem photo_within_gap_is_matched
    (args : arguments) (points : list TimelinePoint) (photo : string)
    (exif : exif_dict) (orig : exif_value) (naive_dt : Z) (q : TimelinePoint)
    (s : run_state) :
  non_decreasing points ->
  q ∈ points ->
  fs s !! photo = Some (Photo exif) ->
  ifd_Exif exif !! ExifIFD.DateTimeOriginal = Some orig ->
  truthy orig = true ->
  parse_original orig = Ok naive_dt ->
  let ts := localize_utc env (camera_tz args) naive_dt in
  (gap q ts <= timedelta_minutes (max_gap_minutes args))%Z ->
  exists tl_point,
    find_nearest_timeline_point points ts = Some tl_point /\
    (gap tl_point ts <= gap q ts)%Z /\
    photo_step args points photo s = count_update args photo tl_point s.
Proof.
  intros Hsorted Hq Hfile Horig Htruthy Hparse ts Hgap.
  destruct (find_nearest_timeline_point points ts) as [tl_point|] eqn:Hfind.
  2:{ apply find_nearest_none in Hfind. subst points. inversion Hq. }
  destruct (find_nearest_optimal points ts tl_point Hsorted Hfind) as [_ Hopt].
  specialize (Hopt q Hq). exists tl_point. split; [reflexivity|]. split; [exact Hopt|].
  unfold photo_step, count_update, try_except, process_photo, bind at 1, piexif_load.
  rewrite Hfile, Horig, Htruthy. unfold bind at 1, lift. rewrite Hparse.
  fold ts. rewrite Hfind.
  assert (Hnear : (timedelta_minutes (max_gap_minutes args) <? gap tl_point ts)%Z = false)
    by (apply Z.ltb_ge; lia).
  rewrite Hnear. reflexivity.
Qed.

Lemma photo_step_unusable (args : arguments) (points : list TimelinePoint)
    (photo : string) (s : run_state) :
  (forall exif, fs s !! photo = Some (Photo exif) -> usable_timestamp exif = false) ->
  exists s',
    photo_step args points photo s = (Ok tt, s') /\
    fs s' = fs s /\ processed s' = processed s /\ skipped s' = skipped s + 1.
Proof.
  intros Hunusable.
  unfold photo_step, try_except, process_photo, bind at 1, piexif_load.
  destruct (fs s !! photo) as [[exif|content]|] eqn:Hfile;
    [|eexists; split; [reflexivity|repeat split]
     |eexists; split; [reflexivity|repeat split]].
  specialize (Hunusable exif eq_refl). unfold usable_timestamp in Hunusable.
  destruct (ifd_Exif exif !! ExifIFD.DateTimeOriginal) as [orig|].
  2:{ eexists; split; [reflexivity|repeat split]. }
  destruct (truthy orig).
  2:{ eexists; split; [reflexivity|repeat split]. }
  unfold bind at 1, lift.
  destruct (parse_original orig) as [naive_dt|e]; [discriminate|].
  eexists; split; [reflexivity|repeat split].
Qed.

Lemma photo_loop_unusable (args : arguments) (points : list TimelinePoint)
    (photo_paths : list string) (s : run_state) :
  (forall p exif, In p photo_paths -> fs s !! p = Some (Photo exif) ->
     usable_timestamp exif = false) ->
  exists s',
    photo_loop args points photo_paths s = (Ok tt, s') /\
    fs s' = fs s /\ processed s' = processed s /\
    skipped s' = skipped s + length photo_paths.
Proof.
  unfold photo_loop. revert s.
  induction photo_paths as [|photo l IH]; intros s Hunusable.
  - exists s. cbn. repeat split. lia.
  - destruct (photo_step_unusable args points photo s) as (s1 & Hstep & Hfs & Hp & Hk).
    { intros exif. apply Hunusable. now left. }
    destruct (IH s1) as (s' & Hloop & Hfs' & Hp' & Hk').
    { intros p exif Hin. rewrite Hfs. apply Hunusable. now right. }
    exists s'. cbn [for_each]. unfold bind. rewrite Hstep, Hloop.
    cbn [length]. repeat split; [congruence|lia|lia].
Qed.

(** X11. When no file of the album has a usable original timestamp (the file
    cannot be loaded, the tag is missing or empty, or its value does not
    parse), every photo is counted as skipped, none as processed, and no
    file is changed, in apply mode too.  (The timeline has a sample and
    [--max-gap-minutes] is within what a [timedelta] holds, so that the
    loop is reached.) *)
Theorem unusable_photos_are_all_skipped (args : arguments) (segments : list json)
    (photo_paths : list string) (files : gmap string file) :
  known_timezone env (camera_tz args) = true ->
  fst (load_timeline_points segments) <> [] ->
  (-1439999998560 <= max_gap_minutes args <= 1439999999999)%Z ->
  (forall p exif, In p photo_paths -> files !! p = Some (Photo exif) ->
     usable_timestamp exif = false) ->
  let run := main args segments photo_paths files in
  fs (snd run) = files /\
  processed (snd run) = 0 /\
  skipped (snd run) = length photo_paths.
Proof.
  intros Htz Hpoints Hfits Hunusable run. subst run.
  apply (proj1 (timedelta_range _)) in Hfits.
  destruct (main_inv args segments photo_paths files)
    as [[Hno _]|[(_ & Hempty & _ & Hfs & Hp & Hk)
                |[(_ & _ & _ & e & Hgap & _)
                 |(_ & _ & _ & _ & _ & s1 & Hloop & Hfs & Hp & Hk)]]];
    [congruence| |congruence|].
  - destruct Hempty as [Hempty| ->]; [contradiction|]. repeat split; assumption.
  - destruct (photo_loop_unusable args (fst (load_timeline_points segments)) photo_paths
                (mkRun files 0 0 (snd (load_timeline_points segments))) Hunusable)
      as (s' & Hloop' & Hfs' & Hp' & Hk').
    rewrite Hloop in Hloop'. inversion Hloop'; subst s'.
    rewrite Hfs, Hp, Hk, Hfs', Hp', Hk'. repeat split.
Qed.

(** *** The dry run predicts the real run *)

Lemma bind_lift {S A B : Type} (r : result A) (k : A -> SE S B) (s : S) :
  bind (lift r) k s = match r with Ok a => k a s | Raise e => (Raise e, s) end.
Proof. reflexivity. Qed.

Local Ltac both_skip :=
  let Hd := fresh "Hd" in
  let Ha := fresh "Ha" in
  intros Hd Ha;
  cbv [bind logger count_skipped count_processed modify ret] in Hd, Ha;
  inversion Hd; inversion Ha; subst; cbn [processed skipped]; lia.

(** [update_photo] in the two modes, on states that hold the same photo at
    the path: the answer is the same, provided the write it attempts
    succeeds; neither call changes a counter. *)
Lemma update_photo_dry_predicts
    (photo : string) (tl_point : TimelinePoint) (tz : string) (bk ow : bool)
    (exif : exif_dict) (sd sa : run_state) :
  fs sd !! photo = Some (Photo exif) ->
  fs sa !! photo = Some (Photo exif) ->
  (forall orig naive_dt tz_name exif',
     negb ow && has_gps exif = false ->
     ifd_Exif exif !! ExifIFD.DateTimeOriginal = Some orig ->
     parse_original orig = Ok naive_dt ->
     timezone_at env (lat tl_point) (lon tl_point) = Ok (Some tz_name) ->
     known_timezone env tz_name = true ->
     stamp_fields exif tl_point tz_name (localize_utc env tz naive_dt) = Ok exif' ->
     exists w, piexif_rewrite env photo exif exif' = Ok w) ->
  exists r sd1 sa1,
    update_photo photo tl_point tz false bk ow sd = (r, sd1) /\
    update_photo photo tl_point tz true bk ow sa = (r, sa1) /\
    processed sd1 = processed sd /\ skipped sd1 = skipped sd /\
    processed sa1 = processed sa /\ skipped sa1 = skipped sa.
Proof.
  intros Hd Ha Hwrite. unfold update_photo.
  rewrite (bind_piexif_load _ _ _ _ Hd), (bind_piexif_load _ _ _ _ Ha).
  destruct (negb ow && has_gps exif) eqn:Htag.
  { do 3 eexists. repeat split. }
  destruct (ifd_Exif exif !! ExifIFD.DateTimeOriginal) as [orig|] eqn:Horig.
  2:{ do 3 eexists. repeat split. }
  rewrite !bind_lift.
  destruct (parse_original orig) as [naive_dt|e] eqn:Hparse.
  2:{ do 3 eexists. repeat split. }
  destruct (timezone_at env (lat tl_point) (lon tl_point)) as [[tz_name|]|e] eqn:Htz.
  3:{ do 3 eexists. repeat split. }
  2:{ do 3 eexists. repeat split. }
  rewrite !bind_lift.
  destruct (known_timezone env tz_name) eqn:Hknown.
  2:{ do 3 eexists. repeat split. }
  rewrite !bind_lift.
  destruct (stamp_fields exif tl_point tz_name (localize_utc env tz naive_dt))
    as [exif'|e] eqn:Hstamp.
  2:{ do 3 eexists. repeat split. }
  destruct (Hwrite orig naive_dt tz_name exif' eq_refl eq_refl Hparse eq_refl Hknown Hstamp)
    as [w Hw].
  destruct (backup_keeps_photo photo bk sa) as (s1 & Hb & Hf1 & Hp & Hk).
  unfold bind at 2. rewrite Hb.
  unfold bind, piexif_insert_dump, logger, modify, ret.
  rewrite Hf1, Ha, Hw.
  do 3 eexists. split; [reflexivity|]. split; [reflexivity|].
  cbn [processed skipped]. auto.
Qed.

(** One step in the two modes, started on states that hold the same file
    at the photo's path: the counters move alike, provided the write the
    step attempts succeeds. *)
Lemma photo_step_dry_predicts
    (tz : string) (max_gap : Z) (bk ow vb : bool)
    (points : list TimelinePoint) (photo : string)
    (sd sa sd' sa' : run_state) (rd ra : result unit) :
  fs sa !! photo = fs sd !! photo ->
  (forall exif orig naive_dt tl_point tz_name exif',
     fs sd !! photo = Some (Photo exif) ->
     ifd_Exif exif !! ExifIFD.DateTimeOriginal = Some orig ->
     truthy orig = true ->
     parse_original orig = Ok naive_dt ->
     find_nearest_timeline_point points (localize_utc env tz naive_dt) = Some tl_point ->
     (gap tl_point (localize_utc env tz naive_dt) <= timedelta_minutes max_gap)%Z ->
     negb ow && has_gps exif = false ->
     timezone_at env (lat tl_point) (lon tl_point) = Ok (Some tz_name) ->
     known_timezone env tz_name = true ->
     stamp_fields exif tl_point tz_name (localize_utc env tz naive_dt) = Ok exif' ->
     exists w, piexif_rewrite env photo exif exif' = Ok w) ->
  photo_step (mkArgs tz max_gap false bk ow vb) points photo sd
    = (rd, sd') ->
  photo_step (mkArgs tz max_gap true bk ow vb) points photo sa
    = (ra, sa') ->
  processed sd' + processed sa = processed sa' + processed sd /\
  skipped sd' + skipped sa = skipped sa' + skipped sd.
Proof.
  intros Hfs Hwrite.
  unfold photo_step, try_except, process_photo.
  cbn [camera_tz max_gap_minutes apply backup overwrite_gps].
  destruct (fs sd !! photo) as [[exif|content]|] eqn:Hfile.
  2:{ unfold bind, piexif_load. rewrite Hfs, Hfile.
      both_skip. }
  2:{ unfold bind, piexif_load. rewrite Hfs, Hfile.
      both_skip. }
  rewrite (bind_piexif_load _ _ _ _ Hfile), (bind_piexif_load _ _ _ _ Hfs).
  destruct (ifd_Exif exif !! ExifIFD.DateTimeOriginal) as [orig|] eqn:Horig.
  2:{ both_skip. }
  destruct (truthy orig) eqn:Htruthy.
  2:{ both_skip. }
  rewrite !bind_lift.
  destruct (parse_original orig) as [naive_dt|e] eqn:Hparse.
  2:{ both_skip. }
  destruct (find_nearest_timeline_point points _) as [tl_point|] eqn:Hfind.
  2:{ both_skip. }
  destruct (_ <? _)%Z eqn:Hgap.
  { both_skip. }
  apply Z.ltb_ge in Hgap.
  destruct (update_photo_dry_predicts photo tl_point tz bk ow exif sd sa Hfile Hfs)
    as (r & sd1 & sa1 & Hud & Hua & Hpd & Hkd & Hpa & Hka).
  { intros orig' naive' tz_name exif' Htag Horig' Hparse' Htz Hknown Hstamp.
    assert (orig' = orig) by congruence. subst orig'.
    assert (naive' = naive_dt) by congruence. subst naive'.
    exact (Hwrite exif orig naive_dt tl_point tz_name exif' eq_refl Horig Htruthy Hparse
             Hfind Hgap Htag Htz Hknown Hstamp). }
  intros Hd Ha. unfold bind at 1 in Hd. unfold bind at 1 in Ha.
  rewrite Hud in Hd. rewrite Hua in Ha. revert Hd Ha.
  destruct r as [[|]|e]; both_skip.
Qed.

Lemma photo_loop_dry_predicts
    (tz : string) (max_gap : Z) (bk ow vb : bool)
    (points : list TimelinePoint) (photo_paths : list string) :
  NoDup photo_paths ->
  (bk = true -> forall p, In p photo_paths -> ~ In (p +:+ ".exif_backup") photo_paths) ->
  forall sd sa sd' sa' rd ra,
    (forall p, In p photo_paths -> fs sa !! p = fs sd !! p) ->
    (forall p exif orig naive_dt tl_point tz_name exif',
       In p photo_paths -> fs sd !! p = Some (Photo exif) ->
       ifd_Exif exif !! ExifIFD.DateTimeOriginal = Some orig ->
       truthy orig = true ->
       parse_original orig = Ok naive_dt ->
       find_nearest_timeline_point points (localize_utc env tz naive_dt) = Some tl_point ->
       (gap tl_point (localize_utc env tz naive_dt) <= timedelta_minutes max_gap)%Z ->
       negb ow && has_gps exif = false ->
       timezone_at env (lat tl_point) (lon tl_point) = Ok (Some tz_name) ->
       known_timezone env tz_name = true ->
       stamp_fields exif tl_point tz_name (localize_utc env tz naive_dt) = Ok exif' ->
       exists w, piexif_rewrite env p exif exif' = Ok w) ->
    photo_loop (mkArgs tz max_gap false bk ow vb) points photo_paths sd = (rd, sd') ->
    photo_loop (mkArgs tz max_gap true bk ow vb) points photo_paths sa = (ra, sa') ->
    processed sd' + processed sa = processed sa' + processed sd /\
    skipped sd' + skipped sa = skipped sa' + skipped sd.
Proof.
  unfold photo_loop. induction photo_paths as [|photo l IH];
    intros Hnodup Hbackup sd sa sd' sa' rd ra Hsame Hwrite Hd Ha.
  - inversion Hd; inversion Ha; subst. lia.
  - cbn [for_each] in Hd, Ha. unfold bind in Hd, Ha.
    destruct (photo_step (mkArgs tz max_gap false bk ow vb) points photo sd)
      as [rd1 sd1] eqn:Hd1.
    destruct (photo_step (mkArgs tz max_gap true bk ow vb) points photo sa)
      as [ra1 sa1] eqn:Ha1.
    destruct (photo_step_dry_predicts tz max_gap bk ow vb points photo
                sd sa sd1 sa1 rd1 ra1) as [Hp1 Hk1]; auto.
    { apply Hsame. now left. }
    { intros exif orig naive_dt tl_point tz_name exif'. apply Hwrite. now left. }
    assert (Hfsd : fs sd1 = fs sd).
    { pose proof (photo_step_frame _ _ _ _ _ _ Hd1) as (_ & _ & [H|[H _]]);
        [exact H|discriminate H]. }
    assert (Hfsa : forall p, In p l -> fs sa1 !! p = fs sa !! p).
    { intros p Hp.
      assert (Hne : p <> photo).
      { intros ->. inversion Hnodup; subst.
        match goal with H : photo ∉ l |- _ => apply H end.
        now apply list_elem_of_In. }
      destruct (photo_step_other_files _ _ _ p _ _ _ Ha1 Hne)
        as [H|(Heq & _ & Hbk & _)]; [exact H|].
      cbn [backup] in Hbk. exfalso.
      apply (Hbackup Hbk photo (or_introl eq_refl)). rewrite <- Heq. now right. }
    pose proof (photo_step_frame _ _ _ _ _ _ Hd1) as [-> _].
    pose proof (photo_step_frame _ _ _ _ _ _ Ha1) as [-> _].
    destruct (IH ltac:(now inversion Hnodup)
                 ltac:(intros Hbk p Hp Hin; apply (Hbackup Hbk p (or_intror Hp)); now right)
                 sd1 sa1 sd' sa' rd ra) as [Hp2 Hk2]; auto.
    + intros p Hp. rewrite Hfsa by exact Hp. rewrite Hfsd. apply Hsame. now right.
    + intros p exif orig naive_dt tl_point tz_name exif' Hp. rewrite Hfsd.
      apply Hwrite. now right.
    + lia.
Qed.

(** X12. The dry run predicts the real run: with the same options, timeline
    and files, the run with [--apply] ends the same way and reports the
    same numbers of processed and skipped photos as the run without it,
    provided every write the real run attempts succeeds: for each photo
    whose timestamp is matched to a sample within the gap, that is not
    already tagged (or [--overwrite-gps] is set) and whose stamp can be
    computed, the codec accepts the stamped tag map and can rewrite the
    file.  The photo paths are distinct (they are the sorted matches of one
    directory walk) and, with [--backup], no photo path is the backup path
    of another. *)
Theorem dry_run_predicts_apply
    (tz : string) (max_gap : Z) (bk ow vb : bool)
    (segments : list json) (photo_paths : list string) (files : gmap string file) :
  NoDup photo_paths ->
  (bk = true -> forall p, In p photo_paths -> ~ In (p +:+ ".exif_backup") photo_paths) ->
  (forall p exif orig naive_dt tl_point tz_name exif',
     In p photo_paths -> files !! p = Some (Photo exif) ->
     ifd_Exif exif !! ExifIFD.DateTimeOriginal = Some orig ->
     truthy orig = true ->
     parse_original orig = Ok naive_dt ->
     find_nearest_timeline_point (fst (load_timeline_points segments))
       (localize_utc env tz naive_dt) = Some tl_point ->
     (gap tl_point (localize_utc env tz naive_dt) <= timedelta_minutes max_gap)%Z ->
     negb ow && has_gps exif = false ->
     timezone_at env (lat tl_point) (lon tl_point) = Ok (Some tz_name) ->
     known_timezone env tz_name = true ->
     stamp_fields exif tl_point tz_name (localize_utc env tz naive_dt) = Ok exif' ->
     exists w, piexif_rewrite env p exif exif' = Ok w) ->
  let dry := main (mkArgs tz max_gap false bk ow vb) segments photo_paths files in
  let real := main (mkArgs tz max_gap true bk ow vb) segments photo_paths files in
  fst dry = fst real /\
  processed (snd dry) = processed (snd real) /\
  skipped (snd dry) = skipped (snd real).
Proof.
  intros Hnodup Hbackup Hwrite. cbv zeta. unfold main.
  cbn [camera_tz apply max_gap_minutes].
  destruct (known_timezone env tz); [|repeat split].
  destruct (load_timeline_points segments) as [points recs]. cbn [fst] in Hwrite.
  destruct points as [|p0 points]; [repeat split|].
  destruct photo_paths as [|photo l]; [repeat split|].
  destruct (timedelta max_gap); [|repeat split].
  destruct (photo_loop (mkArgs tz max_gap false bk ow vb) (p0 :: points) (photo :: l)
              (mkRun files 0 0 recs)) as [rd sd] eqn:Hd.
  destruct (photo_loop (mkArgs tz max_gap true bk ow vb) (p0 :: points) (photo :: l)
              (mkRun files 0 0 recs)) as [ra sa] eqn:Ha.
  destruct (photo_loop_dry_predicts tz max_gap bk ow vb (p0 :: points) (photo :: l)
              Hnodup Hbackup (mkRun files 0 0 recs) (mkRun files 0 0 recs) sd sa rd ra)
    as [Hp Hk]; [reflexivity|exact Hwrite|exact Hd|exact Ha|].
  destruct (photo_loop_invariant _ _ (fun _ => True) _ ltac:(auto) _ _ _ I Hd) as [-> _].
  destruct (photo_loop_invariant _ _ (fun _ => True) _ ltac:(auto) _ _ _ I Ha) as [-> _].
  cbn [fst snd logger modify processed skipped] in *. repeat split; lia.
Qed.

(** ** More on the nearest-sample search *)

(** X13. Among samples with the same instant, the search for that instant
    returns the first one of the index. *)
Theorem find_nearest_first_exact_match (points : list TimelinePoint) (ts : Z)
    (i : nat) (a : TimelinePoint) :
  non_decreasing points ->
  points !! i = Some a ->
  time_utc a = ts ->
  (forall j q, j < i -> points !! j = Some q -> (time_utc q < ts)%Z) ->
  find_nearest_timeline_point points ts = Some a.
Proof.
  intros Hs Ha Hts Hfirst.
  destruct (bisect_left_spec points ts Hs) as (Hle & Hbelow & Habove).
  unfold find_nearest_timeline_point.
  set (idx := bisect_left (map time_utc points) ts) in *.
  assert (Hidx : idx = i).
  { destruct (lt_eq_lt_dec idx i) as [[Hlt|Heq]|Hgt]; [exfalso|exact Heq|exfalso].
    - destruct (lookup_lt_is_Some_2 points idx) as [q Hq].
      { apply lookup_lt_Some in Ha. lia. }
      specialize (Habove idx q ltac:(lia) Hq). specialize (Hfirst idx q Hlt Hq). lia.
    - specialize (Hbelow i a Hgt Ha). lia. }
  rewrite Hidx. unfold candidates_at.
  pose proof (lookup_lt_Some _ _ _ Ha) as Hlt. apply Nat.ltb_lt in Hlt.
  rewrite Hlt, Ha.
  match goal with
  | |- py_min ?k (option_list (Some a) ++ ?l) = _ =>
      change (Some (min_from k a l) = Some a)
  end.
  f_equal. apply min_from_keeps_first. intros c _. unfold gap. lia.
Qed.

(** X14. For an instant between two neighbours of the index, the earlier one is
    returned exactly when it is strictly nearer; otherwise the later one. *)
Theorem find_nearest_between_neighbours (points : list TimelinePoint) (ts : Z)
    (i : nat) (a b : TimelinePoint) :
  non_decreasing points ->
  points !! i = Some a -> points !! (i + 1) = Some b ->
  (time_utc a < ts <= time_utc b)%Z ->
  find_nearest_timeline_point points ts =
  Some (if (ts - time_utc a <? time_utc b - ts)%Z then a else b).
Proof.
  intros Hs Ha Hb Hbetween.
  destruct (bisect_left_spec points ts Hs) as (Hle & Hbelow & Habove).
  set (idx := bisect_left (map time_utc points) ts) in *.
  assert (Hidx : idx = i + 1).
  { destruct (lt_eq_lt_dec idx (i + 1)) as [[Hlt|Heq]|Hgt]; [exfalso|exact Heq|exfalso].
    - specialize (Habove i a ltac:(lia) Ha). lia.
    - specialize (Hbelow (i + 1) b Hgt Hb). lia. }
  pose proof (find_nearest_between points ts a b) as Hnear.
  cbv zeta in Hnear. fold idx in Hnear. rewrite Hidx in Hnear.
  replace (i + 1 - 1) with i in Hnear by lia.
  rewrite (Hnear ltac:(lia) Ha Hb). unfold gap.
  replace (Z.abs (time_utc a - ts)) with (ts - time_utc a)%Z by lia.
  replace (Z.abs (time_utc b - ts)) with (time_utc b - ts)%Z by lia.
  reflexivity.
Qed.

(** ** More on the timeline build *)

Lemma add_point_from_path_entry_unfold (entry : json) (st : build_state) :
  _add_point_from_path_entry entry st =
  match path_entry_point entry with
  | Ok p => (Ok tt, mkBuild (tf_points st ++ [p]) (build_log st))
  | Raise e => (Raise e, st)
  end.
Proof. unfold _add_point_from_path_entry. rewrite bind_lift. reflexivity. Qed.

Lemma add_entries_prefix (entries : list json) :
  exists r,
    (forall st, for_each _add_point_from_path_entry entries st =
       (r, mkBuild (tf_points st ++ fst (parsed_prefix entries)) (build_log st))) /\
    (if snd (parsed_prefix entries) then exists e, r = Raise e else r = Ok tt).
Proof.
  induction entries as [|entry rest IH].
  - exists (Ok tt). split; [|reflexivity]. intros st. cbn.
    rewrite app_nil_r. now destruct st.
  - cbn [parsed_prefix]. destruct IH as (r & Hrun & Hr).
    destruct (path_entry_point entry) as [p|e] eqn:Hp.
    + exists r. destruct (parsed_prefix rest) as [pts failed]. cbn [fst snd] in *.
      split; [|exact Hr]. intros st. cbn [for_each]. unfold bind at 1.
      rewrite add_point_from_path_entry_unfold, Hp, Hrun. cbn [tf_points build_log].
      now rewrite <- app_assoc.
    + exists (Raise e). cbn [fst snd]. split; [|eauto]. intros st.
      cbn [for_each]. unfold bind at 1.
      rewrite add_point_from_path_entry_unfold, Hp, app_nil_r. now destruct st.
Qed.

(** A segment only appends to the samples and to the log: what it adds does
    not depend on what is there. *)
Lemma parse_segment_frame (seg : json) (st : build_state) :
  parse_segment seg st =
  (fst (parse_segment seg (mkBuild [] [])),
   mkBuild (tf_points st ++ tf_points (snd (parse_segment seg (mkBuild [] []))))
           (build_log st ++ build_log (snd (parse_segment seg (mkBuild [] []))))).
Proof.
  assert (Hsame : forall r : result unit, (r, st) =
            (r, mkBuild (tf_points st ++ []) (build_log st ++ []))).
  { intros r. rewrite !app_nil_r. now destruct st. }
  unfold parse_segment. rewrite !bind_lift.
  destruct (py_contains "timelinePath" seg) as [[|]|e]; [| |apply Hsame].
  - rewrite !bind_lift. destruct (py_get seg "timelinePath" (JArr [])) as [path|e];
      [|apply Hsame].
    rewrite !bind_lift. destruct (py_iter path) as [entries|e]; [|apply Hsame].
    destruct (add_entries_prefix entries) as (r & Hrun & _).
    rewrite !Hrun. cbn [fst snd tf_points build_log]. now rewrite app_nil_r.
  - rewrite !bind_lift. destruct (py_contains "visit" seg) as [[|]|e];
      [|apply Hsame|apply Hsame].
    unfold _add_point_from_visit.
    destruct (visit_location seg) as [[lat_v lon_v]|[]]; try apply Hsame.
    rewrite !bind_lift. destruct (py_getitem seg "startTime") as [start_s|e];
      [|apply Hsame].
    rewrite !bind_lift. destruct (isoparse_item start_s) as [start|e]; [|apply Hsame].
    rewrite !bind_lift. destruct (py_getitem seg "endTime") as [end_s|e]; [|apply Hsame].
    rewrite !bind_lift. destruct (isoparse_item end_s) as [end_|e]; [|apply Hsame].
    unfold append_point, modify. cbn [fst snd tf_points build_log].
    now rewrite app_nil_r.
Qed.

Lemma parse_segment_guarded (seg : json) (st : build_state) :
  try_except (parse_segment seg)
    (fun _ => build_logger (WARNING, "Failed to parse segment entry: %s")) st =
  (Ok tt,
   mkBuild (tf_points st ++ tf_points (segment_outcome seg))
           (build_log st ++ build_log (segment_outcome seg))).
Proof.
  unfold segment_outcome, try_except. rewrite (parse_segment_frame seg st).
  destruct (parse_segment seg (mkBuild [] [])) as [[[]|e] d]; cbn [fst snd].
  - reflexivity.
  - unfold build_logger, modify. cbn [fst snd tf_points build_log].
    now rewrite app_assoc.
Qed.

Lemma parse_segments_concat (segments : list json) (st : build_state) :
  snd (parse_segments segments st) =
  mkBuild
    (tf_points st ++ concat (map (fun seg => tf_points (segment_outcome seg)) segments))
    (build_log st ++ concat (map (fun seg => build_log (segment_outcome seg)) segments)).
Proof.
  unfold parse_segments. revert st.
  induction segments as [|seg segments IH]; intros st.
  - cbn. rewrite !app_nil_r. now destruct st.
  - cbn [for_each map concat]. unfold bind at 1. rewrite parse_segment_guarded.
    rewrite IH. cbn [tf_points build_log]. now rewrite <- !app_assoc.
Qed.

(** X15. The segments contribute independently of each other: the index is the
    sorted concatenation of what each segment yields when parsed on its
    own, and the log is the concatenation of their warnings followed by the
    count message.  A failure in one segment costs no sample of another. *)
Theorem segments_contribute_independently (segments : list json) :
  fst (load_timeline_points segments) =
    sort_by_time (concat (map (fun seg => tf_points (segment_outcome seg)) segments)) /\
  snd (load_timeline_points segments) =
    concat (map (fun seg => build_log (segment_outcome seg)) segments)
    ++ [(INFO, "Loaded %s timeline points")].
Proof.
  unfold load_timeline_points. rewrite parse_segments_concat.
  cbn [fst snd tf_points build_log app]. split; reflexivity.
Qed.

Lemma parsed_prefix_all (entries : list json) (pts : list TimelinePoint) :
  Forall2 (fun entry p => path_entry_point entry = Ok p) entries pts ->
  parsed_prefix entries = (pts, false).
Proof.
  induction 1 as [|entry p entries pts Hp _ IH]; [reflexivity|].
  cbn [parsed_prefix]. now rewrite Hp, IH.
Qed.

(** X16. A path segment yields the samples of its entries, in order, up to the
    first entry that fails to parse for whatever reason (a missing key, a
    malformed coordinate or time): one warning is logged in that case, none
    otherwise.  In particular a path whose entries all parse yields one
    sample per entry. *)
Theorem path_segment_emits_parsed_prefix
    (fields : gmap string json) (entries : list json) :
  fields !! "timelinePath" = Some (JArr entries) ->
  segment_outcome (JObj fields) =
    mkBuild (fst (parsed_prefix entries))
      (if snd (parsed_prefix entries)
       then [(WARNING, "Failed to parse segment entry: %s")] else []) /\
  (forall pts, Forall2 (fun entry p => path_entry_point entry = Ok p) entries pts ->
     segment_outcome (JObj fields) = mkBuild pts []).
Proof.
  intros Hpath.
  assert (Hout : segment_outcome (JObj fields) =
    mkBuild (fst (parsed_prefix entries))
      (if snd (parsed_prefix entries)
       then [(WARNING, "Failed to parse segment entry: %s")] else [])).
  { unfold segment_outcome, try_except, parse_segment. rewrite !bind_lift.
    cbn [py_contains]. rewrite Hpath. rewrite bool_decide_eq_true_2 by eauto.
    rewrite !bind_lift. cbn [py_get]. rewrite Hpath. rewrite !bind_lift.
    cbn [py_iter].
    destruct (add_entries_prefix entries) as (r & Hrun & Hr). rewrite Hrun.
    cbn [tf_points build_log app].
    destruct (snd (parsed_prefix entries)).
    - destruct Hr as [e ->]. reflexivity.
    - subst r. reflexivity. }
  split; [exact Hout|].
  intros pts Hall. rewrite Hout, (parsed_prefix_all _ _ Hall). reflexivity.
Qed.

(** X17. A segment with a [timelinePath] is read through that key only: its
    [visit], [startTime] and [endTime], if it has any, play no part. *)
Theorem path_takes_precedence_over_visit
    (fields fields' : gmap string json) (st : build_state) :
  is_Some (fields !! "timelinePath") ->
  fields' !! "timelinePath" = fields !! "timelinePath" ->
  parse_segment (JObj fields') st = parse_segment (JObj fields) st.
Proof.
  intros [path Hpath] Hsame. rewrite Hpath in Hsame.
  unfold parse_segment. rewrite !bind_lift. cbn [py_contains py_get].
  rewrite Hpath, Hsame. rewrite bool_decide_eq_true_2 by eauto. reflexivity.
Qed.

(** X18. A visit that cannot be used yields no sample.  When its location cannot
    be read (a key is missing, a level is not an object, or the coordinate
    string is malformed) it is dropped without a word, unlike a malformed
    path entry; when the location is not a string at all, or the location is
    fine and a time is missing or does not parse, a warning is logged. *)
Theorem unusable_visit_emits_nothing (seg : json) :
  py_contains "timelinePath" seg = Ok false ->
  py_contains "visit" seg = Ok true ->
  (forall e, visit_location seg = Raise e ->
     segment_outcome seg =
     mkBuild []
       (match e with
        | KeyError | TypeError | ValueError => []
        | _ => [(WARNING, "Failed to parse segment entry: %s")]
        end)) /\
  (forall ll e,
     visit_location seg = Ok ll ->
     (start_s <~ py_getitem seg "startTime" ;; start <~ isoparse_item start_s ;;
      end_s <~ py_getitem seg "endTime" ;; isoparse_item end_s)%se = Raise e ->
     segment_outcome seg = mkBuild [] [(WARNING, "Failed to parse segment entry: %s")]).
Proof.
  intros Hpath Hvisit.
  unfold segment_outcome, try_except, parse_segment. rewrite !bind_lift, Hpath.
  rewrite !bind_lift, Hvisit. unfold _add_point_from_visit. split.
  - intros e ->. destruct e; reflexivity.
  - intros [lat_v lon_v] e -> Htimes. rewrite !bind_lift.
    destruct (py_getitem seg "startTime") as [start_s|e1]; [|reflexivity].
    cbn [rbind] in Htimes. rewrite !bind_lift.
    destruct (isoparse_item start_s) as [start|e1]; [|reflexivity].
    cbn [rbind] in Htimes. rewrite !bind_lift.
    destruct (py_getitem seg "endTime") as [end_s|e1]; [|reflexivity].
    cbn [rbind] in Htimes. rewrite !bind_lift. rewrite Htimes. reflexivity.
Qed.

Lemma insert_by_key_filter (t : Z) (p : TimelinePoint) (l : list TimelinePoint) :
  List.filter (fun q => (time_utc q =? t)%Z) (insert_by_key p l) =
  List.filter (fun q => (time_utc q =? t)%Z) (p :: l).
Proof.
  induction l as [|q l IH]; [reflexivity|].
  cbn [insert_by_key]. destruct (time_utc p <=? time_utc q)%Z eqn:Hle; [reflexivity|].
  apply Z.leb_gt in Hle. cbn [List.filter] in *. rewrite IH.
  destruct (time_utc q =? t)%Z eqn:Hq, (time_utc p =? t)%Z eqn:Hp; try reflexivity.
  apply Z.eqb_eq in Hq, Hp. lia.
Qed.

(** X19. The sort is stable: the samples of one instant stand in the index in
    the order in which the segments yielded them. *)
Theorem load_timeline_points_stable (segments : list json) (t : Z) :
  List.filter (fun q => (time_utc q =? t)%Z) (fst (load_timeline_points segments)) =
  List.filter (fun q => (time_utc q =? t)%Z)
    (concat (map (fun seg => tf_points (segment_outcome seg)) segments)).
Proof.
  unfold load_timeline_points. rewrite parse_segments_concat.
  cbn [fst snd tf_points build_log app].
  induction (concat _) as [|p l IH]; [reflexivity|].
  cbn [sort_by_time]. rewrite insert_by_key_filter. cbn [List.filter]. now rewrite IH.
Qed.

(** ** The fields of the GPS encoding *)

(** A non-negative float below [c] is below it by at least one unit of
    [2 ^ -k], when [c] is at least [2 ^ (52 - k)]: floats that small are
    multiples of the unit, or are below half of [c]. *)
Lemma tame_below (y : float64) (c k : Z) :
  tame y -> (0 <= k <= 53)%Z -> (2 ^ 52 < c * 2 ^ k)%Z ->
  (scaled y < c * ONE)%Z ->
  (2 ^ k * scaled y <= (c * 2 ^ k - 1) * ONE)%Z.
Proof.
  intros Ht Hk Hc Hlt. pose proof ONE_pos as H1.
  assert (HP : (0 < 2 ^ k)%Z) by (apply pow2_pos; lia).
  set (P := (2 ^ k)%Z) in *.
  change (2 ^ 52)%Z with 4503599627370496%Z in Hc.
  destruct Ht as [->|(m & e & -> & Hb)].
  - cbn [scaled]. rewrite Z.mul_0_r. apply Z.mul_nonneg_nonneg; lia.
  - cbn [scaled] in *. destruct (bounded_facts _ _ Hb) as (He & Hm & _).
    change (2 ^ 53)%Z with 9007199254740992%Z in Hm.
    destruct (Z_le_gt_dec 0 e) as [He0|He0].
    + rewrite (pow2_ONE e He0) in *.
      pose proof (pow2_pos e He0) as HQ. set (Q := (2 ^ e)%Z) in *.
      rewrite Z.mul_assoc in Hlt. apply Z.mul_lt_mono_pos_r in Hlt; [|exact H1].
      rewrite !Z.mul_assoc. apply Z.mul_le_mono_nonneg_r; [lia|].
      assert (P * (Z.pos m * Q) <= P * (c - 1))%Z
        by (apply Z.mul_le_mono_nonneg_l; lia).
      lia.
    + destruct (Z_le_gt_dec (- k) e) as [Hek|Hek].
      * rewrite (ONE_split e) in * by lia.
        assert (HU : (0 < 2 ^ (e + 1200))%Z) by (apply pow2_pos; lia).
        set (U := (2 ^ (e + 1200))%Z) in *.
        assert (HR : (0 < 2 ^ (- e))%Z) by (apply pow2_pos; lia).
        assert (HPs : P = (2 ^ (k + e) * 2 ^ (- e))%Z).
        { unfold P. rewrite <- Z.pow_add_r by lia. f_equal. lia. }
        assert (HT : (0 < 2 ^ (k + e))%Z) by (apply pow2_pos; lia).
        set (R := (2 ^ (- e))%Z) in *. set (T := (2 ^ (k + e))%Z) in *.
        rewrite Z.mul_assoc in Hlt. apply Z.mul_lt_mono_pos_r in Hlt; [|exact HU].
        rewrite !Z.mul_assoc. apply Z.mul_le_mono_nonneg_r; [lia|].
        rewrite HPs.
        assert (T * R * Z.pos m <= T * R * (c * R - 1))%Z
          by (apply Z.mul_le_mono_nonneg_l; [apply Z.mul_nonneg_nonneg|]; lia).
        assert (T * R <= T * R * T)%Z.
        { rewrite <- (Z.mul_1_r (T * R)) at 1.
          apply Z.mul_le_mono_nonneg_l; [apply Z.mul_nonneg_nonneg|]; lia. }
        replace ((c * (T * R) - 1) * R)%Z with (T * R * (c * R) - R)%Z by ring.
        replace (T * R * (c * R - 1))%Z with (T * R * (c * R) - T * R)%Z in H by ring.
        assert (R <= T * R)%Z.
        { rewrite <- (Z.mul_1_l R) at 1. apply Z.mul_le_mono_nonneg_r; lia. }
        lia.
      * assert (HV : (P * 2 ^ (e + 1200) = 2 ^ (k + e + 1200))%Z).
        { unfold P. rewrite <- Z.pow_add_r by lia. f_equal. lia. }
        rewrite (Z.mul_comm (Z.pos m)), Z.mul_assoc, HV.
        rewrite (ONE_split (k + e)) by lia.
        assert (HVp : (0 < 2 ^ (k + e + 1200))%Z) by (apply pow2_pos; lia).
        replace (e + k + 1200)%Z with (k + e + 1200)%Z by lia.
        set (V := (2 ^ (k + e + 1200))%Z) in *.
        assert (HW : (2 ^ 1 <= 2 ^ (- (k + e)))%Z) by (apply Z.pow_le_mono_r; lia).
        change (2 ^ 1)%Z with 2%Z in HW.
        set (W := (2 ^ (- (k + e)))%Z) in *.
        rewrite Z.mul_assoc. rewrite (Z.mul_comm V).
        apply Z.mul_le_mono_nonneg_r; [lia|].
        assert ((c * P - 1) * 2 <= (c * P - 1) * W)%Z
          by (apply Z.mul_le_mono_nonneg_l; lia).
        lia.
Qed.

Lemma scaled_lt_int (i c : Z) (y : Z) :
  (i * ONE <= y)%Z -> (y < c * ONE)%Z -> (i < c)%Z.
Proof.
  intros H1 H2. pose proof ONE_pos as HO.
  apply (Z.mul_lt_mono_pos_r ONE); lia.
Qed.

Lemma deg_to_dms_fields (x : float64) :
  tame (SFabs x) -> (scaled (SFabs x) <= 180 * ONE)%Z ->
  exists d m n : Z,
    float_to_int (SFabs x) = Ok d /\
    _deg_to_dms_rational x = Ok [(d, 1%Z); (m, 1%Z); (n, 100%Z)] /\
    (0 <= d <= 180)%Z /\ (0 <= m <= 59)%Z /\ (0 <= n <= 5999)%Z.
Proof.
  intros Ha Hle. unfold _deg_to_dms_rational. pose proof ONE_pos as H1.
  set (a := SFabs x) in *.
  destruct (split_integer_part a Ha ltac:(lia)) as (d & Hd & Hdr & Hdf & Htf & Hsf).
  rewrite Hd. cbn [rbind].
  set (f := SFsub prec emax a (Z2SF d)) in *.
  destruct (SFmul_by_constant f 60 _ (-47) 6 Z2SF_60) as [Htm Hem];
    try reflexivity; try assumption; try lia.
  set (mfl := SFmul prec emax f (Z2SF 60)) in *.
  change (2 ^ (54 - 6))%Z with 281474976710656%Z in Hem.
  pose proof (tame_below f 1 53 Htf ltac:(lia) ltac:(reflexivity) ltac:(lia)) as Hfb.
  change (2 ^ 53)%Z with 9007199254740992%Z in Hfb.
  assert (Hmfl : (scaled mfl < 60 * ONE)%Z) by lia.
  destruct (split_integer_part mfl Htm ltac:(lia)) as (m & Hm & Hmr & Hmf & Htg & Hsg).
  rewrite Hm. cbn [rbind].
  set (g := SFsub prec emax mfl (Z2SF m)) in *.
  destruct (SFmul_by_constant g 60 _ (-47) 6 Z2SF_60) as [Hts Hes];
    try reflexivity; try assumption; try lia.
  set (sec := SFmul prec emax g (Z2SF 60)) in *.
  change (2 ^ (54 - 6))%Z with 281474976710656%Z in Hes.
  pose proof (tame_below g 1 53 Htg ltac:(lia) ltac:(reflexivity) ltac:(lia)) as Hgb.
  change (2 ^ 53)%Z with 9007199254740992%Z in Hgb.
  assert (Hsec : (scaled sec < 60 * ONE)%Z) by lia.
  pose proof (tame_below sec 60 47 Hts ltac:(lia) ltac:(reflexivity) Hsec) as Hsb.
  change (2 ^ 47)%Z with 140737488355328%Z in Hsb.
  destruct (SFmul_by_constant sec 100 _ (-46) 13 Z2SF_100) as [Tth Hth];
    try reflexivity; try assumption; try lia.
  set (hun := SFmul prec emax sec (Z2SF 100)) in *.
  change (2 ^ (54 - 13))%Z with 2199023255552%Z in Hth.
  assert (Hhun : (scaled hun < 6000 * ONE)%Z) by lia.
  destruct (split_integer_part hun Tth ltac:(lia)) as (n & Hn & Hnr & Hnf & _ & _).
  rewrite Hn. cbn [rbind].
  exists d, m, n. split; [reflexivity|]. split; [reflexivity|].
  assert (d < 181)%Z by (apply (scaled_lt_int d 181 (scaled a)); lia).
  assert (m < 60)%Z by (apply (scaled_lt_int m 60 (scaled mfl)); lia).
  assert (n < 6000)%Z by (apply (scaled_lt_int n 6000 (scaled hun)); lia).
  lia.
Qed.

(** X20. For every binary64 coordinate of magnitude at most 180 the encoding is
    a well-formed degree/minute/second triple: the degrees are the integer
    part of the magnitude, at most 180, the minutes are at most 59 and the
    seconds, in hundredths, at most 5999.  No rounding of the products
    carries into a full minute or degree. *)
Theorem dms_fields_in_range (x : float64) :
  valid_binary 53 1024 x = true ->
  SFleb (SFabs x) (Z2SF 180) = true ->
  exists d m n : Z,
    float_to_int (SFabs x) = Ok d /\
    _deg_to_dms_rational x = Ok [(d, 1%Z); (m, 1%Z); (n, 100%Z)] /\
    (0 <= d <= 180)%Z /\ (0 <= m <= 59)%Z /\ (0 <= n <= 5999)%Z.
Proof.
  intros Hv Hle. destruct (tame_abs_of_valid x Hv Hle) as [Ht Hs].
  exact (deg_to_dms_fields x Ht Hs).
Qed.

(** ** The coordinate strings [_parse_latlng] accepts *)

Lemma plain_byte_facts (c : ascii) :
  plain_byte c = true ->
  (forall s, starts_with "°" (String c s) = false) /\
  (forall s, starts_with "," (String c s) = false) /\
  (forall rest, space_length (Ascii.N_of_ascii c :: rest) = 0) /\
  is_ascii_space (Ascii.N_of_ascii c) = false /\
  (Ascii.N_of_ascii c < 128)%N.
Proof.
  destruct c as [[] [] [] [] [] [] [] []]; intros H; try discriminate H;
    repeat split; reflexivity.
Qed.

Lemma space_length_rev_plain (c : ascii) (rest : list N) :
  plain_byte c = true -> space_length_rev (Ascii.N_of_ascii c :: rest) = 0.
Proof.
  intros H. destruct (plain_byte_facts c H) as (_ & _ & _ & Hspace & Hlt).
  set (b := Ascii.N_of_ascii c) in *.
  assert (H133 : (b =? 133)%N = false) by (apply N.eqb_neq; lia).
  assert (H160 : (b =? 160)%N = false) by (apply N.eqb_neq; lia).
  assert (H128 : (b =? 128)%N = false) by (apply N.eqb_neq; lia).
  assert (H159 : (b =? 159)%N = false) by (apply N.eqb_neq; lia).
  assert (Hge : (128 <=? b)%N = false) by (apply N.leb_gt; lia).
  assert (H168 : (b =? 168)%N = false) by (apply N.eqb_neq; lia).
  assert (H169 : (b =? 169)%N = false) by (apply N.eqb_neq; lia).
  assert (H175 : (b =? 175)%N = false) by (apply N.eqb_neq; lia).
  unfold space_length_rev. rewrite Hspace. clearbody b. clear H Hlt Hspace.
  repeat match goal with
         | |- context [match ?v with _ => _ end] => is_var v; destruct v; try reflexivity
         end;
    rewrite ?H133, ?H160, ?H128, ?H159, ?Hge, ?H168, ?H169, ?H175; reflexivity.
Qed.

Lemma string_of_bytes_of_string (s : string) : string_of_bytes (bytes_of_string s) = s.
Proof.
  unfold string_of_bytes, bytes_of_string. rewrite List.map_map.
  rewrite (List.map_ext _ (fun c => c)) by apply Ascii.ascii_N_embedding.
  rewrite List.map_id. apply string_of_list_ascii_of_string.
Qed.

Lemma append_cons (c : ascii) (s t : string) : String c s +:+ t = String c (s +:+ t).
Proof. reflexivity. Qed.

Lemma append_nil_r (s : string) : s +:+ EmptyString = s.
Proof. induction s as [|c s IH]; [reflexivity|]. rewrite append_cons. now rewrite IH. Qed.

Lemma bytes_of_string_app (s t : string) :
  bytes_of_string (s +:+ t) = bytes_of_string s ++ bytes_of_string t.
Proof.
  unfold bytes_of_string. induction s as [|c s IH]; [reflexivity|].
  rewrite append_cons. cbn [list_ascii_of_string List.map]. now rewrite IH.
Qed.

Lemma append_assoc (s t u : string) : (s +:+ t) +:+ u = s +:+ (t +:+ u).
Proof. induction s as [|c s IH]; [reflexivity|]. rewrite !append_cons. now rewrite IH. Qed.

Lemma drop_spaces_head (measure : list N -> nat) (l : list N) :
  measure l = 0 -> drop_spaces measure 0 l = l.
Proof. intros H. destruct l as [|x rest]; [reflexivity|]. cbn [drop_spaces]. now rewrite H. Qed.

(** [strip] leaves alone a text that starts and ends with a plain
    character. *)
Lemma py_strip_plain_ends (c d : ascii) (s t : string) :
  plain_byte c = true -> plain_byte d = true ->
  String c s = t +:+ String d EmptyString ->
  py_strip (String c s) = String c s.
Proof.
  intros Hc Hd Hlast. unfold py_strip.
  destruct (plain_byte_facts c Hc) as (_ & _ & Hsp & _).
  rewrite (drop_spaces_head space_length).
  2:{ unfold bytes_of_string. cbn [list_ascii_of_string List.map]. apply Hsp. }
  rewrite (drop_spaces_head space_length_rev).
  2:{ rewrite Hlast, bytes_of_string_app, rev_app_distr. cbn.
      apply space_length_rev_plain, Hd. }
  rewrite rev_involutive. apply string_of_bytes_of_string.
Qed.

Lemma plain_first (a : string) :
  plain a = true ->
  exists c a', a = String c a' /\ plain_byte c = true /\
    forallb plain_byte (list_ascii_of_string a) = true.
Proof.
  unfold plain. destruct a as [|c a']; [discriminate|]. cbn [String.eqb negb andb].
  intros H. exists c, a'. split; [reflexivity|]. split; [|exact H].
  cbn [list_ascii_of_string forallb] in H. now apply andb_true_iff in H.
Qed.

Lemma plain_last (a : string) :
  plain a = true ->
  exists t d, a = t +:+ String d EmptyString /\ plain_byte d = true.
Proof.
  intros H. apply plain_first in H. destruct H as (c & a' & -> & _ & H).
  revert c H. induction a' as [|c' a' IH]; intros c H;
    cbn [list_ascii_of_string forallb] in H; apply andb_true_iff in H; destruct H as [Hc H].
  - exists EmptyString, c. auto.
  - destruct (IH c' H) as (t & d & Heq & Hd). exists (String c t), d.
    change (String c t +:+ String d EmptyString) with (String c (t +:+ String d EmptyString)).
    rewrite <- Heq. auto.
Qed.

Lemma py_strip_plain (a : string) : plain a = true -> py_strip a = a.
Proof.
  intros H. destruct (plain_first a H) as (c & a' & Ha & Hc & _).
  destruct (plain_last a H) as (t & d & Hlast & Hd). subst a.
  exact (py_strip_plain_ends c d a' t Hc Hd Hlast).
Qed.

Lemma py_strip_space_plain (b : string) :
  plain b = true -> py_strip (String " " b) = b.
Proof.
  intros H. rewrite <- (py_strip_plain b H) at 2.
  destruct (plain_first b H) as (c & b' & -> & Hc & _).
  destruct (plain_byte_facts c Hc) as (_ & _ & Hsp & _).
  assert (Hdrop : drop_spaces space_length 0 (bytes_of_string (String " " (String c b'))) =
                  drop_spaces space_length 0 (bytes_of_string (String c b'))).
  { unfold bytes_of_string. cbn [list_ascii_of_string List.map].
    change (Ascii.N_of_ascii " ") with 32%N.
    set (l := Ascii.N_of_ascii c :: _). cbn [drop_spaces].
    change (space_length (32%N :: l)) with 1. cbv iota.
    subst l. cbn [drop_spaces]. reflexivity. }
  unfold py_strip. rewrite Hdrop. reflexivity.
Qed.

Lemma replace_go_plain (a s : string) :
  forallb plain_byte (list_ascii_of_string a) = true ->
  replace_go "°" "" 0 (a +:+ s) = a +:+ replace_go "°" "" 0 s.
Proof.
  induction a as [|c a IH]; [reflexivity|].
  cbn [list_ascii_of_string forallb]. intros H. apply andb_true_iff in H.
  destruct H as [Hc H]. destruct (plain_byte_facts c Hc) as (Hdeg & _).
  change (String c a +:+ s) with (String c (a +:+ s)).
  cbn [replace_go]. rewrite Hdeg, (IH H). reflexivity.
Qed.

Lemma split_go_no_comma (a s : string) (cur : list ascii) :
  Forall (fun c => c <> ","%char) (list_ascii_of_string a) ->
  split_go "," 0 cur (a +:+ s) = split_go "," 0 (rev (list_ascii_of_string a) ++ cur) s.
Proof.
  revert cur. induction a as [|c a IH]; intros cur H; [reflexivity|].
  cbn [list_ascii_of_string] in H. inversion H as [|? ? Hc H']; subst.
  change (String c a +:+ s) with (String c (a +:+ s)).
  cbn [split_go starts_with].
  replace (Ascii.eqb "," c) with false
    by (symmetry; apply Ascii.eqb_neq; congruence).
  cbn [andb]. rewrite (IH _ H'). cbn [list_ascii_of_string rev].
  now rewrite <- app_assoc.
Qed.

Lemma plain_no_comma (a : string) :
  forallb plain_byte (list_ascii_of_string a) = true ->
  Forall (fun c => c <> ","%char) (list_ascii_of_string a).
Proof.
  intros H. apply Forall_forall. intros c Hc ->.
  rewrite forallb_forall in H. specialize (H _ (proj1 (list_elem_of_In _ _) Hc)).
  discriminate H.
Qed.

(** X21. A coordinate string in the form the export uses, two numbers each
    followed by a degree sign and separated by a comma and a space, is
    parsed into exactly these two numbers. *)
Theorem export_coordinates_are_parsed (a b : string) :
  plain a = true -> plain b = true ->
  _parse_latlng (JStr (a +:+ "°, " +:+ b +:+ "°")) =
  (lat <~ of_option ValueError (py_float env a) ;;
   lon <~ of_option ValueError (py_float env b) ;;
   Ok (lat, lon))%se.
Proof.
  intros Ha Hb.
  destruct (plain_first a Ha) as (_ & _ & _ & _ & Hpa).
  destruct (plain_first b Hb) as (_ & _ & _ & _ & Hpb).
  assert (Hreplace : py_replace "°" "" (a +:+ "°, " +:+ b +:+ "°") = a +:+ ", " +:+ b).
  { unfold py_replace. rewrite (replace_go_plain a _ Hpa). f_equal.
    change (replace_go "°" "" 0 ("°, " +:+ b +:+ "°"))
      with (String "," (String " " (replace_go "°" "" 0 (b +:+ "°")))).
    rewrite (replace_go_plain b _ Hpb).
    change (replace_go "°" "" 0 "°") with EmptyString.
    change (", " +:+ b) with (String "," (String " " b)). do 2 f_equal.
    apply append_nil_r. }
  assert (Hstrip : py_strip (a +:+ ", " +:+ b) = a +:+ ", " +:+ b).
  { destruct (plain_first a Ha) as (c & a' & -> & Hc & _).
    destruct (plain_last b Hb) as (t & d & -> & Hd).
    change (String c a' +:+ ", " +:+ t +:+ String d EmptyString)
      with (String c (a' +:+ ", " +:+ t +:+ String d EmptyString)).
    apply (py_strip_plain_ends c d _ (String c a' +:+ ", " +:+ t) Hc Hd).
    change (String c a' +:+ ", " +:+ t) with (String c (a' +:+ ", " +:+ t)).
    change (String c (a' +:+ ", " +:+ t) +:+ String d EmptyString)
      with (String c ((a' +:+ ", " +:+ t) +:+ String d EmptyString)).
    f_equal. now rewrite !append_assoc. }
  assert (Hsplit : py_split "," (a +:+ ", " +:+ b) = [a; String " " b]).
  { unfold py_split. rewrite (split_go_no_comma a _ [] (plain_no_comma a Hpa)).
    change (", " +:+ b) with (String "," (String " " b)).
    cbn [split_go starts_with]. change (Ascii.eqb "," ",") with true. cbn [andb].
    rewrite app_nil_r, rev_involutive, string_of_list_ascii_of_string. f_equal.
    change (String.length "," - 1) with 0. cbn [split_go starts_with].
    change (Ascii.eqb "," " ") with false. cbn [andb].
    rewrite <- (append_nil_r b) at 1.
    rewrite (split_go_no_comma b _ _ (plain_no_comma b Hpb)).
    cbn [split_go]. rewrite rev_app_distr, rev_involutive. cbn [rev app].
    f_equal. cbn [string_of_list_ascii]. now rewrite string_of_list_ascii_of_string. }
  unfold _parse_latlng. rewrite Hreplace, Hstrip, Hsplit.
  cbn [List.map]. rewrite (py_strip_plain a Ha), (py_strip_space_plain b Hb).
  reflexivity.
Qed.

Lemma replace_go_Forall (P : ascii -> Prop) (old : string) (skip : nat) (s : string) :
  Forall P (list_ascii_of_string s) ->
  Forall P (list_ascii_of_string (replace_go old "" skip s)).
Proof.
  revert skip. induction s as [|c s IH]; intros skip H; [exact H|].
  cbn [list_ascii_of_string] in H. inversion H as [|? ? Hc H']; subst.
  cbn [replace_go]. destruct skip as [|k]; [|apply IH, H'].
  destruct (starts_with old (String c s)).
  - change (EmptyString +:+ ?x) with x. apply IH, H'.
  - cbn [list_ascii_of_string]. constructor; [exact Hc|apply IH, H'].
Qed.

Lemma drop_spaces_Forall (Q : N -> Prop) (measure : list N -> nat) (skip : nat)
    (l : list N) :
  Forall Q l -> Forall Q (drop_spaces measure skip l).
Proof.
  revert skip. induction l as [|x l IH]; intros skip H; [exact H|].
  inversion H as [|? ? Hx H']; subst. cbn [drop_spaces].
  destruct skip as [|k]; [|apply IH, H'].
  destruct (measure (x :: l)); [exact H|apply IH, H'].
Qed.

Lemma py_strip_Forall (P : ascii -> Prop) (s : string) :
  Forall P (list_ascii_of_string s) -> Forall P (list_ascii_of_string (py_strip s)).
Proof.
  intros H. unfold py_strip, string_of_bytes. rewrite list_ascii_of_string_of_list_ascii.
  apply Forall_map, Forall_rev, drop_spaces_Forall, Forall_rev, drop_spaces_Forall.
  unfold bytes_of_string. apply Forall_map.
  eapply Forall_impl; [exact H|]. intros c Hc. cbn. now rewrite Ascii.ascii_N_embedding.
Qed.

(** X22. A coordinate string without a comma is rejected with a [ValueError],
    whatever else it holds: removing degree signs and stripping whitespace
    never produce the separator. *)
Theorem latlng_without_comma_is_rejected (s : string) :
  Forall (fun c => c <> ","%char) (list_ascii_of_string s) ->
  _parse_latlng (JStr s) = Raise ValueError.
Proof.
  intros H. unfold _parse_latlng, py_replace.
  pose proof (py_strip_Forall _ _ (replace_go_Forall _ "°" 0 s H)) as Hclean.
  set (ll_clean := py_strip (replace_go "°" "" 0 s)) in *.
  unfold py_split. rewrite <- (append_nil_r ll_clean).
  rewrite (split_go_no_comma ll_clean EmptyString [] Hclean). reflexivity.
Qed.

End Program.

(** * The theorems at the example collaborators *)

Lemma visit_emits_one_midpoint_sample_witness :
  fst (load_timeline_points example_collaborators [example_visit]) =
  [mkPoint 1704106800000000 (Z2SF 35) (Z2SF 139)].
Proof.
  refine (proj1 (proj2
    (visit_emits_one_midpoint_sample example_collaborators example_visit
       (JObj {[ "topCandidate" :=
          JObj {[ "placeLocation" := JObj {[ "latLng" := JStr "35.0°, 139.0°" ]} ]} ]})
       (JObj {[ "placeLocation" := JObj {[ "latLng" := JStr "35.0°, 139.0°" ]} ]})
       (JObj {[ "latLng" := JStr "35.0°, 139.0°" ]})
       (JStr "35.0°, 139.0°") (Z2SF 35) (Z2SF 139)
       "2024-01-01T10:00:00Z" "2024-01-01T12:00:00Z"
       1704103200000000 1704110400000000 (mkBuild [] [])
       _ _ _ _ _ _ _ _ _ _))); vm_compute; reflexivity.
Defined.



Lemma far_photo_is_skipped_untouched_witness :
  photo_step example_collaborators example_args [example_sample] "a.jpg"
    (example_state example_far) =
  (Ok tt,
   mkRun {[ "a.jpg" := Photo example_far ]} 0 1
     [(INFO, "%s has no close timeline match (gap > %s); skipping")]).
Proof.
  refine (far_photo_is_skipped_untouched example_collaborators example_args
            [example_sample] "a.jpg" example_far (EBytes "2024:06:01 03:00:00")
            1717210800 (example_state example_far) _ _ _ _ _).
  - vm_compute. reflexivity.
  - vm_compute. reflexivity.
  - vm_compute. reflexivity.
  - vm_compute. reflexivity.
  - intros q Hq. apply list_elem_of_singleton in Hq. subst q. vm_compute. reflexivity.
Defined.

Lemma gps_skip_needs_both_coordinates_witness :
  update_photo example_collaborators "a.jpg" example_sample "Etc/GMT+7" true false false
    (example_state example_half_tagged) =
  update_photo example_collaborators "a.jpg" example_sample "Etc/GMT+7" true false true
    (example_state example_half_tagged).
Proof.
  refine (proj1 (proj2
    (gps_skip_needs_both_coordinates example_collaborators "a.jpg" example_sample
       "Etc/GMT+7" true false example_half_tagged (example_state example_half_tagged) _) _)).
  - vm_compute. reflexivity.
  - vm_compute. reflexivity.
Defined.

(** The end-to-end scenario: the half-tagged photo is stamped with the local
    time in Tokyo, the offset [+09:00] and the coordinates of the sample. *)
Example half_tagged_photo_is_stamped :
  exists s' e',
    update_photo example_collaborators "a.jpg" example_sample "Etc/GMT+7" true false false
      (example_state example_half_tagged) = (Ok true, s') /\
    fs s' !! "a.jpg" = Some (Photo e') /\
    carries_stamp e' "2024:06:02 02:30:00" "+09:00"
      "N" [(35, 1); (0, 1); (0, 100)]%Z "E" [(139, 1); (0, 1); (0, 100)]%Z.
Proof.
  eexists; eexists. split; [vm_compute; reflexivity|].
  split; [vm_compute; reflexivity|].
  repeat split; vm_compute; reflexivity.
Qed.

(** C9 fails on the code: a photo that already has both GPS coordinates
    (and is within the gap of a sample) is declined by [update_photo], and
    [main] then counts it neither as processed nor as skipped: one photo was
    handled and the counters sum to zero. *)
Theorem tagged_photo_is_counted_nowhere :
  let files : gmap string file := {[ "a.jpg" := Photo example_tagged ]} in
  let run := main example_collaborators example_args example_timeline ["a.jpg"] files in
  fst run = Returned /\
  processed (snd run) = 0 /\ skipped (snd run) = 0 /\
  length ["a.jpg"] = 1.
Proof. vm_compute. repeat split. Qed.

(** * Further properties at the example collaborators *)

Lemma dry_run_changes_no_file_witness :
  fs (snd (main example_collaborators (mkArgs "Etc/GMT+7" 60 false true false false)
             example_timeline ["a.jpg"] {[ "a.jpg" := Photo example_untagged ]}))
  = {[ "a.jpg" := Photo example_untagged ]}.
Proof.
  apply (dry_run_changes_no_file example_collaborators
           (mkArgs "Etc/GMT+7" 60 false true false false)).
  reflexivity.
Defined.

Lemma main_fails_only_before_the_loop_witness :
  let run := main example_collaborators (mkArgs "Etc/GMT+7" 1440000000000 true false false false)
               example_timeline ["a.jpg"] {[ "a.jpg" := Photo example_untagged ]} in
  fst run = Escaped OverflowError /\
  fs (snd run) = {[ "a.jpg" := Photo example_untagged ]} /\
  processed (snd run) = 0 /\ skipped (snd run) = 0.
Proof.
  refine (proj2 (proj1 (proj2 (main_fails_only_before_the_loop example_collaborators
            (mkArgs "Etc/GMT+7" 1440000000000 true false false false)
            example_timeline ["a.jpg"] {[ "a.jpg" := Photo example_untagged ]} _)) _ _) _).
  - vm_compute. reflexivity.
  - vm_compute. discriminate.
  - discriminate.
  - cbn [max_gap_minutes]. lia.
Defined.

Lemma main_touches_only_photos_and_backups_witness :
  fs (snd (main example_collaborators example_args example_timeline ["a.jpg"]
             {[ "a.jpg" := Photo example_untagged; "notes.txt" := NotAPhoto "" ]}))
    !! "notes.txt" = Some (NotAPhoto "").
Proof.
  refine (proj1 (main_touches_only_photos_and_backups example_collaborators example_args
                   example_timeline ["a.jpg"]
                   {[ "a.jpg" := Photo example_untagged; "notes.txt" := NotAPhoto "" ]}
                   "notes.txt" _) (NotAPhoto "") _).
  - simpl. intros [H|[]]. discriminate H.
  - vm_compute. reflexivity.
Defined.

Lemma main_without_backup_creates_no_file_witness :
  fs (snd (main example_collaborators example_args example_timeline ["a.jpg"]
             {[ "a.jpg" := Photo example_untagged ]})) !! "a.jpg.exif_backup" = None.
Proof.
  refine (proj2 (main_without_backup_creates_no_file example_collaborators example_args
                   example_timeline ["a.jpg"] {[ "a.jpg" := Photo example_untagged ]}
                   "a.jpg.exif_backup" _) _).
  - reflexivity.
  - vm_compute. reflexivity.
Defined.

Lemma main_removes_no_file_witness :
  exists f',
    fs (snd (main example_collaborators example_args example_timeline ["a.jpg"]
               {[ "a.jpg" := Photo example_untagged ]})) !! "a.jpg" = Some f' /\
    (forall e, Photo example_untagged = Photo e -> exists e', f' = Photo e') /\
    (forall b, Photo example_untagged = NotAPhoto b -> f' = Photo example_untagged).
Proof.
  apply (main_removes_no_file example_collaborators example_args example_timeline
           ["a.jpg"] {[ "a.jpg" := Photo example_untagged ]} "a.jpg" (Photo example_untagged)).
  vm_compute. reflexivity.
Defined.

Lemma backup_keeps_original_witness :
  let final :=
    fs (snd (main example_collaborators (mkArgs "Etc/GMT+7" 60 true true false false)
               example_timeline ["a.jpg"] {[ "a.jpg" := Photo example_untagged ]})) in
  final !! ("a.jpg" +:+ ".exif_backup") = Some (Photo example_untagged)
  \/
  (final !! "a.jpg" = Some (Photo example_untagged) /\
   final !! ("a.jpg" +:+ ".exif_backup") = None).
Proof.
  apply (backup_keeps_original example_collaborators
           (mkArgs "Etc/GMT+7" 60 true true false false) example_timeline ["a.jpg"]
           {[ "a.jpg" := Photo example_untagged ]} "a.jpg" (Photo example_untagged)).
  - reflexivity.
  - vm_compute. reflexivity.
  - vm_compute. reflexivity.
  - simpl. intros [H|[]]. discriminate H.
Defined.


Lemma stamped_photo_is_skipped_next_time_witness :
  let s := example_state example_untagged in
  let s' := snd (update_photo example_collaborators "a.jpg" example_sample "Etc/GMT+7"
                   true false false s) in
  update_photo example_collaborators "a.jpg" example_sample "UTC" true true false s' =
  (Ok false,
   mkRun (fs s') (processed s') (skipped s')
     (run_log s' ++ [(DEBUG, "%s already has GPS tags; skipping")])).
Proof.
  intros s s'.
  apply (stamped_photo_is_skipped_next_time example_collaborators "a.jpg" example_sample
           "Etc/GMT+7" false false s s').
  vm_compute. reflexivity.
Defined.

Lemma update_needs_finite_coordinates_witness :
  let s := example_state example_untagged in
  let run := update_photo example_collaborators "a.jpg" (mkPoint 0 S754_nan (Z2SF 139))
               "Etc/GMT+7" true false false s in
  fst run <> Ok true /\ fs (snd run) = fs s.
Proof.
  intros s run.
  apply (update_needs_finite_coordinates example_collaborators "a.jpg"
           (mkPoint 0 S754_nan (Z2SF 139)) "Etc/GMT+7" true false false s (snd run) (fst run)).
  - reflexivity.
  - vm_compute. reflexivity.
Defined.

Lemma photo_within_gap_is_matched_witness :
  let ts := localize_utc example_collaborators (camera_tz example_args) 1717237800 in
  exists tl_point,
    find_nearest_timeline_point [example_sample] ts = Some tl_point /\
    (gap tl_point ts <= gap example_sample ts)%Z /\
    photo_step example_collaborators example_args [example_sample] "a.jpg"
      (example_state example_untagged) =
    count_update example_collaborators example_args "a.jpg" tl_point
      (example_state example_untagged).
Proof.
  apply (photo_within_gap_is_matched example_collaborators example_args [example_sample]
           "a.jpg" example_untagged (EBytes "2024:06:01 10:30:00") 1717237800
           example_sample (example_state example_untagged)).
  - apply non_decreasing_of_sorted. repeat constructor.
  - apply list_elem_of_singleton. reflexivity.
  - vm_compute. reflexivity.
  - vm_compute. reflexivity.
  - vm_compute. reflexivity.
  - vm_compute. reflexivity.
  - vm_compute. discriminate.
Defined.

Lemma unusable_photos_are_all_skipped_witness :
  let run := main example_collaborators example_args example_timeline ["a.jpg"; "b.jpg"]
               {[ "a.jpg" := Photo (example_exif "" ∅); "b.jpg" := NotAPhoto "" ]} in
  fs (snd run) = {[ "a.jpg" := Photo (example_exif "" ∅); "b.jpg" := NotAPhoto "" ]} /\
  processed (snd run) = 0 /\
  skipped (snd run) = length ["a.jpg"; "b.jpg"].
Proof.
  apply (unusable_photos_are_all_skipped example_collaborators example_args
           example_timeline ["a.jpg"; "b.jpg"]
           {[ "a.jpg" := Photo (example_exif "" ∅); "b.jpg" := NotAPhoto "" ]}).
  - vm_compute. reflexivity.
  - vm_compute. discriminate.
  - cbn [max_gap_minutes example_args]. lia.
  - intros p exif [<-|[<-|[]]] H; vm_compute in H; inversion H. reflexivity.
Defined.

Lemma dry_run_predicts_apply_witness :
  let dry := main example_collaborators (mkArgs "Etc/GMT+7" 60 false true false false)
               example_timeline ["a.jpg"] {[ "a.jpg" := Photo example_untagged ]} in
  let real := main example_collaborators (mkArgs "Etc/GMT+7" 60 true true false false)
                example_timeline ["a.jpg"] {[ "a.jpg" := Photo example_untagged ]} in
  fst dry = fst real /\
  processed (snd dry) = processed (snd real) /\
  skipped (snd dry) = skipped (snd real).
Proof.
  apply (dry_run_predicts_apply example_collaborators "Etc/GMT+7" 60 true false false
           example_timeline ["a.jpg"] {[ "a.jpg" := Photo example_untagged ]}).
  - repeat constructor. intros H. inversion H.
  - intros _ p [<-|[]]. simpl. intros [H|[]]. discriminate H.
  - intros. eexists. reflexivity.
Defined.

Lemma find_nearest_first_exact_match_witness :
  let a := mkPoint 10 (S754_zero false) (S754_zero false) in
  let b := mkPoint 20 (S754_zero false) (S754_zero false) in
  let c := mkPoint 20 (S754_zero true) (S754_zero true) in
  find_nearest_timeline_point [a; b; c] 20 = Some b.
Proof.
  intros a b c.
  apply (find_nearest_first_exact_match [a; b; c] 20 1 b).
  - apply non_decreasing_of_sorted. unfold instant_le, a, b, c.
    repeat (constructor; simpl; try lia).
  - reflexivity.
  - reflexivity.
  - intros [|[|j]] q Hj Hq; [|lia|lia]. inversion Hq; subst q. simpl. lia.
Defined.

Lemma find_nearest_between_neighbours_witness :
  let a := mkPoint 10 (S754_zero false) (S754_zero false) in
  let b := mkPoint 20 (S754_zero false) (S754_zero false) in
  find_nearest_timeline_point [a; b] 14 =
  Some (if (14 - time_utc a <? time_utc b - 14)%Z then a else b).
Proof.
  intros a b.
  apply (find_nearest_between_neighbours [a; b] 14 0 a b).
  - apply non_decreasing_of_sorted. unfold instant_le, a, b.
    repeat (constructor; simpl; try lia).
  - reflexivity.
  - reflexivity.
  - simpl. lia.
Defined.

Lemma path_segment_emits_parsed_prefix_witness :
  segment_outcome example_collaborators example_broken_path =
  mkBuild [] [(WARNING, "Failed to parse segment entry: %s")].
Proof.
  refine (proj1 (path_segment_emits_parsed_prefix example_collaborators
            {[ "timelinePath" :=
               JArr [example_entry "35.0°; 139.0°" "2024-01-01T10:00:00Z";
                     example_entry "35.0°, 139.0°" "2024-01-01T12:00:00Z"] ]}
            [example_entry "35.0°; 139.0°" "2024-01-01T10:00:00Z";
             example_entry "35.0°, 139.0°" "2024-01-01T12:00:00Z"] _)).
  vm_compute. reflexivity.
Defined.

Lemma path_takes_precedence_over_visit_witness :
  parse_segment example_collaborators
    (JObj {[ "timelinePath" := JArr [example_entry "35.0°, 139.0°" "2024-01-01T12:00:00Z"];
             "visit" := JNull ]})
    (mkBuild [] []) =
  parse_segment example_collaborators
    (JObj {[ "timelinePath" := JArr [example_entry "35.0°, 139.0°" "2024-01-01T12:00:00Z"] ]})
    (mkBuild [] []).
Proof.
  apply (path_takes_precedence_over_visit example_collaborators).
  - vm_compute. eexists. reflexivity.
  - vm_compute. reflexivity.
Defined.

Lemma unusable_visit_emits_nothing_witness :
  segment_outcome example_collaborators (JObj {[ "visit" := JObj ∅ ]}) = mkBuild [] [].
Proof.
  refine (proj1 (unusable_visit_emits_nothing example_collaborators
                   (JObj {[ "visit" := JObj ∅ ]}) _ _) KeyError _).
  - vm_compute. reflexivity.
  - vm_compute. reflexivity.
  - vm_compute. reflexivity.
Defined.

Lemma dms_fields_in_range_witness :
  exists d m n : Z,
    float_to_int (SFabs (Z2SF (-122))) = Ok d /\
    _deg_to_dms_rational (Z2SF (-122)) = Ok [(d, 1%Z); (m, 1%Z); (n, 100%Z)] /\
    (0 <= d <= 180)%Z /\ (0 <= m <= 59)%Z /\ (0 <= n <= 5999)%Z.
Proof.
  apply (dms_fields_in_range (Z2SF (-122))); vm_compute; reflexivity.
Defined.

Lemma export_coordinates_are_parsed_witness :
  _parse_latlng example_collaborators (JStr ("35.0" +:+ "°, " +:+ "139.0" +:+ "°")) =
  rbind (of_option ValueError (py_float example_collaborators "35.0")) (fun lat =>
  rbind (of_option ValueError (py_float example_collaborators "139.0")) (fun lon =>
  Ok (lat, lon))).
Proof.
  apply (export_coordinates_are_parsed example_collaborators "35.0" "139.0");
    vm_compute; reflexivity.
Defined.

Lemma latlng_without_comma_is_rejected_witness :
  _parse_latlng example_collaborators (JStr "35.0; 139.0") = Raise ValueError.
Proof.
  apply (latlng_without_comma_is_rejected example_collaborators "35.0; 139.0").
  cbn. repeat (constructor; [discriminate|]). constructor.
Defined.
